(** * LSB-R / LSB-M / Hamming(15,11) steganography: model and verification

    A shallow embedding of [lsb_replacement.py], [lsb_matching.py] and
    [hamming_code.py], and of what the callbacks of [main.py] compute.

    Modelling conventions.
    - A [numpy] [uint8] array is a [list Z]; a bit array is a [list Z] whose
      entries are 0 or 1, as [np.unpackbits] and [& 1] produce them.
    - The image files an engine reads and writes live in a store
      [gmap string file]; a 24-bit BMP is represented by its flattened pixel
      array ([arr.reshape(-1)]), which is what the engines work on.
    - Engine code runs in a small state-and-exception monad [IO] over this
      store, so that the order of checks, reads and the final write is the
      order of the Python statements.
    - A Python [float] rate is an exact rational [Q]; [int(n * rate)] is the
      exact product truncated toward zero.
    - Integer arithmetic is exact wherever the values stay inside their
      [numpy] type; where a type can wrap ([uint8] sums, [& 0xFF]) the
      wrap-around is written out.  The index [start + pos] of the Hamming
      loop adds a Python integer and a [numpy] scalar and is the exact sum.
    - The random polarity draws of LSB matching are a parameter
      [rng : nat -> bool]: [rng k] is the [k]-th entry of the array returned
      by [_rng.integers(0, 2, size)].
    - Of the window, the callbacks are modelled from the values of the
      entries to the dialog they end in: a path is a string of 8-bit
      characters, the payload text a list of code points, and
      [os.path.splitext] is [genericpath._splitext] with the separators of
      [posixpath] or of [ntpath]. *)

From Stdlib Require Import ZArith QArith Lia.
From stdpp Require Import base list gmap strings.

Local Open Scope Z_scope.

(** ** Exceptions *)

(** The failures the three modules can raise.  They are named after the
    error taxonomy where it has a name for them; [OverflowError] is the
    Python built-in raised by [int.to_bytes], [ShapeMismatch] the [ValueError]
    [numpy] raises when operand shapes disagree, [FileNotFound] what
    [Image.open] raises on a missing path. *)
Inductive error : Type :=
  | RateOutOfRange
  | FileNotFound
  | InvalidCarrierFormat
  | PayloadTooLarge
  | OverflowError
  | CapacityExceeded
  | TruncatedHeader
  | MagicMismatch
  | TruncatedPayload
  | MisalignedBits
  | ShapeMismatch.

Inductive result (A : Type) : Type :=
  | OK (a : A)
  | Error (e : error).
Arguments OK {A} a.
Arguments Error {A} e.

(** ** The file store and the [IO] monad *)

Inductive file : Type :=
  | Bmp (flat : list Z)   (* a BMP image, as its flat RGB sample array *)
  | NotBmp.               (* any other kind of file *)

Definition IO (A : Type) : Type := gmap string file → gmap string file * result A.

Definition io_ret {A} (a : A) : IO A := λ fs, (fs, OK a).

Definition raise {A} (e : error) : IO A := λ fs, (fs, Error e).

Definition io_bind {A B} (m : IO A) (k : A → IO B) : IO B :=
  λ fs, match m fs with
        | (fs', OK a) => k a fs'
        | (fs', Error e) => (fs', Error e)
        end.

Notation "x <- m ;; k" := (io_bind m (λ x, k))
  (at level 100, m at next level, right associativity, only parsing).

(** [_open_rgb_bmp]: only BMP files are accepted; the pixel array comes back
    as [uint8] RGB samples.  The three modules carry identical copies. *)
Definition _open_rgb_bmp (path : string) : IO (list Z) :=
  λ fs, match fs !! path with
        | None => (fs, Error FileNotFound)
        | Some NotBmp => (fs, Error InvalidCarrierFormat)
        | Some (Bmp flat) => (fs, OK flat)
        end.

(** [Image.fromarray(stego_arr, "RGB").save(out_path, format="BMP")]. *)
Definition save_bmp (out_path : string) (stego_flat : list Z) : IO () :=
  λ fs, (<[out_path := Bmp stego_flat]> fs, OK ()).

(** ** Numbers *)

(** Python's [int(x)] on a float: truncation toward zero. *)
Definition py_int (q : Q) : Z := Z.quot (Qnum q) (Z.pos (Qden q)).

(** [int(n * rate)] for an integer [n]. *)
Definition scale (n : Z) (rate : Q) : Z := py_int (inject_Z n * rate).

(** [0.0 <= rate <= 1.0], the guard of [embed]. *)
Definition rate_in_closed_unit (rate : Q) : bool :=
  Qle_bool 0 rate && Qle_bool rate 1.

(** [0.0 < rate <= 1.0], the guard of [extract]. *)
Definition rate_in_half_open_unit (rate : Q) : bool :=
  negb (Qle_bool rate 0) && Qle_bool rate 1.

Definition len {A} (l : list A) : Z := Z.of_nat (length l).

(** ** Bit/byte conversion *)

(** [np.unpackbits] on one [uint8]: eight bits, most significant first. *)
Definition unpack_byte (b : Z) : list Z :=
  (λ k, Z.land (Z.shiftr b k) 1) <$> [7; 6; 5; 4; 3; 2; 1; 0].

(** [_bits_from_bytes]: [np.unpackbits(np.frombuffer(data, dtype=np.uint8))]. *)
Definition _bits_from_bytes (data : list Z) : list Z :=
  concat (unpack_byte <$> data).

(** [np.packbits] reads any nonzero entry as a set bit. *)
Definition bit_of (x : Z) : Z := if x =? 0 then 0 else 1.

(** The value of up to eight bits, most significant first, padded with zero
    bits on the right as [np.packbits] pads a short last group. *)
Definition pack_group (group : list Z) : Z :=
  foldl (λ acc b, 2 * acc + bit_of b) 0 (group ++ replicate (8 - length group) 0).

Fixpoint packbits (bits : list Z) : list Z :=
  match bits with
  | [] => []
  | b7 :: b6 :: b5 :: b4 :: b3 :: b2 :: b1 :: b0 :: rest =>
      pack_group [b7; b6; b5; b4; b3; b2; b1; b0] :: packbits rest
  | short => [pack_group short]
  end.

(** [_bytes_from_bits]. *)
Definition _bytes_from_bits (bits : list Z) : result (list Z) :=
  if negb (len bits mod 8 =? 0) then Error MisalignedBits
  else OK (packbits bits).

(** [n.to_bytes(length, "little")]: [OverflowError] when [n] is negative or
    does not fit. *)
Fixpoint little_endian (n : Z) (length : nat) : list Z :=
  match length with
  | O => []
  | S k => n mod 256 :: little_endian (n / 256) k
  end.

Definition to_bytes (n : Z) (length : nat) : result (list Z) :=
  if (n <? 0) || (256 ^ Z.of_nat length <=? n) then Error OverflowError
  else OK (little_endian n length).

(** [int.from_bytes(bs, "little")]. *)
Definition from_bytes (bs : list Z) : Z :=
  foldr (λ b acc, b + 256 * acc) 0 bs.

(** Lifting a pure, possibly failing computation into [IO]. *)
Definition lift {A} (r : result A) : IO A :=
  λ fs, (fs, r).

(** [bytes] literals. *)
Definition ascii_bytes (s : string) : list Z :=
  (λ c, Z.of_nat (Ascii.nat_of_ascii c)) <$> String.list_ascii_of_string s.

(** A pure, possibly failing step followed by its continuation. *)
Definition result_bind {A B} (r : result A) (k : A → result B) : result B :=
  match r with
  | OK a => k a
  | Error e => Error e
  end.

Notation "x <~ r ;; k" := (result_bind r (λ x, k))
  (at level 100, r at next level, right associativity, only parsing).

(** ** Array helpers *)

(** [a & 1] on an array. *)
Definition lsb (x : Z) : Z := Z.land x 1.

(** [a[start:stop]] for non-negative bounds: shorter when [a] ends early. *)
Definition slice (a : list Z) (start stop : Z) : list Z :=
  take (Z.to_nat (stop - start)) (drop (Z.to_nat start) a).

(** [a[:n] &= mask]. *)
Definition iand_prefix (a : list Z) (n : Z) (mask : Z) : list Z :=
  ((λ x, Z.land x mask) <$> take (Z.to_nat n) a) ++ drop (Z.to_nat n) a.

(** [a[:n] |= bits]; [numpy] refuses operands of different shapes. *)
Definition ior_prefix (a : list Z) (n : Z) (bits : list Z) : result (list Z) :=
  if bool_decide (length (take (Z.to_nat n) a) = length bits)
  then OK (zip_with Z.lor (take (Z.to_nat n) a) bits ++ drop (Z.to_nat n) a)
  else Error ShapeMismatch.

(** [np.array_equal]. *)
Definition array_equal (a b : list Z) : bool := bool_decide (a = b).

(** ** LSB replacement ([lsb_replacement.py]) *)

Module lsb_replacement.

Definition _LENGTH_HEADER_BITS : Z := 32.
Definition _MAGIC : list Z := ascii_bytes "LSBR".
Definition _MAGIC_BITS : list Z := _bits_from_bytes _MAGIC.

Definition embed (image_path : string) (payload : list Z) (rate : Q)
    (out_path : string) : IO () :=
  if negb (rate_in_closed_unit rate) then raise RateOutOfRange else
  flat <- _open_rgb_bmp image_path ;;
  let capacity_bits := len flat in
  let max_payload_bits := scale capacity_bits rate in
  let payload_len := len payload in
  if 2 ^ 32 <=? payload_len then raise PayloadTooLarge else
  header <- lift (to_bytes payload_len 4) ;;
  let full := _MAGIC ++ header ++ payload in
  let full_bits := _bits_from_bytes full in
  if max_payload_bits <? len full_bits then raise CapacityExceeded else
  let stego_flat := flat in                              (* flat.copy() *)
  let stego_flat := iand_prefix stego_flat (len full_bits) 0xFE in
  stego_flat <- lift (ior_prefix stego_flat (len full_bits) full_bits) ;;
  save_bmp out_path stego_flat.

Definition extract (image_path : string) (rate : Q) : IO (list Z) :=
  if negb (rate_in_half_open_unit rate) then raise RateOutOfRange else
  flat <- _open_rgb_bmp image_path ;;
  let max_bits := scale (len flat) rate in
  let needed_magic_bits := len _MAGIC_BITS in
  if max_bits <? needed_magic_bits + _LENGTH_HEADER_BITS
  then raise TruncatedHeader else
  let magic_bits := lsb <$> slice flat 0 needed_magic_bits in
  if negb (array_equal magic_bits _MAGIC_BITS) then raise MagicMismatch else
  let header_start := needed_magic_bits in
  let header_bits :=
    lsb <$> slice flat header_start (header_start + _LENGTH_HEADER_BITS) in
  header <- lift (_bytes_from_bits header_bits) ;;
  let payload_len := from_bytes header in
  let total_bits_needed :=
    needed_magic_bits + _LENGTH_HEADER_BITS + payload_len * 8 in
  if max_bits <? total_bits_needed then raise TruncatedPayload else
  let payload_bits :=
    lsb <$> slice flat (header_start + _LENGTH_HEADER_BITS) total_bits_needed in
  lift (_bytes_from_bits payload_bits).

End lsb_replacement.

(** ** LSB matching ([lsb_matching.py]) *)

(** [a != b] elementwise, on arrays of one shape. *)
Definition not_equal (a b : list Z) : result (list bool) :=
  if bool_decide (length a = length b)
  then OK (zip_with (λ x y, negb (x =? y)) a b)
  else Error ShapeMismatch.

(** [np.nonzero(mask)[0]]: the indices of the set entries, ascending. *)
Fixpoint nonzero_from (i : nat) (mask : list bool) : list nat :=
  match mask with
  | [] => []
  | b :: rest => (if b then [i] else []) ++ nonzero_from (S i) rest
  end.

Definition nonzero (mask : list bool) : list nat := nonzero_from 0 mask.

(** [a[indices]]; the indices come from [nonzero] on a mask of the shape of
    [a], so they are in range. *)
Definition gather (a : list Z) (indices : list nat) : list Z :=
  (λ i, a !!! i) <$> indices.

(** [a[indices] = values]. *)
Definition scatter (a : list Z) (indices : list nat) (values : list Z) : list Z :=
  foldl (λ acc iv, <[iv.1 := iv.2]> acc) a (zip indices values).

(** [deltas[mask] = value] for a boolean mask of the same shape. *)
Definition assign_where (deltas : list Z) (mask : list bool) (value : Z) : list Z :=
  zip_with (λ d (c : bool), if c then value else d) deltas mask.

Module lsb_matching.

Definition _LENGTH_HEADER_BITS : Z := 32.
Definition _MAGIC : list Z := ascii_bytes "LSBM".
Definition _MAGIC_BITS : list Z := _bits_from_bytes _MAGIC.

(** [_rng.integers(0, 2, size=size, dtype=np.uint8)]. *)
Definition integers (rng : nat → bool) (size : nat) : list Z :=
  (λ k, if rng k then 1 else 0) <$> seq 0 size.

(** The body of [if indices.size:], on the view [embed_zone]. *)
Definition adjust (rng : nat → bool) (embed_zone : list Z) (indices : list nat)
    : list Z :=
  let plus_mask := integers rng (length indices) in
  let deltas := (λ p, if p =? 1 then 1 else -1) <$> plus_mask in
  let vals := gather embed_zone indices in
  let deltas :=
    assign_where deltas (zip_with (λ v d, (v =? 0) && (d =? -1)) vals deltas) 1 in
  let deltas :=
    assign_where deltas (zip_with (λ v d, (v =? 255) && (d =? 1)) vals deltas) (-1) in
  scatter embed_zone indices (zip_with (λ v d, Z.land (v + d) 0xFF) vals deltas).

Definition embed (rng : nat → bool) (image_path : string) (payload : list Z)
    (rate : Q) (out_path : string) : IO () :=
  if negb (rate_in_closed_unit rate) then raise RateOutOfRange else
  flat <- _open_rgb_bmp image_path ;;
  let capacity_bits := scale (len flat) rate in
  let payload_len := len payload in
  if 2 ^ 32 <=? payload_len then raise PayloadTooLarge else
  header <- lift (to_bytes payload_len 4) ;;
  let stream := _MAGIC ++ header ++ payload in
  let bits := _bits_from_bytes stream in
  if capacity_bits <? len bits then raise CapacityExceeded else
  let stego_flat := flat in                              (* flat.copy() *)
  let embed_zone := slice stego_flat 0 (len bits) in     (* a view *)
  let current_lsb := lsb <$> embed_zone in
  mismatch_mask <- lift (not_equal current_lsb bits) ;;
  let indices := nonzero mismatch_mask in
  let embed_zone :=
    if bool_decide (indices ≠ []) then adjust rng embed_zone indices
    else embed_zone in
  (* writes through the view land in [stego_flat] *)
  let stego_flat := embed_zone ++ drop (Z.to_nat (len bits)) stego_flat in
  save_bmp out_path stego_flat.

Definition extract (image_path : string) (rate : Q) : IO (list Z) :=
  if negb (rate_in_half_open_unit rate) then raise RateOutOfRange else
  flat <- _open_rgb_bmp image_path ;;
  let max_bits := scale (len flat) rate in
  let needed_magic_bits := len _MAGIC_BITS in
  if max_bits <? needed_magic_bits + _LENGTH_HEADER_BITS
  then raise TruncatedHeader else
  let magic_bits := lsb <$> slice flat 0 needed_magic_bits in
  if negb (array_equal magic_bits _MAGIC_BITS) then raise MagicMismatch else
  let header_start := needed_magic_bits in
  let header_bits :=
    lsb <$> slice flat header_start (header_start + _LENGTH_HEADER_BITS) in
  header <- lift (_bytes_from_bits header_bits) ;;
  let payload_len := from_bytes header in
  let total_bits := needed_magic_bits + _LENGTH_HEADER_BITS + payload_len * 8 in
  if max_bits <? total_bits then raise TruncatedPayload else
  let payload_bits :=
    lsb <$> slice flat (header_start + _LENGTH_HEADER_BITS) total_bits in
  lift (_bytes_from_bits payload_bits).

End lsb_matching.

(** ** Hamming(15,11) syndrome coding ([hamming_code.py]) *)

(** [M @ v] on [uint8] operands: the shapes must agree, sums wrap at 256. *)
Definition matvec (M : list (list Z)) (v : list Z) : result (list Z) :=
  if forallb (λ row, bool_decide (length row = length v)) M
  then OK ((λ row, foldr Z.add 0 (zip_with Z.mul row v) mod 256) <$> M)
  else Error ShapeMismatch.

(** [bits.reshape(-1, 4)]. *)
Fixpoint rows4 (bits : list Z) : list (list Z) :=
  match bits with
  | a :: b :: c :: d :: rest => [a; b; c; d] :: rows4 rest
  | _ => []
  end.

Definition reshape4 (bits : list Z) : result (list (list Z)) :=
  if len bits mod 4 =? 0 then OK (rows4 bits) else Error ShapeMismatch.

(** [d[0] | (d[1] << 1) | (d[2] << 2) | (d[3] << 3)]. *)
Definition nibble_value (d : list Z) : Z :=
  Z.lor (Z.lor (Z.lor (d !!! 0%nat) (Z.shiftl (d !!! 1%nat) 1))
               (Z.shiftl (d !!! 2%nat) 2))
        (Z.shiftl (d !!! 3%nat) 3).

Module hamming_code.

Definition _HEADER_BITS : Z := 32.
Definition _MAGIC : list Z := ascii_bytes "HAMM".
Definition _MAGIC_BITS : list Z := _bits_from_bytes _MAGIC.

(** The parity-check matrix: column [j] is [j + 1] in binary, row [r]
    holding bit [r]. *)
Definition H : list (list Z) :=
  (λ r, (λ j, Z.land (Z.shiftr (j + 1) r) 1) <$> seqZ 0 15) <$> seqZ 0 4.

(** [(H @ (a[start:start + 15] & 1)) & 1]. *)
Definition syndrome_at (a : list Z) (start : Z) : result (list Z) :=
  let cover_bits := lsb <$> slice a start (start + 15) in
  s <~ matvec H cover_bits ;;
  OK (lsb <$> s).

(** One iteration of the embedding loop, past the [break] test. *)
Definition embed_block (stego_flat : list Z) (block_idx : Z) (m : list Z)
    : result (list Z) :=
  let start := block_idx * 15 in
  syndrome <~ syndrome_at stego_flat start ;;
  let diff := zip_with Z.lxor syndrome m in
  let diff_val := nibble_value diff in
  if negb (diff_val =? 0) then
    let pos := diff_val - 1 in
    let i := Z.to_nat (start + pos) in
    OK (<[i := Z.lxor (stego_flat !!! i) 1]> stego_flat)
  else OK stego_flat.

(** [for block_idx, m in enumerate(nibbles)], from [block_idx] on. *)
Fixpoint embed_loop (usable_blocks : Z) (block_idx : Z)
    (nibbles : list (list Z)) (stego_flat : list Z) : result (list Z) :=
  match nibbles with
  | [] => OK stego_flat
  | m :: rest =>
      if usable_blocks <=? block_idx then OK stego_flat       (* break *)
      else
        stego_flat <~ embed_block stego_flat block_idx m ;;
        embed_loop usable_blocks (block_idx + 1) rest stego_flat
  end.

Definition embed (image_path : string) (payload : list Z) (rate : Q)
    (out_path : string) : IO () :=
  if negb (rate_in_closed_unit rate) then raise RateOutOfRange else
  flat <- _open_rgb_bmp image_path ;;
  let total_blocks := len flat / 15 in
  let usable_blocks := scale total_blocks rate in
  let capacity_bits := usable_blocks * 4 in
  header <- lift (to_bytes (len payload) 4) ;;
  let stream := _MAGIC ++ header ++ payload in
  let bits := _bits_from_bytes stream in
  let needed_bits := len bits in
  if capacity_bits <? needed_bits then raise CapacityExceeded else
  let bits :=
    if negb (needed_bits mod 4 =? 0)
    then let pad := 4 - needed_bits mod 4 in bits ++ replicate (Z.to_nat pad) 0
    else bits in
  nibbles <- lift (reshape4 bits) ;;
  let stego_flat := flat in                              (* flat.copy() *)
  stego_flat <- lift (embed_loop usable_blocks 0 nibbles stego_flat) ;;
  save_bmp out_path stego_flat.

(** [for block_idx in range(usable_blocks)], accumulating [bits_out]. *)
Fixpoint extract_loop (flat : list Z) (blocks : list Z) (bits_out : list Z)
    : result (list Z) :=
  match blocks with
  | [] => OK bits_out
  | block_idx :: rest =>
      let start := block_idx * 15 in
      syndrome <~ syndrome_at flat start ;;
      extract_loop flat rest (bits_out ++ syndrome)
  end.

Definition extract (image_path : string) (rate : Q) : IO (list Z) :=
  if negb (rate_in_half_open_unit rate) then raise RateOutOfRange else
  flat <- _open_rgb_bmp image_path ;;
  let total_blocks := len flat / 15 in
  let usable_blocks := scale total_blocks rate in
  bits <- lift (extract_loop flat (seqZ 0 usable_blocks) []) ;;
  let magic_len := len _MAGIC_BITS in
  if len bits <? magic_len + _HEADER_BITS then raise TruncatedHeader else
  let magic_bits := slice bits 0 magic_len in
  if negb (array_equal magic_bits _MAGIC_BITS) then raise MagicMismatch else
  let length_bits := slice bits magic_len (magic_len + _HEADER_BITS) in
  header <- lift (_bytes_from_bits length_bits) ;;
  let payload_len := from_bytes header in
  let total_bits_needed := magic_len + _HEADER_BITS + payload_len * 8 in
  if len bits <? total_bits_needed then raise TruncatedPayload else
  let payload_bits := slice bits (magic_len + _HEADER_BITS) total_bits_needed in
  lift (_bytes_from_bits payload_bits).

End hamming_code.

(** ** The window ([main.py]) *)

(** A path is a string of 8-bit characters, as the file store has it; the
    path functions work on its characters. *)
Definition chars (s : string) : list Ascii.ascii := String.list_ascii_of_string s.
Definition text (l : list Ascii.ascii) : string := String.string_of_list_ascii l.

(** [p.rfind(c)] for a one-character [c]: the highest index, or -1. *)
Fixpoint rfind (p : list Ascii.ascii) (c : Ascii.ascii) : Z :=
  match p with
  | [] => -1
  | a :: rest =>
      let k := rfind rest c in
      if 0 <=? k then k + 1 else if Ascii.eqb a c then 0 else -1
  end.

(** The [while filenameIndex < dotIndex] loop of [genericpath._splitext],
    run over the characters [p[sepIndex + 1:dotIndex]] the index visits:
    the first one that is not a dot makes the function return [split]. *)
Fixpoint skip_leading_dots (visited : list Ascii.ascii) (extsep : Ascii.ascii)
    (split whole : list Ascii.ascii * list Ascii.ascii)
    : list Ascii.ascii * list Ascii.ascii :=
  match visited with
  | [] => whole
  | c :: rest =>
      if negb (Ascii.eqb c extsep) then split
      else skip_leading_dots rest extsep split whole
  end.

(** [genericpath._splitext(p, sep, altsep, extsep)]. *)
Definition _splitext (p : list Ascii.ascii) (sep : Ascii.ascii)
    (altsep : option Ascii.ascii) (extsep : Ascii.ascii)
    : list Ascii.ascii * list Ascii.ascii :=
  let sepIndex := rfind p sep in
  let sepIndex :=
    match altsep with
    | Some altsep => Z.max sepIndex (rfind p altsep)
    | None => sepIndex
    end in
  let dotIndex := rfind p extsep in
  if sepIndex <? dotIndex then
    let filenameIndex := sepIndex + 1 in
    skip_leading_dots
      (take (Z.to_nat (dotIndex - filenameIndex)) (drop (Z.to_nat filenameIndex) p))
      extsep
      (take (Z.to_nat dotIndex) p, drop (Z.to_nat dotIndex) p)
      (p, [])
  else (p, []).

(** [os.path] is [posixpath] or [ntpath]. *)
Inductive os_path : Type := posixpath | ntpath.

(** The slash, the backslash and the dot. *)
Definition slash : Ascii.ascii := Ascii.ascii_of_nat 47.
Definition backslash : Ascii.ascii := Ascii.ascii_of_nat 92.
Definition dot_char : Ascii.ascii := Ascii.ascii_of_nat 46.

(** [os.path.splitext]. *)
Definition splitext (os : os_path) (p : list Ascii.ascii)
    : list Ascii.ascii * list Ascii.ascii :=
  match os with
  | posixpath => _splitext p slash None dot_char
  | ntpath => _splitext p backslash (Some slash) dot_char
  end.

(** The characters [str.strip()] removes. *)
Definition isspace (c : Z) : bool :=
  ((9 <=? c) && (c <=? 13)) || ((0x1C <=? c) && (c <=? 0x20))
  || (c =? 0x85) || (c =? 0xA0) || (c =? 0x1680)
  || ((0x2000 <=? c) && (c <=? 0x200A))
  || (c =? 0x2028) || (c =? 0x2029) || (c =? 0x202F) || (c =? 0x205F)
  || (c =? 0x3000).

Fixpoint lstrip (s : list Z) : list Z :=
  match s with
  | [] => []
  | c :: rest => if isspace c then lstrip rest else s
  end.

Definition strip (s : list Z) : list Z := reverse (lstrip (reverse (lstrip s))).

(** [c in "0123456789abcdefABCDEF"]. *)
Definition in_hexdigits (c : Z) : bool :=
  bool_decide (c ∈ ascii_bytes "0123456789abcdefABCDEF").

(** The value of a hexadecimal digit, if it is one. *)
Definition hex_value (c : Z) : option Z :=
  if (48 <=? c) && (c <=? 57) then Some (c - 48)
  else if (97 <=? c) && (c <=? 102) then Some (c - 87)
  else if (65 <=? c) && (c <=? 70) then Some (c - 55)
  else None.

(** [bytes.fromhex]: white space is skipped between bytes, each byte is two
    hexadecimal digits; [None] is its [ValueError]. *)
Fixpoint fromhex (s : list Z) : option (list Z) :=
  match s with
  | [] => Some []
  | c :: rest =>
      if ((9 <=? c) && (c <=? 13)) || (c =? 32) then fromhex rest
      else
        match hex_value c, rest with
        | Some top, d :: rest' =>
            match hex_value d with
            | Some bot => (λ bs, (top * 16 + bot) :: bs) <$> fromhex rest'
            | None => None
            end
        | _, _ => None
        end
  end.

(** [bytes.hex]. *)
Definition hex_digit (n : Z) : Z := if n <? 10 then 48 + n else 87 + n.

Definition bytes_hex (data : list Z) : list Z :=
  concat ((λ b, [hex_digit (Z.shiftr b 4); hex_digit (Z.land b 15)]) <$> data).

(** [str.encode()]: UTF-8; [None] is the [UnicodeEncodeError] a surrogate
    raises. *)
Definition encode_char (c : Z) : option (list Z) :=
  if c <? 0x80 then Some [c]
  else if c <? 0x800 then
    Some [Z.lor 0xC0 (Z.shiftr c 6); Z.lor 0x80 (Z.land c 0x3F)]
  else if c <? 0x10000 then
    if (0xD800 <=? c) && (c <=? 0xDFFF) then None
    else Some [Z.lor 0xE0 (Z.shiftr c 12); Z.lor 0x80 (Z.land (Z.shiftr c 6) 0x3F);
               Z.lor 0x80 (Z.land c 0x3F)]
  else
    Some [Z.lor 0xF0 (Z.shiftr c 18); Z.lor 0x80 (Z.land (Z.shiftr c 12) 0x3F);
          Z.lor 0x80 (Z.land (Z.shiftr c 6) 0x3F); Z.lor 0x80 (Z.land c 0x3F)].

Fixpoint encode (s : list Z) : option (list Z) :=
  match s with
  | [] => Some []
  | c :: rest =>
      match encode_char c, encode rest with
      | Some bs, Some tail => Some (bs ++ tail)
      | _, _ => None
      end
  end.

(** A continuation byte of UTF-8. *)
Definition continuation (b : Z) : bool := (0x80 <=? b) && (b <=? 0xBF).

(** The second byte a three-byte or four-byte sequence may have after the
    lead byte [b0]: no overlong forms, no surrogates, nothing above
    [U+10FFFF]. *)
Definition second_byte (b0 b1 : Z) : bool :=
  if b0 =? 0xE0 then (0xA0 <=? b1) && (b1 <=? 0xBF)
  else if b0 =? 0xED then (0x80 <=? b1) && (b1 <=? 0x9F)
  else if b0 =? 0xF0 then (0x90 <=? b1) && (b1 <=? 0xBF)
  else if b0 =? 0xF4 then (0x80 <=? b1) && (b1 <=? 0x8F)
  else continuation b1.

(** [bytes.decode()]: strict UTF-8; [None] is its [UnicodeDecodeError]. *)
Fixpoint decode (data : list Z) : option (list Z) :=
  match data with
  | [] => Some []
  | b0 :: rest =>
      if b0 <? 0x80 then (λ s, b0 :: s) <$> decode rest
      else if (0xC2 <=? b0) && (b0 <=? 0xDF) then
        match rest with
        | b1 :: rest =>
            if continuation b1
            then (λ s, Z.shiftl b0 6 + b1 - (Z.shiftl 0xC0 6 + 0x80) :: s) <$> decode rest
            else None
        | _ => None
        end
      else if (0xE0 <=? b0) && (b0 <=? 0xEF) then
        match rest with
        | b1 :: b2 :: rest =>
            if second_byte b0 b1 && continuation b2
            then (λ s, Z.shiftl b0 12 + Z.shiftl b1 6 + b2
                       - (Z.shiftl 0xE0 12 + Z.shiftl 0x80 6 + 0x80) :: s) <$> decode rest
            else None
        | _ => None
        end
      else if (0xF0 <=? b0) && (b0 <=? 0xF4) then
        match rest with
        | b1 :: b2 :: b3 :: rest =>
            if second_byte b0 b1 && continuation b2 && continuation b3
            then (λ s, Z.shiftl b0 18 + Z.shiftl b1 12 + Z.shiftl b2 6 + b3
                       - (Z.shiftl 0xF0 18 + Z.shiftl 0x80 12 + Z.shiftl 0x80 6 + 0x80)
                       :: s) <$> decode rest
            else None
        | _ => None
        end
      else None
  end.

(** What a callback shows. *)
Inductive feedback : Type :=
  | NoImage                          (* warning: no image chosen *)
  | NoPayload                        (* warning: nothing to embed *)
  | PayloadError                     (* error box: cannot parse payload *)
  | EmbedFailed (e : error)          (* error box with the engine's message *)
  | Embedded (out_path : string)     (* status line: the output file *)
  | ExtractionFailed (e : error)     (* error box with the engine's message *)
  | ShownText (s : list Z)           (* the payload, as text *)
  | ShownHex (s : list Z).           (* the payload, in hexadecimal *)

Module MethodTab.

(** [load_payload_file]: the text the entry is set to. *)
Definition load_payload_file (data : list Z) : list Z := bytes_hex data.

Definition _output_path (os : os_path) (path tag : string) : string :=
  let '(base, ext) := splitext os (chars path) in
  text (base ++ chars "_stego_" ++ chars tag ++ ext).

(** The [try] block of [embed]: [None] when it raises [ValueError]. *)
Definition payload_bytes (payload_raw : list Z) : option (list Z) :=
  if forallb in_hexdigits payload_raw && (len payload_raw mod 2 =? 0)
  then fromhex payload_raw
  else encode payload_raw.

Definition embed (os : os_path)
    (backend_embed : string → list Z → Q → string → IO ()) (tag : string)
    (img : string) (payload_text : list Z) (rate : Q)
    : gmap string file → gmap string file * feedback :=
  λ fs,
    if bool_decide (img = ""%string) then (fs, NoImage) else
    let payload_raw := strip payload_text in
    if bool_decide (payload_raw = []) then (fs, NoPayload) else
    match payload_bytes payload_raw with
    | None => (fs, PayloadError)
    | Some payload_bytes =>
        let out_path := _output_path os img tag in
        match backend_embed img payload_bytes rate out_path fs with
        | (fs', OK _) => (fs', Embedded out_path)
        | (fs', Error e) => (fs', EmbedFailed e)
        end
    end.

(** [extract]; the engines' [extract] functions take two positional
    arguments, so the call that passes the rate is the one made. *)
Definition extract (backend_extract : string → Q → IO (list Z))
    (img : string) (rate : Q) : gmap string file → gmap string file * feedback :=
  λ fs,
    if bool_decide (img = ""%string) then (fs, NoImage) else
    match backend_extract img rate fs with
    | (fs', OK data) =>
        match decode data with
        | Some s => (fs', ShownText s)
        | None => (fs', ShownHex (bytes_hex data))
        end
    | (fs', Error e) => (fs', ExtractionFailed e)
    end.

End MethodTab.

(** * Vocabulary of the statements *)

(** A [uint8] value. *)
Definition is_byte (x : Z) : Prop := 0 ≤ x < 256.

(** A bit, as a number. *)
Definition is_bit (x : Z) : Prop := x = 0 ∨ x = 1.

(** A row of [bits.reshape(-1, 4)]: four bits. *)
Definition is_nibble (m : list Z) : Prop := length m = 4%nat ∧ Forall is_bit m.

(** The byte stream every engine builds: [_MAGIC + header + payload], with
    the header that [to_bytes] returns when the length fits. *)
Definition frame (magic payload : list Z) : list Z :=
  magic ++ little_endian (len payload) 4 ++ payload.

(** Magic (32 bits) + length header (32 bits) + payload bits. *)
Definition framed_bit_count (payload : list Z) : Z := 32 + 32 + 8 * len payload.

(** The capacity formula in the words of the design document:
    [floor(carrierLen / unitSize) * rate], truncated to whole units, times
    [bitsPerUnit].  It is compared below with what the code computes. *)
Definition capacity (carrierLen : Z) (rate : Q) (unitSize bitsPerUnit : Z) : Z :=
  py_int (inject_Z (carrierLen / unitSize) * rate) * bitsPerUnit.

(** What the code computes: [int(len(flat) * rate)] in the two LSB modules
    ([max_payload_bits], [capacity_bits]). *)
Definition lsb_capacity (flat : list Z) (rate : Q) : Z := scale (len flat) rate.

(** [usable_blocks = int(total_blocks * rate)] with
    [total_blocks = len(flat) // 15]. *)
Definition hamming_usable_blocks (flat : list Z) (rate : Q) : Z := scale (len flat / 15) rate.

(** [capacity_bits = usable_blocks * 4]. *)
Definition hamming_capacity (flat : list Z) (rate : Q) : Z :=
  hamming_usable_blocks flat rate * 4.

(** The observable behaviour the three [embed] functions share: the checks in
    their order, then the single write.  [too_large] is the failure an
    oversize payload ends in, [capacity] and [write] are the engine's own. *)
Definition embed_outcome (too_large : error) (capacity : list Z → Z)
    (write : list Z → list Z) (image_path : string) (payload : list Z)
    (rate : Q) (out_path : string) (fs : gmap string file)
    : gmap string file * result () :=
  if negb (rate_in_closed_unit rate) then (fs, Error RateOutOfRange) else
  match fs !! image_path with
  | None => (fs, Error FileNotFound)
  | Some NotBmp => (fs, Error InvalidCarrierFormat)
  | Some (Bmp flat) =>
      if 2 ^ 32 <=? len payload then (fs, Error too_large)
      else if capacity flat <? framed_bit_count payload
      then (fs, Error CapacityExceeded)
      else (<[out_path := Bmp (write flat)]> fs, OK ())
  end.

(** A computation that neither reads nor writes the store. *)
Definition stateless {A} (m : IO A) : Prop := ∃ r, ∀ fs, m fs = (fs, r).

(** The two LSB modules carry the same [extract], up to the magic; this is
    their common text. *)
Definition lsb_extract (_MAGIC_BITS : list Z) (_LENGTH_HEADER_BITS : Z)
    (image_path : string) (rate : Q) : IO (list Z) :=
  if negb (rate_in_half_open_unit rate) then raise RateOutOfRange else
  flat <- _open_rgb_bmp image_path ;;
  let max_bits := scale (len flat) rate in
  let needed_magic_bits := len _MAGIC_BITS in
  if max_bits <? needed_magic_bits + _LENGTH_HEADER_BITS
  then raise TruncatedHeader else
  let magic_bits := lsb <$> slice flat 0 needed_magic_bits in
  if negb (array_equal magic_bits _MAGIC_BITS) then raise MagicMismatch else
  let header_start := needed_magic_bits in
  let header_bits :=
    lsb <$> slice flat header_start (header_start + _LENGTH_HEADER_BITS) in
  header <- lift (_bytes_from_bits header_bits) ;;
  let payload_len := from_bytes header in
  let total_bits_needed :=
    needed_magic_bits + _LENGTH_HEADER_BITS + payload_len * 8 in
  if max_bits <? total_bits_needed then raise TruncatedPayload else
  let payload_bits :=
    lsb <$> slice flat (header_start + _LENGTH_HEADER_BITS) total_bits_needed in
  lift (_bytes_from_bits payload_bits).

(** The carrier LSB replacement produces for a given bit stream. *)
Definition lsbr_write (flat bits : list Z) : list Z :=
  zip_with Z.lor ((λ x, Z.land x 0xFE) <$> take (length bits) flat) bits
    ++ drop (length bits) flat.

(** What [adjust] does to one mismatching byte, given its polarity draw. *)
Definition match_byte (v : Z) (plus : bool) : Z :=
  let d := if plus then 1 else -1 in
  let d := if (v =? 0) && (d =? -1) then 1 else d in
  let d := if (v =? 255) && (d =? 1) then -1 else d in
  Z.land (v + d) 0xFF.

(** The embed zone LSB matching produces, and the carrier it belongs to. *)
Definition lsbm_zone (rng : nat → bool) (zone bits : list Z) : list Z :=
  let indices := nonzero (zip_with (λ x y, negb (x =? y)) (lsb <$> zone) bits) in
  if bool_decide (indices ≠ []) then lsb_matching.adjust rng zone indices else zone.

Definition lsbm_write (rng : nat → bool) (flat bits : list Z) : list Z :=
  lsbm_zone rng (take (length bits) flat) bits ++ drop (length bits) flat.

(** One row of [H @ cover_bits], before wrap-around. *)
Definition dot (row v : list Z) : Z := foldr Z.add 0 (zip_with Z.mul row v).

(** Row [r] of [H], and the parity check it computes on a block's cover
    bits; [checks] is the syndrome [(H @ cover_bits) & 1]. *)
Definition H_row (r : Z) : list Z := (λ j, Z.land (Z.shiftr (j + 1) r) 1) <$> seqZ 0 15.

Definition check (r : Z) (cover : list Z) : Z := lsb (dot (H_row r) cover mod 256).

Definition checks (cover : list Z) : list Z :=
  [check 0 cover; check 1 cover; check 2 cover; check 3 cover].

(** [a[start:start + 15] & 1]. *)
Definition cover_bits (a : list Z) (start : Z) : list Z := lsb <$> slice a start (start + 15).

(** What one embedding step does to the carrier. *)
Definition flip_for (a : list Z) (block_idx : Z) (m : list Z) : list Z :=
  let start := block_idx * 15 in
  let v := nibble_value (zip_with Z.lxor (checks (cover_bits a start)) m) in
  if v =? 0 then a
  else <[Z.to_nat (start + (v - 1)) := Z.lxor (a !!! Z.to_nat (start + (v - 1))) 1]> a.

(** The carrier the Hamming loop produces for a given bit stream. *)
Definition hamm_write (usable_blocks : Z) (flat bits : list Z) : list Z :=
  match hamming_code.embed_loop usable_blocks 0 (rows4 bits) flat with
  | OK stego_flat => stego_flat
  | Error _ => flat
  end.

(** The syndromes of a list of blocks, concatenated as [bits_out] is. *)
Definition block_syndromes (flat : list Z) (blocks : list Z) : list Z :=
  concat ((λ j, checks (cover_bits flat (j * 15))) <$> blocks).

(** What [hamming_code.extract] does with the collected syndrome bits. *)
Definition hamm_parse (bits : list Z) : IO (list Z) :=
  let magic_len := len hamming_code._MAGIC_BITS in
  if len bits <? magic_len + hamming_code._HEADER_BITS then raise TruncatedHeader else
  let magic_bits := slice bits 0 magic_len in
  if negb (array_equal magic_bits hamming_code._MAGIC_BITS) then raise MagicMismatch else
  let length_bits := slice bits magic_len (magic_len + hamming_code._HEADER_BITS) in
  header <- lift (_bytes_from_bits length_bits) ;;
  let payload_len := from_bytes header in
  let total_bits_needed := magic_len + hamming_code._HEADER_BITS + payload_len * 8 in
  if len bits <? total_bits_needed then raise TruncatedPayload else
  let payload_bits := slice bits (magic_len + hamming_code._HEADER_BITS) total_bits_needed in
  lift (_bytes_from_bits payload_bits).

(** Concrete data for the examples: a 10x10 RGB image (300 samples). *)
Definition demo_carrier : list Z := (λ k, (k * 37 + 11) mod 256) <$> seqZ 0 300.

Definition demo_fs : gmap string file := {[ "cover.bmp"%string := Bmp demo_carrier ]}.

Definition demo_payload : list Z := [72; 105].

Definition demo_rng : nat → bool := Nat.even.

(** A payload of exactly [2 ^ 32] bytes. *)
Definition huge_payload : list Z := replicate (Z.to_nat (2 ^ 32)) 0.

(** What every [extract] does once it holds a bit sequence and a bit budget:
    header check, magic check, length, payload. *)
Definition parse_frame (magic_bits bits : list Z) (limit : Z) : result (list Z) :=
  let magic_len := len magic_bits in
  if limit <? magic_len + 32 then Error TruncatedHeader else
  if negb (array_equal (slice bits 0 magic_len) magic_bits) then Error MagicMismatch else
  header <~ _bytes_from_bits (slice bits magic_len (magic_len + 32)) ;;
  let total := magic_len + 32 + from_bytes header * 8 in
  if limit <? total then Error TruncatedPayload else
  _bytes_from_bits (slice bits (magic_len + 32) total).

(** An [extract], as a function of the store: the rate check, the load, then
    [decode] on the loaded samples. *)
Definition extract_outcome (decode : list Z → result (list Z)) (image_path : string)
    (rate : Q) (fs : gmap string file) : gmap string file * result (list Z) :=
  if negb (rate_in_half_open_unit rate) then (fs, Error RateOutOfRange) else
  match fs !! image_path with
  | None => (fs, Error FileNotFound)
  | Some NotBmp => (fs, Error InvalidCarrierFormat)
  | Some (Bmp flat) => (fs, decode flat)
  end.

(** [decode] for the two LSB modules: the frame is read off bit 0 of the
    samples, under the budget [int(len(flat) * rate)]. *)
Definition lsb_decode (magic_bits : list Z) (rate : Q) (flat : list Z) : result (list Z) :=
  parse_frame magic_bits (lsb <$> flat) (lsb_capacity flat rate).

(** [decode] for the Hamming module: the frame is read off the syndromes of
    the usable blocks, all of which count. *)
Definition hamming_decode (rate : Q) (flat : list Z) : result (list Z) :=
  let bits := block_syndromes flat (seqZ 0 (hamming_usable_blocks flat rate)) in
  parse_frame hamming_code._MAGIC_BITS bits (len bits).

(** A successful [embed], engine by engine: what was checked and what was
    written. *)
Inductive wrote (rng : nat → bool) (carrier payload : list Z) (rate : Q)
    : list Z → Prop :=
  | wrote_lsbr :
      framed_bit_count payload ≤ lsb_capacity carrier rate →
      wrote rng carrier payload rate
        (lsbr_write carrier (_bits_from_bytes (frame lsb_replacement._MAGIC payload)))
  | wrote_lsbm :
      framed_bit_count payload ≤ lsb_capacity carrier rate →
      wrote rng carrier payload rate
        (lsbm_write rng carrier (_bits_from_bytes (frame lsb_matching._MAGIC payload)))
  | wrote_hamm :
      framed_bit_count payload ≤ hamming_capacity carrier rate →
      wrote rng carrier payload rate
        (hamm_write (hamming_usable_blocks carrier rate) carrier
           (_bits_from_bytes (frame hamming_code._MAGIC payload))).

(** What reading a frame that holds [payload] gives under a bit budget. *)
Definition read_back (payload : list Z) (budget : Z) : result (list Z) :=
  if budget <? 64 then Error TruncatedHeader
  else if budget <? framed_bit_count payload then Error TruncatedPayload
  else OK payload.

(** What reading another engine's frame gives under a bit budget. *)
Definition foreign_read (budget : Z) : result (list Z) :=
  if budget <? 64 then Error TruncatedHeader else Error MagicMismatch.

(** The characters [os.path] takes for directory separators. *)
Definition separators (os : os_path) : list Ascii.ascii :=
  match os with
  | posixpath => [slash]
  | ntpath => [backslash; slash]
  end.

(** The three back ends a tab can hold. *)
Definition is_backend (rng : nat → bool)
    (backend_embed : string → list Z → Q → string → IO ()) : Prop :=
  backend_embed = lsb_replacement.embed ∨
  backend_embed = lsb_matching.embed rng ∨
  backend_embed = hamming_code.embed.

(** A back end: the [embed] and the [extract] of one module. *)
Definition backends (rng : nat → bool)
    : list ((string → list Z → Q → string → IO ()) * (string → Q → IO (list Z))) :=
  [ (lsb_replacement.embed, lsb_replacement.extract);
    (lsb_matching.embed rng, lsb_matching.extract);
    (hamming_code.embed, hamming_code.extract) ].

(** What the extract callback shows for the payload [data]. *)
Definition shown (data : list Z) : feedback :=
  match decode data with
  | Some s => ShownText s
  | None => ShownHex (bytes_hex data)
  end.

(** Python [str] values other than paths are lists of code points. *)
Definition is_code_point (c : Z) : Prop := 0 ≤ c ≤ 0x10FFFF.

(** The store after LSB replacement has written the demonstration payload. *)
Definition demo_stego_fs : gmap string file :=
  (lsb_replacement.embed "cover.bmp" demo_payload 1 "stego.bmp" demo_fs).1.

(** A second image: the demonstration image with bit 1 of every sample
    inverted. *)
Definition demo_other_fs : gmap string file :=
  {[ "other.bmp"%string := Bmp ((λ x, Z.lxor x 2) <$> demo_carrier) ]}.

(** * Proofs *)

(** ** Bits and bytes *)

Lemma lsb_mod2 x : lsb x = x mod 2.
Proof. unfold lsb. change 1 with (Z.ones 1). rewrite Z.land_ones by lia. reflexivity. Qed.

Lemma lsb_is_bit x : is_bit (lsb x).
Proof. rewrite lsb_mod2. unfold is_bit. pose proof (Z.mod_pos_bound x 2). lia. Qed.

Lemma lsb_of_bit b : is_bit b → lsb b = b.
Proof. intros [->| ->]; reflexivity. Qed.

Lemma unpack_byte_bits b : Forall is_bit (unpack_byte b).
Proof. unfold unpack_byte. apply Forall_fmap, Forall_forall. intros k _. apply lsb_is_bit. Qed.

Lemma bits_from_bytes_bits data : Forall is_bit (_bits_from_bytes data).
Proof.
  unfold _bits_from_bytes. induction data as [|b data IH]; [constructor|].
  rewrite fmap_cons. cbn [concat].
  apply Forall_app. split; [apply unpack_byte_bits | exact IH].
Qed.

Lemma bits_from_bytes_app a b :
  _bits_from_bytes (a ++ b) = _bits_from_bytes a ++ _bits_from_bytes b.
Proof. unfold _bits_from_bytes. by rewrite fmap_app, concat_app. Qed.

Lemma bits_from_bytes_cons b data :
  _bits_from_bytes (b :: data) = unpack_byte b ++ _bits_from_bytes data.
Proof. reflexivity. Qed.

Lemma length_bits_from_bytes data :
  length (_bits_from_bytes data) = (8 * length data)%nat.
Proof.
  induction data as [|b data IH]; [done|].
  rewrite bits_from_bytes_cons, length_app, IH. simpl. lia.
Qed.

Lemma len_bits_from_bytes data : len (_bits_from_bytes data) = 8 * len data.
Proof. unfold len. rewrite length_bits_from_bytes. lia. Qed.

Lemma pack_unpack_table :
  forallb (λ b, pack_group (unpack_byte b) =? b) (seqZ 0 256) = true.
Proof. vm_compute. reflexivity. Qed.

Lemma pack_unpack_byte b : is_byte b → pack_group (unpack_byte b) = b.
Proof.
  intros Hb. pose proof pack_unpack_table as T.
  rewrite forallb_forall in T. apply Z.eqb_eq, T, list_elem_of_In, elem_of_seqZ.
  unfold is_byte in Hb. lia.
Qed.

Lemma packbits_unpack data :
  Forall is_byte data → packbits (_bits_from_bytes data) = data.
Proof.
  induction 1 as [|b data Hb _ IH]; [done|].
  rewrite bits_from_bytes_cons.
  change (unpack_byte b) with
    [lsb (Z.shiftr b 7); lsb (Z.shiftr b 6); lsb (Z.shiftr b 5); lsb (Z.shiftr b 4);
     lsb (Z.shiftr b 3); lsb (Z.shiftr b 2); lsb (Z.shiftr b 1); lsb (Z.shiftr b 0)].
  cbn [app packbits]. rewrite IH. f_equal. by apply pack_unpack_byte.
Qed.

Lemma bytes_from_bits_from_bytes data :
  Forall is_byte data → _bytes_from_bits (_bits_from_bytes data) = OK data.
Proof.
  intros Hd. unfold _bytes_from_bits. rewrite len_bits_from_bytes.
  replace (8 * len data) with (len data * 8) by lia. rewrite Z.mod_mul by lia.
  simpl. by rewrite packbits_unpack.
Qed.

Lemma little_endian_bytes n k : Forall is_byte (little_endian n k).
Proof.
  revert n. induction k as [|k IH]; intros n; simpl; constructor; [|apply IH].
  unfold is_byte. apply Z.mod_pos_bound. lia.
Qed.

Create HintDb stego.
#[local] Hint Resolve lsb_is_bit bits_from_bytes_bits little_endian_bytes : stego.

Lemma length_little_endian n k : length (little_endian n k) = k.
Proof. revert n. induction k as [|k IH]; intros n; simpl; [done|]. by rewrite IH. Qed.

Lemma from_bytes_little_endian n k :
  0 ≤ n < 256 ^ Z.of_nat k → from_bytes (little_endian n k) = n.
Proof.
  revert n. induction k as [|k IH]; intros n Hn.
  - simpl in *. lia.
  - cbn [little_endian from_bytes foldr]. fold (from_bytes (little_endian (n / 256) k)).
    rewrite IH.
    + pose proof (Z.div_mod n 256). lia.
    + rewrite Nat2Z.inj_succ, Z.pow_succ_r in Hn by lia.
      split; [apply Z.div_pos; lia | apply Z.div_lt_upper_bound; lia].
Qed.

Lemma to_bytes_ok n k :
  0 ≤ n < 256 ^ Z.of_nat k → to_bytes n k = OK (little_endian n k).
Proof.
  intros Hn. unfold to_bytes.
  destruct (n <? 0) eqn:E1; [lia|]. destruct (256 ^ Z.of_nat k <=? n) eqn:E2; [lia|]. done.
Qed.

Lemma to_bytes_overflow n k :
  256 ^ Z.of_nat k ≤ n → to_bytes n k = Error OverflowError.
Proof.
  intros Hn. unfold to_bytes.
  destruct (256 ^ Z.of_nat k <=? n) eqn:E2; [|lia]. by rewrite orb_true_r.
Qed.

(** ** Rates and truncation *)

Lemma rate_closed_bounds rate :
  rate_in_closed_unit rate = true → 0 ≤ Qnum rate ≤ Z.pos (Qden rate).
Proof.
  unfold rate_in_closed_unit. intros [H0 H1]%andb_prop.
  apply Qle_bool_iff in H0, H1. unfold Qle in *. simpl in *. lia.
Qed.

Lemma scale_eq n rate : scale n rate = Z.quot (n * Qnum rate) (Z.pos (Qden rate)).
Proof. reflexivity. Qed.

Lemma scale_bounds n rate :
  rate_in_closed_unit rate = true → 0 ≤ n → 0 ≤ scale n rate ≤ n.
Proof.
  intros Hr Hn. apply rate_closed_bounds in Hr. rewrite scale_eq.
  rewrite Z.quot_div_nonneg by nia. split.
  - apply Z.div_pos; nia.
  - apply Z.div_le_upper_bound; nia.
Qed.

Lemma scale_one n : scale n 1 = n.
Proof. rewrite scale_eq. simpl. rewrite Z.mul_1_r. apply Z.quot_1_r. Qed.

Lemma scale_zero n : scale n 0 = 0.
Proof. rewrite scale_eq. simpl. rewrite Z.mul_0_r. reflexivity. Qed.

Lemma scale_positive_rate n rate :
  rate_in_closed_unit rate = true → 0 < scale n rate →
  rate_in_half_open_unit rate = true.
Proof.
  intros Hr Hs. unfold rate_in_half_open_unit.
  pose proof Hr as [H0 H1]%andb_prop. rewrite H1, andb_true_r.
  destruct (Qle_bool rate 0) eqn:E; [|done].
  apply Qle_bool_iff in E, H0. unfold Qle in *. simpl in *.
  rewrite scale_eq in Hs.
  assert (Qnum rate = 0) as Hq by lia. rewrite Hq, Z.mul_0_r in Hs.
  rewrite Z.quot_0_l in Hs; lia.
Qed.

(** ** Slices and frames *)

Lemma lsbr_extract_common :
  lsb_replacement.extract = lsb_extract lsb_replacement._MAGIC_BITS 32.
Proof. reflexivity. Qed.

Lemma lsbm_extract_common :
  lsb_matching.extract = lsb_extract lsb_matching._MAGIC_BITS 32.
Proof. reflexivity. Qed.

Lemma fmap_slice (f : Z → Z) a s e : f <$> slice a s e = slice (f <$> a) s e.
Proof. unfold slice. by rewrite fmap_take, fmap_drop. Qed.

Lemma slice_0 a e : slice a 0 e = take (Z.to_nat e) a.
Proof. unfold slice. rewrite Z.sub_0_r. reflexivity. Qed.

Lemma slice_app_l (a b : list Z) : slice (a ++ b) 0 (len a) = a.
Proof. rewrite slice_0. unfold len. rewrite Nat2Z.id. by rewrite take_app_length. Qed.

Lemma slice_app_skip (a b : list Z) s e :
  len a ≤ s → slice (a ++ b) s e = slice b (s - len a) (e - len a).
Proof.
  intros Hs. unfold slice, len in *.
  rewrite drop_app_ge by lia. f_equal; [lia|]. f_equal. lia.
Qed.

Lemma slice_app_mid (a b c : list Z) :
  slice (a ++ b ++ c) (len a) (len a + len b) = b.
Proof.
  rewrite slice_app_skip by lia.
  replace (len a - len a) with 0 by lia. replace (len a + len b - len a) with (len b) by lia.
  apply slice_app_l.
Qed.

Lemma length_slice a s e :
  0 ≤ s → s ≤ e → e ≤ len a → len (slice a s e) = e - s.
Proof. intros. unfold slice, len in *. rewrite length_take, length_drop. lia. Qed.

Lemma frame_bits_split magic payload :
  _bits_from_bytes (frame magic payload) =
  _bits_from_bytes magic ++ _bits_from_bytes (little_endian (len payload) 4)
    ++ _bits_from_bytes payload.
Proof. unfold frame. by rewrite !bits_from_bytes_app. Qed.

Lemma len_frame_bits magic payload :
  length magic = 4%nat →
  len (_bits_from_bytes (frame magic payload)) = framed_bit_count payload.
Proof.
  intros Hm. rewrite len_bits_from_bytes. unfold frame, framed_bit_count, len.
  rewrite !length_app, length_little_endian, Hm. lia.
Qed.

Lemma len_nonneg {A} (l : list A) : 0 ≤ len l.
Proof. unfold len. lia. Qed.

(** ** Steps of the [IO] monad *)

Lemma bind_open {B} path flat (k : list Z → IO B) fs :
  fs !! path = Some (Bmp flat) → io_bind (_open_rgb_bmp path) k fs = k flat fs.
Proof. intros H. unfold io_bind, _open_rgb_bmp. by rewrite H. Qed.

Lemma bind_lift {A B} (r : result A) a (k : A → IO B) fs :
  r = OK a → io_bind (lift r) k fs = k a fs.
Proof. intros ->. reflexivity. Qed.

Lemma bind_lift_error {A B} (r : result A) e (k : A → IO B) fs :
  r = Error e → io_bind (lift r) k fs = (fs, Error e).
Proof. intros ->. reflexivity. Qed.

(** Two steps every proof about [embed] or [extract] repeats: running the
    function up to the loaded image, and passing a guard that holds. *)
Ltac load_image Hr flat :=
  rewrite Hr; cbn [negb]; rewrite (bind_open _ flat) by done; cbv zeta.

Ltac pass_guard :=
  let E := fresh "E" in destruct (_ <? _) eqn:E; [lia|]; clear E.

Lemma lsb_extract_frame magic payload flat rest path rate fs :
  length magic = 4%nat → Forall is_byte payload → len payload < 2 ^ 32 →
  fs !! path = Some (Bmp flat) →
  rate_in_closed_unit rate = true →
  framed_bit_count payload ≤ scale (len flat) rate →
  lsb <$> flat = _bits_from_bytes (frame magic payload) ++ rest →
  lsb_extract (_bits_from_bytes magic) 32 path rate fs = (fs, OK payload).
Proof.
  intros Hm Hp Hlen Hfs Hr Hcap Hflat.
  pose proof (len_nonneg payload) as Hlp.
  unfold framed_bit_count in Hcap.
  unfold lsb_extract.
  rewrite (scale_positive_rate (len flat) rate) by (done || lia).
  cbn [negb]. rewrite (bind_open _ flat) by done. cbv zeta.
  assert (len (_bits_from_bytes magic) = 32) as Hmb
    by (rewrite len_bits_from_bytes; unfold len; lia).
  assert (len (_bits_from_bytes (little_endian (len payload) 4)) = 32) as Hhb
    by (rewrite len_bits_from_bytes; unfold len; rewrite length_little_endian; lia).
  rewrite frame_bits_split, <- !app_assoc in Hflat.
  pass_guard.
  rewrite !fmap_slice, Hflat. rewrite slice_app_l.
  unfold array_equal. rewrite bool_decide_eq_true_2 by done. cbn [negb].
  rewrite (bind_lift _ (little_endian (len payload) 4)).
  2:{ rewrite <- Hhb at 1. rewrite slice_app_mid.
      apply bytes_from_bits_from_bytes; auto with stego. }
  rewrite from_bytes_little_endian by (change (256 ^ Z.of_nat 4) with (2 ^ 32); lia).
  pass_guard.
  unfold lift. f_equal.
  rewrite !fmap_slice, Hflat. rewrite (app_assoc (_bits_from_bytes magic)).
  rewrite slice_app_skip by (unfold len in *; rewrite length_app; lia).
  match goal with |- _ (slice _ ?a ?b) = _ =>
    replace a with 0 by (unfold len in *; rewrite length_app; lia);
    replace b with (len (_bits_from_bytes payload))
      by (rewrite len_bits_from_bytes; unfold len in *; rewrite length_app; lia)
  end.
  rewrite slice_app_l. by apply bytes_from_bits_from_bytes.
Qed.

(** ** LSB replacement *)

Lemma lsb_replace x b : is_bit b → lsb (Z.lor (Z.land x 0xFE) b) = b.
Proof.
  intros Hb. unfold lsb. rewrite Z.land_lor_distr_l, <- Z.land_assoc.
  change (Z.land 254 1) with 0. rewrite Z.land_0_r, Z.lor_0_l.
  by apply lsb_of_bit.
Qed.

Lemma Z_to_nat_len {A} (l : list A) : Z.to_nat (len l) = length l.
Proof. unfold len. apply Nat2Z.id. Qed.

Lemma ior_iand_prefix flat bits :
  len bits ≤ len flat →
  ior_prefix (iand_prefix flat (len bits) 0xFE) (len bits) bits
  = OK (lsbr_write flat bits).
Proof.
  intros Hle. unfold ior_prefix, iand_prefix, lsbr_write. rewrite Z_to_nat_len.
  assert (length ((λ x, Z.land x 254) <$> take (length bits) flat) = length bits) as Hl
    by (rewrite length_fmap, length_take; unfold len in Hle; lia).
  rewrite take_app_length', drop_app_length' by done.
  rewrite bool_decide_eq_true_2 by done. done.
Qed.

Lemma lsb_lsbr_write flat bits :
  len bits ≤ len flat → Forall is_bit bits →
  lsb <$> lsbr_write flat bits = bits ++ (lsb <$> drop (length bits) flat).
Proof.
  intros Hle Hb. unfold lsbr_write. rewrite fmap_app. f_equal.
  assert (length bits ≤ length flat)%nat as Hn by (unfold len in Hle; lia).
  clear Hle. revert flat Hn. induction Hb as [|b bits Hb _ IH]; intros flat Hn.
  - by rewrite zip_with_nil_r.
  - destruct flat as [|x flat]; simpl in Hn; [lia|].
    cbn. rewrite lsb_replace by done. f_equal. apply IH. lia.
Qed.

Lemma length_lsbr_write flat bits :
  len bits ≤ len flat → length (lsbr_write flat bits) = length flat.
Proof.
  intros Hle. unfold lsbr_write, len in *.
  rewrite length_app, length_zip_with, length_fmap, length_take, length_drop. lia.
Qed.

Lemma lsbr_magic_length : length lsb_replacement._MAGIC = 4%nat.
Proof. reflexivity. Qed.

Lemma lsbm_magic_length : length lsb_matching._MAGIC = 4%nat.
Proof. reflexivity. Qed.

Lemma hamm_magic_length : length hamming_code._MAGIC = 4%nat.
Proof. reflexivity. Qed.

Lemma to_bytes_len (payload : list Z) :
  len payload < 2 ^ 32 → to_bytes (len payload) 4 = OK (little_endian (len payload) 4).
Proof.
  intros H. apply to_bytes_ok. change (256 ^ Z.of_nat 4) with (2 ^ 32).
  pose proof (len_nonneg payload). lia.
Qed.

Lemma lsbr_embed_ok fs path flat payload rate out :
  fs !! path = Some (Bmp flat) →
  rate_in_closed_unit rate = true →
  len payload < 2 ^ 32 →
  framed_bit_count payload ≤ scale (len flat) rate →
  lsb_replacement.embed path payload rate out fs
  = (<[out := Bmp (lsbr_write flat
                     (_bits_from_bytes (frame lsb_replacement._MAGIC payload)))]> fs,
     OK ()).
Proof.
  intros Hfs Hr Hlen Hcap. unfold lsb_replacement.embed.
  load_image Hr flat.
  destruct (2 ^ 32 <=? len payload) eqn:E; [lia|]. clear E.
  rewrite (bind_lift _ _ _ _ (to_bytes_len _ Hlen)).
  fold (frame lsb_replacement._MAGIC payload).
  pose proof (len_frame_bits _ payload lsbr_magic_length) as Hfl.
  pass_guard.
  rewrite (bind_lift _ (lsbr_write flat (_bits_from_bytes (frame lsb_replacement._MAGIC payload)))).
  - reflexivity.
  - apply ior_iand_prefix. pose proof (scale_bounds (len flat) rate Hr (len_nonneg _)). lia.
Qed.

Lemma lsbr_embed_exceeds fs path flat payload rate out :
  fs !! path = Some (Bmp flat) →
  rate_in_closed_unit rate = true →
  len payload < 2 ^ 32 →
  scale (len flat) rate < framed_bit_count payload →
  lsb_replacement.embed path payload rate out fs = (fs, Error CapacityExceeded).
Proof.
  intros Hfs Hr Hlen Hcap. unfold lsb_replacement.embed.
  load_image Hr flat.
  destruct (2 ^ 32 <=? len payload) eqn:E; [lia|]. clear E.
  rewrite (bind_lift _ _ _ _ (to_bytes_len _ Hlen)).
  fold (frame lsb_replacement._MAGIC payload).
  pose proof (len_frame_bits _ payload lsbr_magic_length) as Hfl.
  destruct (scale (len flat) rate <? _) eqn:E; [done|lia].
Qed.

Lemma lsbr_embed_too_large fs path flat payload rate out :
  fs !! path = Some (Bmp flat) →
  rate_in_closed_unit rate = true →
  2 ^ 32 ≤ len payload →
  lsb_replacement.embed path payload rate out fs = (fs, Error PayloadTooLarge).
Proof.
  intros Hfs Hr Hlen. unfold lsb_replacement.embed.
  load_image Hr flat.
  destruct (2 ^ 32 <=? len payload) eqn:E; [done|lia].
Qed.

(** ** LSB matching *)

Lemma elem_of_nonzero_from s mask i :
  i ∈ nonzero_from s mask ↔ ∃ j, i = (s + j)%nat ∧ mask !! j = Some true.
Proof.
  revert s. induction mask as [|b mask IH]; intros s; cbn [nonzero_from].
  - split; [by intros ?%elem_of_nil | by intros (j & _ & ?)].
  - rewrite elem_of_app, IH. split.
    + intros [Hi | (j & -> & Hj)].
      * destruct b; [|by apply elem_of_nil in Hi].
        apply list_elem_of_singleton in Hi as ->. exists 0%nat. split; [lia|done].
      * exists (S j). split; [lia|done].
    + intros ([|j] & -> & Hj).
      * left. simpl in Hj. injection Hj as ->. rewrite Nat.add_0_r. by apply list_elem_of_singleton.
      * right. exists j. split; [lia|done].
Qed.

Lemma elem_of_nonzero mask i : i ∈ nonzero mask ↔ mask !! i = Some true.
Proof.
  unfold nonzero. rewrite elem_of_nonzero_from. split.
  - by intros (j & -> & Hj).
  - intros H. by exists i.
Qed.

Lemma NoDup_nonzero_from s mask : NoDup (nonzero_from s mask).
Proof.
  revert s. induction mask as [|b mask IH]; intros s; cbn [nonzero_from]; [constructor|].
  destruct b; cbn [app]; [|apply IH].
  constructor; [|apply IH].
  rewrite elem_of_nonzero_from. intros (j & Hj & _). lia.
Qed.

Lemma length_scatter a indices values :
  length (scatter a indices values) = length a.
Proof.
  unfold scatter. revert a values.
  induction indices as [|i indices IH]; intros a [|v values]; try done.
  cbn. rewrite IH. apply length_insert.
Qed.

Lemma scatter_cons a i indices v values :
  scatter a (i :: indices) (v :: values) = scatter (<[i := v]> a) indices values.
Proof. reflexivity. Qed.

Lemma scatter_lookup_notin a indices values (i : nat) :
  i ∉ indices → scatter a indices values !! i = a !! i.
Proof.
  revert a values. induction indices as [|j indices IH]; intros a [|v values] Hi; try done.
  rewrite scatter_cons. apply not_elem_of_cons in Hi as [Hne Hi].
  rewrite IH by done. by apply list_lookup_insert_ne.
Qed.

Lemma scatter_lookup_in a indices values (k i : nat) v :
  NoDup indices → indices !! k = Some i → values !! k = Some v →
  (i < length a)%nat →
  scatter a indices values !! i = Some v.
Proof.
  revert a values k. induction indices as [|j indices IH]; intros a values k Hnd Hk Hv Hlt; [done|].
  destruct values as [|v0 values]; [done|].
  rewrite scatter_cons. apply NoDup_cons in Hnd as [Hj Hnd].
  destruct k as [|k]; simpl in Hk, Hv.
  - injection Hk as ->. injection Hv as ->.
    rewrite scatter_lookup_notin by done. by apply list_lookup_insert_eq.
  - apply (IH _ _ k); try done. by rewrite length_insert.
Qed.

(** The vectorised adjustment, entry by entry.  The polarity source is fixed
    throughout. *)
Section matching.
Context (rng : nat → bool).

Lemma adjust_values (zone : list Z) (indices : list nat) (s : nat) :
  let draws := (λ k, if rng k then 1 else 0) <$> seq s (length indices) in
  let deltas := (λ p, if p =? 1 then 1 else -1) <$> draws in
  let vals := gather zone indices in
  let deltas1 :=
    assign_where deltas (zip_with (λ v d, (v =? 0) && (d =? -1)) vals deltas) 1 in
  let deltas2 :=
    assign_where deltas1 (zip_with (λ v d, (v =? 255) && (d =? 1)) vals deltas1) (-1) in
  zip_with (λ v d, Z.land (v + d) 0xFF) vals deltas2
  = imap (λ k i, match_byte (zone !!! i) (rng (s + k)%nat)) indices.
Proof.
  revert s. induction indices as [|i indices IH]; intros s; [done|].
  specialize (IH (S s)). cbv zeta in *. cbn [length seq fmap list_fmap gather].
  unfold gather in IH. cbn [zip_with assign_where imap]. f_equal.
  - rewrite Nat.add_0_r. unfold match_byte. by destruct (rng s).
  - unfold assign_where in IH. etrans; [exact IH|].
    apply imap_ext. intros k j _. cbn. by rewrite Nat.add_succ_r.
Qed.

Lemma adjust_eq (zone : list Z) (indices : list nat) :
  lsb_matching.adjust rng zone indices
  = scatter zone indices (imap (λ k i, match_byte (zone !!! i) (rng k)) indices).
Proof.
  unfold lsb_matching.adjust, lsb_matching.integers. cbv zeta. f_equal.
  apply (adjust_values zone indices 0).
Qed.

Lemma land_255_small x : 0 ≤ x < 256 → Z.land x 0xFF = x.
Proof.
  intros Hx. change 255 with (Z.ones 8). rewrite Z.land_ones by lia.
  apply Z.mod_small. lia.
Qed.

Lemma lsb_succ x : lsb (x + 1) = 1 - lsb x.
Proof.
  rewrite !lsb_mod2.
  pose proof (Z.div_mod x 2). pose proof (Z.div_mod (x + 1) 2).
  pose proof (Z.mod_pos_bound x 2). pose proof (Z.mod_pos_bound (x + 1) 2). lia.
Qed.

Lemma lsb_pred x : lsb (x - 1) = 1 - lsb x.
Proof.
  pose proof (lsb_succ (x - 1)) as H. replace (x - 1 + 1) with x in H by lia.
  pose proof (lsb_is_bit x) as [?|?]; lia.
Qed.

Lemma match_byte_cases v plus :
  is_byte v →
  match_byte v plus =
    if v =? 0 then 1 else if v =? 255 then 254 else if plus then v + 1 else v - 1.
Proof.
  intros Hv. unfold is_byte in Hv. unfold match_byte. cbv zeta.
  destruct (v =? 0) eqn:E0; [apply Z.eqb_eq in E0 as ->; by destruct plus|].
  apply Z.eqb_neq in E0. cbn [andb].
  destruct (v =? 255) eqn:E1; [apply Z.eqb_eq in E1 as ->; by destruct plus|].
  apply Z.eqb_neq in E1. cbn [andb].
  destruct plus; apply land_255_small; lia.
Qed.

Lemma match_byte_step v plus :
  is_byte v →
  (match_byte v plus = v + 1 ∨ match_byte v plus = v - 1) ∧ is_byte (match_byte v plus).
Proof.
  intros Hv. rewrite match_byte_cases by done. unfold is_byte in *.
  destruct (v =? 0) eqn:E0; [apply Z.eqb_eq in E0; lia|]. apply Z.eqb_neq in E0.
  destruct (v =? 255) eqn:E1; [apply Z.eqb_eq in E1; lia|]. apply Z.eqb_neq in E1.
  destruct plus; lia.
Qed.

Lemma match_byte_lsb v plus b :
  is_byte v → is_bit b → lsb v ≠ b → lsb (match_byte v plus) = b.
Proof.
  intros Hv Hb Hne. destruct (match_byte_step v plus Hv) as [[-> | ->] _].
  - rewrite lsb_succ. pose proof (lsb_is_bit v) as [?|?]; destruct Hb; lia.
  - rewrite lsb_pred. pose proof (lsb_is_bit v) as [?|?]; destruct Hb; lia.
Qed.

Lemma lsbm_zone_adjust zone bits :
  lsbm_zone rng zone bits =
  lsb_matching.adjust rng zone
    (nonzero (zip_with (λ x y, negb (x =? y)) (lsb <$> zone) bits)).
Proof.
  unfold lsbm_zone. cbv zeta. case_bool_decide as Hi; [done|].
  rewrite Hi. by rewrite adjust_eq.
Qed.

Lemma length_lsbm_zone zone bits : length (lsbm_zone rng zone bits) = length zone.
Proof. rewrite lsbm_zone_adjust, adjust_eq. apply length_scatter. Qed.

Lemma lsbm_zone_lookup zone bits (i : nat) v b :
  zone !! i = Some v → bits !! i = Some b →
  ∃ plus : bool,
    lsbm_zone rng zone bits !! i = Some (if lsb v =? b then v else match_byte v plus).
Proof.
  intros Hv Hb. rewrite lsbm_zone_adjust, adjust_eq.
  set (mask := zip_with _ _ _).
  assert (mask !! i = Some (negb (lsb v =? b))) as Hm.
  { unfold mask. rewrite lookup_zip_with, list_lookup_fmap, Hv, Hb. done. }
  destruct (lsb v =? b) eqn:E; cbn [negb] in Hm.
  - exists true. rewrite scatter_lookup_notin; [done|].
    rewrite elem_of_nonzero, Hm. done.
  - assert (i ∈ nonzero mask) as Hin by by apply elem_of_nonzero.
    apply list_elem_of_lookup in Hin as [k Hk].
    exists (rng k). apply (scatter_lookup_in _ _ _ k).
    + apply NoDup_nonzero_from.
    + done.
    + rewrite list_lookup_imap, Hk. cbn. by rewrite (list_lookup_total_correct _ _ _ Hv).
    + by apply lookup_lt_Some in Hv.
Qed.

Lemma lsb_lsbm_zone zone bits :
  length zone = length bits → Forall is_byte zone → Forall is_bit bits →
  lsb <$> lsbm_zone rng zone bits = bits.
Proof.
  intros Hl Hz Hb. apply list_eq. intros i. rewrite list_lookup_fmap.
  destruct (bits !! i) as [b|] eqn:Eb.
  - destruct (lookup_lt_is_Some_2 zone i) as [v Ev];
      [rewrite Hl; by apply lookup_lt_Some in Eb|].
    destruct (lsbm_zone_lookup zone bits i v b Ev Eb) as [plus ->]. cbn. f_equal.
    destruct (lsb v =? b) eqn:E; [by apply Z.eqb_eq|]. apply Z.eqb_neq in E.
    apply match_byte_lsb; [|  |done].
    + by eapply Forall_lookup_1 in Hz.
    + by eapply Forall_lookup_1 in Hb.
  - apply lookup_ge_None in Eb. rewrite lookup_ge_None_2; [done|].
    rewrite length_lsbm_zone. lia.
Qed.

Lemma length_lsbm_write flat bits : length (lsbm_write rng flat bits) = length flat.
Proof.
  unfold lsbm_write. rewrite length_app, length_lsbm_zone, length_take, length_drop. lia.
Qed.

Lemma lsb_lsbm_write flat bits :
  len bits ≤ len flat → Forall is_byte flat → Forall is_bit bits →
  lsb <$> lsbm_write rng flat bits = bits ++ (lsb <$> drop (length bits) flat).
Proof.
  intros Hle Hf Hb. unfold lsbm_write. rewrite fmap_app. f_equal.
  apply lsb_lsbm_zone; [|by apply Forall_take|done].
  rewrite length_take. unfold len in Hle. lia.
Qed.

Lemma lsbm_embed_ok fs path flat payload rate out :
  fs !! path = Some (Bmp flat) →
  rate_in_closed_unit rate = true →
  len payload < 2 ^ 32 →
  framed_bit_count payload ≤ scale (len flat) rate →
  lsb_matching.embed rng path payload rate out fs
  = (<[out := Bmp (lsbm_write rng flat
                     (_bits_from_bytes (frame lsb_matching._MAGIC payload)))]> fs,
     OK ()).
Proof.
  intros Hfs Hr Hlen Hcap. unfold lsb_matching.embed.
  load_image Hr flat.
  destruct (2 ^ 32 <=? len payload) eqn:E; [lia|]. clear E.
  rewrite (bind_lift _ _ _ _ (to_bytes_len _ Hlen)).
  fold (frame lsb_matching._MAGIC payload).
  pose proof (len_frame_bits _ payload lsbm_magic_length) as Hfl.
  pass_guard.
  pose proof (scale_bounds (len flat) rate Hr (len_nonneg _)) as Hsc.
  set (bits := _bits_from_bytes _) in *.
  rewrite slice_0, Z_to_nat_len.
  unfold not_equal. rewrite bool_decide_eq_true_2.
  2:{ rewrite length_fmap, length_take. unfold len in *. lia. }
  reflexivity.
Qed.

Lemma lsbm_embed_exceeds fs path flat payload rate out :
  fs !! path = Some (Bmp flat) →
  rate_in_closed_unit rate = true →
  len payload < 2 ^ 32 →
  scale (len flat) rate < framed_bit_count payload →
  lsb_matching.embed rng path payload rate out fs = (fs, Error CapacityExceeded).
Proof.
  intros Hfs Hr Hlen Hcap. unfold lsb_matching.embed.
  load_image Hr flat.
  destruct (2 ^ 32 <=? len payload) eqn:E; [lia|]. clear E.
  rewrite (bind_lift _ _ _ _ (to_bytes_len _ Hlen)).
  fold (frame lsb_matching._MAGIC payload).
  pose proof (len_frame_bits _ payload lsbm_magic_length) as Hfl.
  destruct (scale (len flat) rate <? _) eqn:E; [done|lia].
Qed.

Lemma lsbm_embed_too_large fs path flat payload rate out :
  fs !! path = Some (Bmp flat) →
  rate_in_closed_unit rate = true →
  2 ^ 32 ≤ len payload →
  lsb_matching.embed rng path payload rate out fs = (fs, Error PayloadTooLarge).
Proof.
  intros Hfs Hr Hlen. unfold lsb_matching.embed.
  load_image Hr flat.
  destruct (2 ^ 32 <=? len payload) eqn:E; [done|lia].
Qed.

End matching.

(** ** The Hamming parity checks *)

Lemma H_rows : hamming_code.H = [H_row 0; H_row 1; H_row 2; H_row 3].
Proof. reflexivity. Qed.

Lemma length_H_row r : length (H_row r) = 15%nat.
Proof. reflexivity. Qed.

Lemma H_row_lookup r (p : nat) :
  (p < 15)%nat → H_row r !! p = Some (lsb (Z.shiftr (Z.of_nat p + 1) r)).
Proof.
  intros Hp. unfold H_row. rewrite list_lookup_fmap, lookup_seqZ_lt by lia. done.
Qed.

Lemma length_cover_bits a start :
  0 ≤ start → start + 15 ≤ len a → length (cover_bits a start) = 15%nat.
Proof.
  intros H0 H1. unfold cover_bits, slice, len in *.
  rewrite length_fmap, length_take, length_drop. lia.
Qed.

Lemma matvec_H v : length v = 15%nat → matvec hamming_code.H v = OK ((λ row, dot row v mod 256) <$> hamming_code.H).
Proof. intros Hv. unfold matvec. rewrite Hv. reflexivity. Qed.

Lemma syndrome_at_ok a start :
  0 ≤ start → start + 15 ≤ len a →
  hamming_code.syndrome_at a start = OK (checks (cover_bits a start)).
Proof.
  intros H0 H1. unfold hamming_code.syndrome_at. cbv zeta.
  fold (cover_bits a start). rewrite matvec_H by by apply length_cover_bits.
  reflexivity.
Qed.

Lemma dot_insert row v (p : nat) h c c' :
  row !! p = Some h → v !! p = Some c →
  dot row (<[p := c']> v) = dot row v + h * (c' - c).
Proof.
  unfold dot. revert v p. induction row as [|x row IH]; intros v p Hh Hc; [done|].
  destruct v as [|y v]; [done|]. destruct p as [|p]; simpl in *.
  - injection Hh as ->. injection Hc as ->. lia.
  - rewrite (IH v p) by done. lia.
Qed.

Lemma lsb_mod_256 x : lsb (x mod 256) = lsb x.
Proof.
  rewrite !lsb_mod2.
  pose proof (Z.div_mod x 256). pose proof (Z.mod_pos_bound x 256).
  pose proof (Z.div_mod (x mod 256) 2). pose proof (Z.mod_pos_bound (x mod 256) 2).
  pose proof (Z.div_mod x 2). pose proof (Z.mod_pos_bound x 2). lia.
Qed.

Lemma lsb_lxor_1 x : lsb (Z.lxor x 1) = 1 - lsb x.
Proof.
  rewrite !lsb_mod2, <- !Z.bit0_mod, Z.lxor_spec.
  change (Z.testbit 1 0) with true. by destruct (Z.testbit x 0).
Qed.

(** Flipping cover bit [p] toggles exactly the checks whose row has a one in
    column [p], that is the bits of [p + 1]. *)
Lemma check_flip r cover (p : nat) c :
  (p < 15)%nat → cover !! p = Some c → is_bit c →
  check r (<[p := 1 - c]> cover)
  = Z.lxor (check r cover) (lsb (Z.shiftr (Z.of_nat p + 1) r)).
Proof.
  intros Hp Hc Hb. unfold check. rewrite !lsb_mod_256.
  rewrite (dot_insert _ _ p _ c) by (done || by apply H_row_lookup).
  generalize (dot (H_row r) cover). intros s.
  pose proof (lsb_is_bit s) as Hs.
  destruct (lsb_is_bit (Z.shiftr (Z.of_nat p + 1) r)) as [Hh | Hh]; rewrite Hh.
  - rewrite Z.mul_0_l, Z.add_0_r, Z.lxor_0_r. done.
  - destruct Hb as [-> | ->].
    + replace (s + 1 * (1 - 0 - 0)) with (s + 1) by lia. rewrite lsb_succ.
      destruct Hs as [-> | ->]; reflexivity.
    + replace (s + 1 * (1 - 1 - 1)) with (s - 1) by lia. rewrite lsb_pred.
      destruct Hs as [-> | ->]; reflexivity.
Qed.

Lemma nibble_value_bits d0 d1 d2 d3 :
  is_bit d0 → is_bit d1 → is_bit d2 → is_bit d3 →
  let v := nibble_value [d0; d1; d2; d3] in
  0 ≤ v < 16 ∧
  lsb (Z.shiftr v 0) = d0 ∧ lsb (Z.shiftr v 1) = d1 ∧
  lsb (Z.shiftr v 2) = d2 ∧ lsb (Z.shiftr v 3) = d3.
Proof.
  intros [-> | ->] [-> | ->] [-> | ->] [-> | ->]; vm_compute; intuition congruence.
Qed.

Lemma lxor_cancel s m : Z.lxor s (Z.lxor s m) = m.
Proof. by rewrite <- Z.lxor_assoc, Z.lxor_nilpotent, Z.lxor_0_l. Qed.

Lemma lxor_bits s m : is_bit s → is_bit m → is_bit (Z.lxor s m).
Proof. intros [-> | ->] [-> | ->]; vm_compute; auto. Qed.

Lemma slice_insert a s e (i : nat) x :
  0 ≤ s → s ≤ Z.of_nat i < e →
  slice (<[i := x]> a) s e = <[(i - Z.to_nat s)%nat := x]> (slice a s e).
Proof.
  intros H0 Hi. unfold slice.
  rewrite drop_insert_ge by lia. rewrite take_insert_lt by lia. done.
Qed.

Lemma slice_insert_out a s e (i : nat) x :
  0 ≤ s → (Z.of_nat i < s ∨ e ≤ Z.of_nat i) →
  slice (<[i := x]> a) s e = slice a s e.
Proof.
  intros H0 Hi. unfold slice. destruct (decide (Z.of_nat i < s)).
  - by rewrite drop_insert_lt by lia.
  - rewrite drop_insert_ge by lia. by rewrite take_insert_ge by lia.
Qed.

Lemma cover_bits_flip a start (i : nat) :
  0 ≤ start → start ≤ Z.of_nat i < start + 15 → start + 15 ≤ len a →
  ∃ c, cover_bits a start !! (i - Z.to_nat start)%nat = Some c ∧ is_bit c ∧
    cover_bits (<[i := Z.lxor (a !!! i) 1]> a) start
    = <[(i - Z.to_nat start)%nat := 1 - c]> (cover_bits a start).
Proof.
  intros H0 Hi Hl. unfold cover_bits.
  destruct (lookup_lt_is_Some_2 a i) as [x Hx]; [unfold len in Hl; lia|].
  exists (lsb x). split; [|split; [apply lsb_is_bit|]].
  - rewrite list_lookup_fmap. unfold slice. rewrite lookup_take_lt by lia.
    rewrite lookup_drop. replace (Z.to_nat start + (i - Z.to_nat start))%nat with i by lia.
    by rewrite Hx.
  - rewrite slice_insert by lia. rewrite list_fmap_insert.
    rewrite (list_lookup_total_correct _ _ _ Hx). by rewrite lsb_lxor_1.
Qed.

(** ** The Hamming embedding step and loop *)

Lemma is_nibble_inv m :
  is_nibble m → ∃ m0 m1 m2 m3,
    m = [m0; m1; m2; m3] ∧ is_bit m0 ∧ is_bit m1 ∧ is_bit m2 ∧ is_bit m3.
Proof.
  intros [Hl Hb]. destruct m as [|m0 [|m1 [|m2 [|m3 [|]]]]]; try done.
  exists m0, m1, m2, m3. split; [done|].
  by repeat (apply Forall_cons in Hb as [? Hb]).
Qed.

Lemma embed_block_eq a k m :
  0 ≤ k → k * 15 + 15 ≤ len a →
  hamming_code.embed_block a k m = OK (flip_for a k m).
Proof.
  intros H0 H1. unfold hamming_code.embed_block, flip_for. cbv zeta.
  rewrite syndrome_at_ok by lia. cbn [result_bind].
  by destruct (nibble_value _ =? 0).
Qed.

Lemma length_flip_for a k m : length (flip_for a k m) = length a.
Proof. unfold flip_for. cbv zeta. destruct (_ =? 0); [done|]. apply length_insert. Qed.

Lemma diff_value_range a start m :
  is_nibble m →
  0 ≤ nibble_value (zip_with Z.lxor (checks (cover_bits a start)) m) < 16.
Proof.
  intros (m0 & m1 & m2 & m3 & -> & H0 & H1 & H2 & H3)%is_nibble_inv.
  unfold checks. cbn [zip_with].
  apply nibble_value_bits; apply lxor_bits; (done || apply lsb_is_bit).
Qed.

Lemma checks_flip_for a k m :
  0 ≤ k → k * 15 + 15 ≤ len a → is_nibble m →
  checks (cover_bits (flip_for a k m) (k * 15)) = m.
Proof.
  intros Hk Hl Hm. pose proof (diff_value_range a (k * 15) m Hm) as Hv.
  apply is_nibble_inv in Hm as (m0 & m1 & m2 & m3 & -> & H0 & H1 & H2 & H3).
  unfold flip_for. cbv zeta.
  set (cover := cover_bits a (k * 15)) in *.
  set (v := nibble_value _) in *.
  assert (lsb (Z.shiftr v 0) = Z.lxor (check 0 cover) m0 ∧
          lsb (Z.shiftr v 1) = Z.lxor (check 1 cover) m1 ∧
          lsb (Z.shiftr v 2) = Z.lxor (check 2 cover) m2 ∧
          lsb (Z.shiftr v 3) = Z.lxor (check 3 cover) m3) as (E0 & E1 & E2 & E3).
  { unfold v, checks. cbn [zip_with].
    apply nibble_value_bits; apply lxor_bits; (done || apply lsb_is_bit). }
  destruct (v =? 0) eqn:Ev.
  - apply Z.eqb_eq in Ev. rewrite Ev in E0, E1, E2, E3.
    change (lsb (Z.shiftr 0 _)) with 0 in *.
    symmetry in E0, E1, E2, E3. apply Z.lxor_eq in E0, E1, E2, E3.
    fold cover. unfold checks. congruence.
  - apply Z.eqb_neq in Ev.
    destruct (cover_bits_flip a (k * 15) (Z.to_nat (k * 15 + (v - 1))))
      as (c & Hc & Hcb & ->); [lia..|].
    fold cover in Hc |- *.
    set (p := (Z.to_nat (k * 15 + (v - 1)) - Z.to_nat (k * 15))%nat) in *.
    assert (Z.of_nat p + 1 = v) as Hp by lia.
    unfold checks. rewrite !(check_flip _ cover p c) by (done || lia).
    rewrite Hp, E0, E1, E2, E3, !lxor_cancel. done.
Qed.

Lemma flip_for_outside a k m (i : nat) :
  0 ≤ k → is_nibble m →
  (Z.of_nat i < k * 15 ∨ k * 15 + 15 ≤ Z.of_nat i) →
  flip_for a k m !! i = a !! i.
Proof.
  intros Hk Hm Hi. pose proof (diff_value_range a (k * 15) m Hm) as Hv.
  unfold flip_for. cbv zeta. destruct (_ =? 0) eqn:Ev; [done|].
  apply Z.eqb_neq in Ev. apply list_lookup_insert_ne. lia.
Qed.

Lemma slice_ext a b s e :
  0 ≤ s →
  (∀ i : nat, s ≤ Z.of_nat i < e → a !! i = b !! i) →
  slice a s e = slice b s e.
Proof.
  intros Hs H. unfold slice. apply list_eq. intros i.
  destruct (decide (i < Z.to_nat (e - s))%nat).
  - rewrite !lookup_take_lt, !lookup_drop by done. apply H. lia.
  - by rewrite !lookup_take_ge by lia.
Qed.

Lemma cover_bits_ext a b s :
  0 ≤ s →
  (∀ i : nat, s ≤ Z.of_nat i < s + 15 → a !! i = b !! i) →
  cover_bits a s = cover_bits b s.
Proof. intros Hs H. unfold cover_bits. f_equal. by apply slice_ext. Qed.

(** The embedding loop, block by block: each block it reaches ends with its
    nibble as syndrome, and nothing outside those blocks changes. *)
Lemma embed_loop_spec ub nibbles : ∀ k a,
  0 ≤ k → (k + len nibbles) * 15 ≤ len a → k + len nibbles ≤ ub →
  Forall is_nibble nibbles →
  ∃ a', hamming_code.embed_loop ub k nibbles a = OK a' ∧
    length a' = length a ∧
    (∀ i : nat, Z.of_nat i < k * 15 ∨ (k + len nibbles) * 15 ≤ Z.of_nat i →
                a' !! i = a !! i) ∧
    (∀ (j : nat) m, nibbles !! j = Some m →
                    checks (cover_bits a' ((k + Z.of_nat j) * 15)) = m).
Proof.
  induction nibbles as [|m nibbles IH]; intros k a Hk Hl Hub Hn.
  - exists a. repeat split; done.
  - apply Forall_cons in Hn as [Hm Hn].
    assert (len (m :: nibbles) = len nibbles + 1) as Hlen by (unfold len; simpl; lia).
    rewrite Hlen in *. pose proof (len_nonneg nibbles) as Hnn.
    cbn [hamming_code.embed_loop].
    destruct (ub <=? k) eqn:E; [lia|]. clear E.
    rewrite embed_block_eq by lia. cbn [result_bind].
    destruct (IH (k + 1) (flip_for a k m)) as (a' & Ha' & Hlen' & Hout & Hin);
      [lia | unfold len in *; rewrite length_flip_for; lia | lia | done |].
    exists a'. split; [done|]. split; [by rewrite Hlen', length_flip_for|]. split.
    + intros i Hi. rewrite Hout by lia. apply flip_for_outside; [done..|lia].
    + intros [|j] m' Hj; simpl in Hj.
      * injection Hj as <-. rewrite Z.add_0_r.
        rewrite (cover_bits_ext a' (flip_for a k m)) by (try lia; intros i Hi; apply Hout; lia).
        apply checks_flip_for; [lia | lia | done].
      * replace (k + Z.of_nat (S j)) with (k + 1 + Z.of_nat j) by lia. by apply Hin.
Qed.

(** ** Nibbles and the extraction loop *)

Lemma rows4_spec (n : nat) : ∀ bits,
  length bits = (4 * n)%nat → Forall is_bit bits →
  concat (rows4 bits) = bits ∧ length (rows4 bits) = n ∧ Forall is_nibble (rows4 bits).
Proof.
  induction n as [|n IH]; intros bits Hl Hb.
  - destruct bits; [|done]. repeat split; constructor.
  - destruct bits as [|a [|b [|c [|d bits]]]]; simpl in Hl; try lia.
    repeat (apply Forall_cons in Hb as [? Hb]).
    destruct (IH bits) as (Hc & Hn & Hf); [lia|done|].
    cbn [rows4 concat length]. rewrite Hc, Hn. split; [done|]. split; [done|].
    constructor; [|done]. split; [done|].
    repeat (apply Forall_cons_2; [done|]). apply Forall_nil_2.
Qed.

Lemma bits_from_bytes_quads data :
  ∃ n : nat, length (_bits_from_bytes data) = (4 * n)%nat.
Proof. exists (2 * length data)%nat. rewrite length_bits_from_bytes. lia. Qed.

Lemma len_bits_from_bytes_mod4 data : len (_bits_from_bytes data) mod 4 = 0.
Proof.
  rewrite len_bits_from_bytes. replace (8 * len data) with (2 * len data * 4) by lia.
  apply Z.mod_mul. lia.
Qed.

Lemma length_checks cover : length (checks cover) = 4%nat.
Proof. reflexivity. Qed.

(** The extraction loop collects the syndromes of the blocks, in order. *)
Lemma extract_loop_spec flat (n : nat) : ∀ k acc,
  0 ≤ k → (k + Z.of_nat n) * 15 ≤ len flat →
  hamming_code.extract_loop flat (seqZ k (Z.of_nat n)) acc
  = OK (acc ++ block_syndromes flat (seqZ k (Z.of_nat n))).
Proof.
  induction n as [|n IH]; intros k acc Hk Hl.
  - cbn. by rewrite app_nil_r.
  - unfold block_syndromes in *. rewrite seqZ_cons by lia. replace (Z.pred (Z.of_nat (S n))) with (Z.of_nat n) by lia.
    cbn [hamming_code.extract_loop]. cbv zeta. rewrite syndrome_at_ok by lia.
    cbn [result_bind]. rewrite IH by lia.
    rewrite fmap_cons. cbn [concat]. by rewrite app_assoc.
Qed.

Lemma length_concat_checks flat blocks :
  length (block_syndromes flat blocks) = (4 * length blocks)%nat.
Proof.
  unfold block_syndromes. induction blocks as [|j blocks IH]; [done|].
  rewrite fmap_cons. cbn [concat]. rewrite length_app, IH, length_checks. simpl. lia.
Qed.

Lemma usable_blocks_fit (flat : list Z) rate :
  rate_in_closed_unit rate = true →
  0 ≤ scale (len flat / 15) rate ∧ scale (len flat / 15) rate * 15 ≤ len flat.
Proof.
  intros Hr. pose proof (len_nonneg flat) as Hl.
  pose proof (scale_bounds (len flat / 15) rate Hr) as Hs.
  pose proof (Z.mul_div_le (len flat) 15). pose proof (Z.div_pos (len flat) 15). lia.
Qed.

Lemma hamm_extract_frame payload flat rest path rate fs :
  Forall is_byte payload → len payload < 2 ^ 32 →
  fs !! path = Some (Bmp flat) →
  rate_in_closed_unit rate = true →
  0 < scale (len flat / 15) rate →
  block_syndromes flat (seqZ 0 (scale (len flat / 15) rate))
  = _bits_from_bytes (frame hamming_code._MAGIC payload) ++ rest →
  hamming_code.extract path rate fs = (fs, OK payload).
Proof.
  intros Hp Hlen Hfs Hr Hpos Hbits.
  pose proof (len_nonneg payload) as Hlp.
  destruct (usable_blocks_fit flat rate Hr) as [Hub0 Hub].
  unfold hamming_code.extract.
  rewrite (scale_positive_rate (len flat / 15) rate) by done.
  cbn [negb]. rewrite (bind_open _ flat) by done. cbv zeta.
  rewrite (bind_lift _ (_bits_from_bytes (frame hamming_code._MAGIC payload) ++ rest)).
  2:{ rewrite <- (Z2Nat.id (scale _ _)) by lia.
      rewrite extract_loop_spec by lia. rewrite Z2Nat.id by lia. by rewrite Hbits. }
  pose proof (len_frame_bits _ payload hamm_magic_length) as Hfl.
  unfold framed_bit_count in Hfl.
  assert (len (_bits_from_bytes (frame hamming_code._MAGIC payload) ++ rest)
          = 32 + 32 + 8 * len payload + len rest) as Hall
    by (unfold len in *; rewrite length_app; lia).
  pose proof (len_nonneg rest) as Hrest.
  rewrite frame_bits_split, <- !app_assoc in *.
  fold hamming_code._MAGIC_BITS in *.
  assert (len hamming_code._MAGIC_BITS = 32) as Hmb by reflexivity.
  assert (len (_bits_from_bytes (little_endian (len payload) 4)) = 32) as Hhb
    by (rewrite len_bits_from_bytes; unfold len; rewrite length_little_endian; lia).
  unfold hamming_code._HEADER_BITS.
  pass_guard.
  rewrite slice_app_l.
  unfold array_equal. rewrite bool_decide_eq_true_2 by done. cbn [negb].
  rewrite (bind_lift _ (little_endian (len payload) 4)).
  2:{ rewrite <- Hhb at 1. rewrite slice_app_mid.
      apply bytes_from_bits_from_bytes; auto with stego. }
  rewrite from_bytes_little_endian by (change (256 ^ Z.of_nat 4) with (2 ^ 32); lia).
  pass_guard.
  unfold lift. f_equal.
  rewrite (app_assoc hamming_code._MAGIC_BITS).
  rewrite slice_app_skip by (unfold len in *; rewrite length_app; lia).
  match goal with |- _ (slice _ ?a ?b) = _ =>
    replace a with 0 by (unfold len in *; rewrite length_app; lia);
    replace b with (len (_bits_from_bytes payload))
      by (rewrite len_bits_from_bytes; unfold len in *; rewrite length_app; lia)
  end.
  rewrite slice_app_l. by apply bytes_from_bits_from_bytes.
Qed.

(** ** What [embed] returns *)

Lemma bind_open_missing {B} path (k : list Z → IO B) fs :
  fs !! path = None → io_bind (_open_rgb_bmp path) k fs = (fs, Error FileNotFound).
Proof. intros H. unfold io_bind, _open_rgb_bmp. by rewrite H. Qed.

Lemma bind_open_other {B} path (k : list Z → IO B) fs :
  fs !! path = Some NotBmp →
  io_bind (_open_rgb_bmp path) k fs = (fs, Error InvalidCarrierFormat).
Proof. intros H. unfold io_bind, _open_rgb_bmp. by rewrite H. Qed.

Lemma lsbr_embed_outcome path payload rate out fs :
  lsb_replacement.embed path payload rate out fs
  = embed_outcome PayloadTooLarge (λ flat, lsb_capacity flat rate)
      (λ flat, lsbr_write flat (_bits_from_bytes (frame lsb_replacement._MAGIC payload)))
      path payload rate out fs.
Proof.
  unfold embed_outcome, lsb_capacity.
  destruct (rate_in_closed_unit rate) eqn:Hr; cbn [negb].
  2:{ unfold lsb_replacement.embed. by rewrite Hr. }
  destruct (fs !! path) as [[flat|]|] eqn:Hfs.
  - destruct (2 ^ 32 <=? len payload) eqn:E1.
    { apply (lsbr_embed_too_large _ _ flat); (done || lia). }
    destruct (scale (len flat) rate <? framed_bit_count payload) eqn:E2.
    + apply (lsbr_embed_exceeds _ _ flat); (done || lia).
    + apply lsbr_embed_ok; (done || lia).
  - unfold lsb_replacement.embed. rewrite Hr. cbn [negb]. by apply bind_open_other.
  - unfold lsb_replacement.embed. rewrite Hr. cbn [negb]. by apply bind_open_missing.
Qed.

Lemma lsbm_embed_outcome rng path payload rate out fs :
  lsb_matching.embed rng path payload rate out fs
  = embed_outcome PayloadTooLarge (λ flat, lsb_capacity flat rate)
      (λ flat, lsbm_write rng flat (_bits_from_bytes (frame lsb_matching._MAGIC payload)))
      path payload rate out fs.
Proof.
  unfold embed_outcome, lsb_capacity.
  destruct (rate_in_closed_unit rate) eqn:Hr; cbn [negb].
  2:{ unfold lsb_matching.embed. by rewrite Hr. }
  destruct (fs !! path) as [[flat|]|] eqn:Hfs.
  - destruct (2 ^ 32 <=? len payload) eqn:E1.
    { apply (lsbm_embed_too_large _ _ _ flat); (done || lia). }
    destruct (scale (len flat) rate <? framed_bit_count payload) eqn:E2.
    + apply (lsbm_embed_exceeds _ _ _ flat); (done || lia).
    + apply lsbm_embed_ok; (done || lia).
  - unfold lsb_matching.embed. rewrite Hr. cbn [negb]. by apply bind_open_other.
  - unfold lsb_matching.embed. rewrite Hr. cbn [negb]. by apply bind_open_missing.
Qed.

Lemma to_bytes_len_overflow (payload : list Z) :
  2 ^ 32 ≤ len payload → to_bytes (len payload) 4 = Error OverflowError.
Proof. intros H. by apply to_bytes_overflow. Qed.

Lemma hamm_frame_nibbles payload :
  let bits := _bits_from_bytes (frame hamming_code._MAGIC payload) in
  concat (rows4 bits) = bits ∧
  len (rows4 bits) * 4 = framed_bit_count payload ∧
  Forall is_nibble (rows4 bits).
Proof.
  intros bits. destruct (bits_from_bytes_quads (frame hamming_code._MAGIC payload)) as [n Hn].
  destruct (rows4_spec n bits Hn (bits_from_bytes_bits _)) as (Hc & Hl & Hf).
  split; [done|]. split; [|done].
  rewrite <- (len_frame_bits hamming_code._MAGIC payload hamm_magic_length).
  unfold len. rewrite Hl, Hn. lia.
Qed.

Lemma hamm_embed_loop_ok flat payload rate :
  rate_in_closed_unit rate = true →
  framed_bit_count payload ≤ hamming_capacity flat rate →
  let bits := _bits_from_bytes (frame hamming_code._MAGIC payload) in
  let stego := hamm_write (hamming_usable_blocks flat rate) flat bits in
  hamming_code.embed_loop (hamming_usable_blocks flat rate) 0 (rows4 bits) flat = OK stego ∧
  length stego = length flat ∧
  (∀ i : nat, framed_bit_count payload / 4 * 15 ≤ Z.of_nat i → stego !! i = flat !! i) ∧
  block_syndromes stego (seqZ 0 (len (rows4 bits))) = bits.
Proof.
  intros Hr Hcap bits stego.
  destruct (hamm_frame_nibbles payload) as (Hc & Hl & Hn). fold bits in Hc, Hl, Hn.
  destruct (usable_blocks_fit flat rate Hr) as [Hub0 Hub].
  unfold hamming_capacity, hamming_usable_blocks in *.
  destruct (embed_loop_spec (scale (len flat / 15) rate) (rows4 bits) 0 flat)
    as (a' & Ha' & Hlen & Hout & Hin); [lia | lia | lia | done |].
  assert (stego = a') as -> by (unfold stego, hamm_write; by rewrite Ha').
  split; [done|]. split; [done|]. split.
  - intros i Hi. apply Hout. right.
    replace (framed_bit_count payload) with (len (rows4 bits) * 4) in Hi by done.
    rewrite Z.div_mul in Hi by lia. lia.
  - rewrite <- Hc at 2. unfold block_syndromes. f_equal.
    apply list_eq. intros j. rewrite list_lookup_fmap.
    destruct (rows4 bits !! j) as [m|] eqn:Ej.
    + rewrite lookup_seqZ_lt by (apply lookup_lt_Some in Ej; unfold len; lia).
      cbn. f_equal. rewrite <- (Hin j m Ej). reflexivity.
    + rewrite lookup_seqZ_ge; [done|]. apply lookup_ge_None in Ej. unfold len. lia.
Qed.

Lemma hamm_embed_outcome path payload rate out fs :
  hamming_code.embed path payload rate out fs
  = embed_outcome OverflowError (λ flat, hamming_capacity flat rate)
      (λ flat, hamm_write (hamming_usable_blocks flat rate) flat
                 (_bits_from_bytes (frame hamming_code._MAGIC payload)))
      path payload rate out fs.
Proof.
  unfold embed_outcome. unfold hamming_code.embed.
  destruct (rate_in_closed_unit rate) eqn:Hr; cbn [negb]; [|done].
  destruct (fs !! path) as [[flat|]|] eqn:Hfs;
    [|by apply bind_open_other|by apply bind_open_missing].
  rewrite (bind_open _ flat) by done. cbv zeta.
  destruct (2 ^ 32 <=? len payload) eqn:E1.
  { by rewrite (bind_lift_error _ OverflowError) by (apply to_bytes_len_overflow; lia). }
  assert (len payload < 2 ^ 32) as Hlen by lia.
  rewrite (bind_lift _ _ _ _ (to_bytes_len _ Hlen)).
  fold (frame hamming_code._MAGIC payload).
  rewrite (len_frame_bits _ payload hamm_magic_length).
  fold (hamming_usable_blocks flat rate). fold (hamming_capacity flat rate).
  destruct (hamming_capacity flat rate <? framed_bit_count payload) eqn:E2; [done|].
  rewrite <- (len_frame_bits _ payload hamm_magic_length).
  rewrite len_bits_from_bytes_mod4. cbn [Z.eqb negb].
  unfold reshape4. rewrite len_bits_from_bytes_mod4. cbn [Z.eqb].
  rewrite (bind_lift _ (rows4 (_bits_from_bytes (frame hamming_code._MAGIC payload)))) by done.
  destruct (hamm_embed_loop_ok flat payload rate Hr) as (Hloop & _); [lia|].
  by rewrite (bind_lift _ _ _ _ Hloop).
Qed.

Lemma embed_outcome_ok too_large cap write path payload rate out fs fs' :
  embed_outcome too_large cap write path payload rate out fs = (fs', OK ()) →
  ∃ flat, fs !! path = Some (Bmp flat) ∧ rate_in_closed_unit rate = true ∧
    len payload < 2 ^ 32 ∧ framed_bit_count payload ≤ cap flat ∧
    fs' = <[out := Bmp (write flat)]> fs.
Proof.
  unfold embed_outcome. destruct (rate_in_closed_unit rate); cbn [negb]; [|done].
  destruct (fs !! path) as [[flat|]|]; [|done..].
  destruct (2 ^ 32 <=? len payload) eqn:E1; [done|].
  destruct (cap flat <? framed_bit_count payload) eqn:E2; [done|].
  intros [= <-]. exists flat. repeat split; (done || lia).
Qed.

Lemma embed_outcome_error too_large cap write path payload rate out fs e :
  (embed_outcome too_large cap write path payload rate out fs).2 = Error e →
  (embed_outcome too_large cap write path payload rate out fs).1 = fs.
Proof.
  unfold embed_outcome. destruct (rate_in_closed_unit rate); cbn [negb]; [|done].
  destruct (fs !! path) as [[flat|]|]; [|done..].
  destruct (2 ^ 32 <=? len payload); [done|].
  destruct (cap flat <? framed_bit_count payload); done.
Qed.

Lemma embed_outcome_capacity too_large cap write path payload rate out fs flat :
  fs !! path = Some (Bmp flat) → rate_in_closed_unit rate = true →
  len payload < 2 ^ 32 →
  ((embed_outcome too_large cap write path payload rate out fs).2 = Error CapacityExceeded
   ↔ cap flat < framed_bit_count payload).
Proof.
  intros Hfs Hr Hlen. unfold embed_outcome. rewrite Hr, Hfs. cbn [negb].
  destruct (2 ^ 32 <=? len payload) eqn:E1; [lia|].
  destruct (cap flat <? framed_bit_count payload) eqn:E2; cbn [snd].
  - split; [lia|done].
  - split; [done|lia].
Qed.

(** ** Properties of the engines *)


Lemma diff_value_zero_iff s m :
  is_nibble s → is_nibble m →
  (s = m ↔ nibble_value (zip_with Z.lxor s m) = 0).
Proof.
  intros (s0 & s1 & s2 & s3 & -> & Hs0 & Hs1 & Hs2 & Hs3)%is_nibble_inv
         (m0 & m1 & m2 & m3 & -> & H0 & H1 & H2 & H3)%is_nibble_inv.
  destruct Hs0 as [-> | ->], Hs1 as [-> | ->], Hs2 as [-> | ->], Hs3 as [-> | ->],
           H0 as [-> | ->], H1 as [-> | ->], H2 as [-> | ->], H3 as [-> | ->];
    vm_compute; split; congruence.
Qed.

Lemma checks_nibble cover : is_nibble (checks cover).
Proof.
  split; [done|]. unfold checks, check.
  repeat (apply Forall_cons_2; [apply lsb_is_bit|]). apply Forall_nil_2.
Qed.



Lemma lsbm_write_lookup rng flat bits (i : nat) x :
  len bits ≤ len flat → flat !! i = Some x →
  ∃ plus : bool,
    lsbm_write rng flat bits !! i
    = Some (match bits !! i with
            | Some b => if lsb x =? b then x else match_byte x plus
            | None => x
            end).
Proof.
  intros Hle Hx. unfold lsbm_write, len in *.
  assert (length (lsbm_zone rng (take (length bits) flat) bits) = length bits) as Hz
    by (rewrite length_lsbm_zone, length_take; lia).
  destruct (bits !! i) as [b|] eqn:Eb.
  - assert (i < length bits)%nat as Hi by by apply lookup_lt_Some in Eb.
    rewrite lookup_app_l by lia.
    apply lsbm_zone_lookup; [|done]. by rewrite lookup_take_lt.
  - exists true. apply lookup_ge_None in Eb.
    rewrite lookup_app_r by lia. rewrite Hz, lookup_drop.
    replace (length bits + (i - length bits))%nat with i by lia. done.
Qed.

(** C3 (LSB matching boundary law).  When LSB matching [embed] succeeds on a
    carrier of [uint8] samples, every output sample is again in [0, 255];
    a sample outside the embed zone is unchanged; inside the zone its bit 0
    equals the frame bit, it is unchanged when its bit 0 already matched,
    and otherwise it moved by exactly +1 or -1, a 0 becoming 1 and a 255
    becoming 254.  This holds for every polarity source [rng]. *)
Theorem lsbm_boundary_law (rng : nat → bool) fs fs' image_path out_path
    (carrier payload : list Z) (rate : Q) :
  fs !! image_path = Some (Bmp carrier) →
  Forall is_byte carrier →
  lsb_matching.embed rng image_path payload rate out_path fs = (fs', OK ()) →
  ∃ stego,
    fs' !! out_path = Some (Bmp stego) ∧
    length stego = length carrier ∧
    ∀ (i : nat) x, carrier !! i = Some x →
      ∃ y, stego !! i = Some y ∧ is_byte y ∧
        match _bits_from_bytes (frame lsb_matching._MAGIC payload) !! i with
        | Some target =>
            lsb y = target ∧
            (lsb x = target → y = x) ∧
            (lsb x ≠ target →
               (y = x + 1 ∨ y = x - 1) ∧ (x = 0 → y = 1) ∧ (x = 255 → y = 254))
        | None => y = x
        end.
Proof.
  intros Hfs Hc Hemb. rewrite lsbm_embed_outcome in Hemb.
  apply embed_outcome_ok in Hemb as (flat & Hfs' & Hr & Hlen & Hcap & ->).
  rewrite Hfs in Hfs'. injection Hfs' as <-.
  eexists. split; [apply lookup_insert_eq|]. split; [apply length_lsbm_write|].
  intros i x Hx.
  pose proof (scale_bounds (len carrier) rate Hr (len_nonneg _)) as Hsc.
  pose proof (len_frame_bits _ payload lsbm_magic_length) as Hfl.
  unfold lsb_capacity in Hcap.
  destruct (lsbm_write_lookup rng carrier
              (_bits_from_bytes (frame lsb_matching._MAGIC payload)) i x) as [plus Hy];
    [lia|done|].
  assert (is_byte x) as Hbx by by eapply Forall_lookup_1 in Hc.
  eexists. split; [exact Hy|].
  destruct (_bits_from_bytes (frame lsb_matching._MAGIC payload) !! i) as [b|] eqn:Eb;
    [|done].
  assert (is_bit b) as Hb
    by (eapply Forall_lookup_1; [apply bits_from_bytes_bits|exact Eb]).
  destruct (lsb x =? b) eqn:E.
  - apply Z.eqb_eq in E. split; [done|]. split; [done|]. split; [done|].
    intros Hne. by destruct Hne.
  - apply Z.eqb_neq in E.
    pose proof (match_byte_step x plus Hbx) as [Hstep Hby].
    pose proof (match_byte_cases x plus Hbx) as Hcases.
    split; [done|]. split; [by apply match_byte_lsb|]. split; [done|].
    intros _. split; [done|]. split; intros ->; by rewrite Hcases.
Qed.


(** C5 (non-destructive capacity check).  For every engine, when [embed]
    fails with [CapacityExceeded] the file store is exactly what it was:
    the carrier is untouched and no output file was written. *)
Theorem capacity_check_atomic (rng : nat → bool) fs image_path out_path
    (payload : list Z) (rate : Q) :
  ((lsb_replacement.embed image_path payload rate out_path fs).2 = Error CapacityExceeded →
   (lsb_replacement.embed image_path payload rate out_path fs).1 = fs) ∧
  ((lsb_matching.embed rng image_path payload rate out_path fs).2 = Error CapacityExceeded →
   (lsb_matching.embed rng image_path payload rate out_path fs).1 = fs) ∧
  ((hamming_code.embed image_path payload rate out_path fs).2 = Error CapacityExceeded →
   (hamming_code.embed image_path payload rate out_path fs).1 = fs).
Proof.
  rewrite lsbr_embed_outcome, lsbm_embed_outcome, hamm_embed_outcome.
  repeat split; apply embed_outcome_error.
Qed.

(** ** Concrete data *)

Lemma len_huge_payload : len huge_payload = 2 ^ 32.
Proof.
  unfold len, huge_payload. rewrite length_replicate. apply Z2Nat.id. lia.
Qed.

Lemma demo_fs_cover : demo_fs !! "cover.bmp"%string = Some (Bmp demo_carrier).
Proof. apply lookup_singleton_eq. Qed.

Lemma oversize_payload (rng : nat → bool) fs image_path out_path
    (carrier payload : list Z) (rate : Q) :
  fs !! image_path = Some (Bmp carrier) →
  rate_in_closed_unit rate = true →
  2 ^ 32 ≤ len payload →
  lsb_replacement.embed image_path payload rate out_path fs = (fs, Error PayloadTooLarge) ∧
  lsb_matching.embed rng image_path payload rate out_path fs = (fs, Error PayloadTooLarge) ∧
  hamming_code.embed image_path payload rate out_path fs = (fs, Error OverflowError).
Proof.
  intros Hfs Hr Hlen.
  rewrite lsbr_embed_outcome, lsbm_embed_outcome, hamm_embed_outcome.
  unfold embed_outcome. rewrite Hr, Hfs. cbn [negb].
  destruct (2 ^ 32 <=? len payload) eqn:E; [done|lia].
Qed.

(** C6 (payloads of [2 ^ 32] bytes or more).  On a payload of exactly
    [2 ^ 32] bytes the two LSB engines stop at their explicit guard with
    [PayloadTooLarge]; the Hamming engine has no such guard and the failure
    is the [OverflowError] of [int.to_bytes]. *)
Theorem hamming_oversize_payload_error :
  lsb_replacement.embed "cover.bmp" huge_payload 1 "stego.bmp" demo_fs
    = (demo_fs, Error PayloadTooLarge) ∧
  lsb_matching.embed (λ _, true) "cover.bmp" huge_payload 1 "stego.bmp" demo_fs
    = (demo_fs, Error PayloadTooLarge) ∧
  hamming_code.embed "cover.bmp" huge_payload 1 "stego.bmp" demo_fs
    = (demo_fs, Error OverflowError).
Proof.
  apply (oversize_payload (λ _, true) demo_fs "cover.bmp" "stego.bmp"
           demo_carrier huge_payload 1).
  - exact demo_fs_cover.
  - reflexivity.
  - rewrite len_huge_payload. lia.
Qed.

(** C9 (rate 0.0 is accepted but never embeds), for payloads that fit the
    header.  Rate 0.0 passes the rate check; at rate 0.0 both capacities are
    0 while the framed bit count is at least 64; so for every carrier and
    every payload shorter than [2 ^ 32] bytes, the empty one included, all
    three [embed] functions fail with [CapacityExceeded] and leave the store
    as it was. *)
Theorem rate_zero_never_embeds (rng : nat → bool) fs image_path out_path
    (carrier payload : list Z) :
  fs !! image_path = Some (Bmp carrier) →
  len payload < 2 ^ 32 →
  rate_in_closed_unit 0 = true ∧
  64 ≤ framed_bit_count payload ∧
  lsb_capacity carrier 0 = 0 ∧ hamming_capacity carrier 0 = 0 ∧
  lsb_replacement.embed image_path payload 0 out_path fs = (fs, Error CapacityExceeded) ∧
  lsb_matching.embed rng image_path payload 0 out_path fs = (fs, Error CapacityExceeded) ∧
  hamming_code.embed image_path payload 0 out_path fs = (fs, Error CapacityExceeded).
Proof.
  intros Hfs Hlen. pose proof (len_nonneg payload) as Hp.
  assert (lsb_capacity carrier 0 = 0) as Hl by apply scale_zero.
  assert (hamming_capacity carrier 0 = 0) as Hh
    by (unfold hamming_capacity, hamming_usable_blocks; by rewrite scale_zero).
  split; [reflexivity|]. split; [unfold framed_bit_count; lia|].
  split; [done|]. split; [done|].
  rewrite lsbr_embed_outcome, lsbm_embed_outcome, hamm_embed_outcome.
  unfold embed_outcome. rewrite Hfs, Hl, Hh.
  change (rate_in_closed_unit 0) with true. cbn [negb].
  destruct (2 ^ 32 <=? len payload) eqn:E; [lia|].
  destruct (0 <? framed_bit_count payload) eqn:E'; [done|].
  unfold framed_bit_count in E'. lia.
Qed.

(** Without the bound on the payload the statement of C9 fails: at rate 0.0
    a payload of [2 ^ 32] bytes is stopped by the length guard of LSB
    replacement before the capacity check is reached. *)
Lemma rate_zero_huge_payload :
  lsb_replacement.embed "cover.bmp" huge_payload 0 "stego.bmp" demo_fs
    = (demo_fs, Error PayloadTooLarge) ∧
  (lsb_replacement.embed "cover.bmp" huge_payload 0 "stego.bmp" demo_fs).2
    ≠ Error CapacityExceeded.
Proof.
  destruct (oversize_payload (λ _, true) demo_fs "cover.bmp" "stego.bmp"
              demo_carrier huge_payload 0) as (H & _).
  - exact demo_fs_cover.
  - reflexivity.
  - rewrite len_huge_payload. lia.
  - rewrite H. split; [reflexivity|]. cbn [snd]. discriminate.
Qed.


Lemma hamm_extract_eq path rate fs flat :
  fs !! path = Some (Bmp flat) →
  rate_in_half_open_unit rate = true →
  hamming_code.extract path rate fs
  = hamm_parse (block_syndromes flat (seqZ 0 (hamming_usable_blocks flat rate))) fs.
Proof.
  intros Hfs Hr. unfold hamming_code.extract. rewrite Hr. cbn [negb].
  rewrite (bind_open _ flat) by done. cbv zeta.
  assert (rate_in_closed_unit rate = true) as Hr'.
  { unfold rate_in_half_open_unit, rate_in_closed_unit in *.
    apply andb_prop in Hr as [H0 H1]. rewrite H1, andb_true_r.
    apply negb_true_iff in H0. apply Qle_bool_iff. apply Qlt_le_weak, Qnot_le_lt.
    intros H. apply Qle_bool_iff in H. congruence. }
  destruct (usable_blocks_fit flat rate Hr') as [Hub0 Hub].
  fold (hamming_usable_blocks flat rate) in *.
  rewrite (bind_lift _ (block_syndromes flat (seqZ 0 (hamming_usable_blocks flat rate)))).
  - reflexivity.
  - rewrite <- (Z2Nat.id (hamming_usable_blocks flat rate)) by lia.
    rewrite extract_loop_spec by lia. done.
Qed.

Lemma hamm_parse_stateless bits : stateless (hamm_parse bits).
Proof.
  unfold hamm_parse, stateless. cbv zeta.
  destruct (_ <? _); [by eexists|].
  destruct (negb _); [by eexists|].
  unfold io_bind, lift. destruct (_bytes_from_bits _) as [header|e]; [|by eexists].
  destruct (_ <? _); by eexists.
Qed.

Lemma lsbm_first_block_check :
  checks (take 15 lsb_matching._MAGIC_BITS) = [0; 0; 0; 1].
Proof. reflexivity. Qed.

Lemma hamm_magic_head : take 4 hamming_code._MAGIC_BITS = [0; 1; 0; 0].
Proof. reflexivity. Qed.

Lemma block_syndromes_head flat n :
  0 < n →
  take 4 (block_syndromes flat (seqZ 0 n)) = checks (cover_bits flat 0).
Proof.
  intros Hn. unfold block_syndromes. rewrite seqZ_cons by done.
  rewrite fmap_cons. cbn [concat]. by rewrite take_app_length' by done.
Qed.

Lemma len_block_syndromes flat n :
  0 ≤ n → len (block_syndromes flat (seqZ 0 n)) = 4 * n.
Proof.
  intros Hn. unfold len. rewrite length_concat_checks, length_seqZ. lia.
Qed.

(** C7 (magic isolation).  When LSB matching [embed] succeeds on a carrier
    of at least 16 full blocks (240 samples), Hamming [extract] at rate 1.0
    on the file it wrote fails with [MagicMismatch], for every payload and
    every polarity source: the syndrome of the first block is that of the
    first 15 bits of the magic [LSBM], which is not the first nibble of the
    magic [HAMM]. *)
Theorem magic_isolation (rng : nat → bool) fs fs' image_path out_path
    (carrier payload : list Z) (rate : Q) :
  fs !! image_path = Some (Bmp carrier) →
  Forall is_byte carrier →
  lsb_matching.embed rng image_path payload rate out_path fs = (fs', OK ()) →
  16 * 15 ≤ len carrier →
  hamming_code.extract out_path 1 fs' = (fs', Error MagicMismatch).
Proof.
  intros Hfs Hc Hemb Hbig. rewrite lsbm_embed_outcome in Hemb.
  apply embed_outcome_ok in Hemb as (flat & Hfs' & Hr & Hlen & Hcap & ->).
  rewrite Hfs in Hfs'. injection Hfs' as <-.
  set (bits := _bits_from_bytes (frame lsb_matching._MAGIC payload)) in *.
  set (stego := lsbm_write rng carrier bits).
  pose proof (scale_bounds (len carrier) rate Hr (len_nonneg _)) as Hsc.
  pose proof (len_frame_bits _ payload lsbm_magic_length) as Hfl. fold bits in Hfl.
  pose proof (len_nonneg payload) as Hlp.
  unfold lsb_capacity, framed_bit_count in *.
  assert (len stego = len carrier) as Hls
    by (unfold len, stego; by rewrite length_lsbm_write).
  rewrite (hamm_extract_eq _ _ _ stego) by (apply lookup_insert_eq || reflexivity).
  unfold hamming_usable_blocks. rewrite scale_one, Hls.
  assert (16 ≤ len carrier / 15) as Hub by (apply Z.div_le_lower_bound; lia).
  unfold hamm_parse. cbv zeta.
  rewrite len_block_syndromes by lia.
  change (len hamming_code._MAGIC_BITS) with 32.
  change hamming_code._HEADER_BITS with 32.
  pass_guard.
  unfold array_equal. rewrite bool_decide_eq_false_2; [done|].
  intros Heq. apply (f_equal (take 4)) in Heq.
  rewrite slice_0, take_take in Heq. change (4 `min` Z.to_nat 32)%nat with 4%nat in Heq.
  rewrite block_syndromes_head, hamm_magic_head in Heq by lia.
  assert (cover_bits stego 0 = take 15 lsb_matching._MAGIC_BITS) as Hcover.
  { unfold cover_bits. rewrite fmap_slice, slice_0. unfold stego.
    rewrite lsb_lsbm_write by (done || lia || apply bits_from_bytes_bits).
    unfold bits. rewrite frame_bits_split.
    change (Z.to_nat (0 + 15)) with 15%nat.
    rewrite <- app_assoc. by rewrite take_app_le by (rewrite length_bits_from_bytes; simpl; lia). }
  rewrite Hcover, lsbm_first_block_check in Heq. discriminate.
Qed.

Lemma cover_bits_app p s start :
  0 ≤ start → start + 15 ≤ len p → cover_bits (p ++ s) start = cover_bits p start.
Proof.
  intros H0 H1. apply cover_bits_ext; [done|]. intros i Hi.
  apply lookup_app_l. unfold len in H1. lia.
Qed.

Lemma flip_for_app p s k m :
  0 ≤ k → k * 15 + 15 ≤ len p → is_nibble m →
  flip_for (p ++ s) k m = flip_for p k m ++ s.
Proof.
  intros Hk Hl Hm. pose proof (diff_value_range p (k * 15) m Hm) as Hv.
  unfold flip_for. cbv zeta. rewrite cover_bits_app by lia.
  destruct (_ =? 0) eqn:E; [done|]. apply Z.eqb_neq in E.
  unfold len in Hl.
  rewrite insert_app_l by lia. by rewrite lookup_total_app_l by lia.
Qed.

Lemma embed_loop_app ub nibbles : ∀ k p s,
  0 ≤ k → ub * 15 ≤ len p → Forall is_nibble nibbles →
  hamming_code.embed_loop ub k nibbles (p ++ s)
  = match hamming_code.embed_loop ub k nibbles p with
    | OK a => OK (a ++ s)
    | Error e => Error e
    end.
Proof.
  induction nibbles as [|m nibbles IH]; intros k p s Hk Hl Hn; [done|].
  apply Forall_cons in Hn as [Hm Hn]. cbn [hamming_code.embed_loop].
  destruct (ub <=? k) eqn:E; [done|].
  pose proof (len_nonneg s) as Hs.
  rewrite !embed_block_eq by (unfold len in *; rewrite ?length_app; lia).
  cbn [result_bind]. rewrite flip_for_app by (done || lia).
  apply IH; [lia| |done]. unfold len in *. rewrite length_flip_for. lia.
Qed.

Lemma block_syndromes_ext a b (bound : nat) blocks :
  take bound a = take bound b →
  Forall (λ j, 0 ≤ j ∧ j * 15 + 15 ≤ Z.of_nat bound) blocks →
  block_syndromes a blocks = block_syndromes b blocks.
Proof.
  intros Ht Hb. unfold block_syndromes. f_equal. apply Forall_fmap_ext_1.
  eapply Forall_impl; [exact Hb|]. intros j [Hj0 Hj]. cbn. f_equal.
  apply cover_bits_ext; [lia|]. intros i Hi.
  rewrite <- (lookup_take_lt a bound i), <- (lookup_take_lt b bound i) by lia.
  by rewrite Ht.
Qed.

Lemma half_open_closed rate :
  rate_in_half_open_unit rate = true → rate_in_closed_unit rate = true.
Proof.
  unfold rate_in_half_open_unit, rate_in_closed_unit. intros [H0 H1]%andb_prop.
  rewrite H1, andb_true_r. apply negb_true_iff in H0.
  apply Qle_bool_iff, Qlt_le_weak, Qnot_le_lt. intros H.
  apply Qle_bool_iff in H. congruence.
Qed.


Lemma demo_carrier_bytes : Forall is_byte demo_carrier.
Proof.
  apply Forall_forall. intros x (k & -> & _)%list_elem_of_fmap.
  apply Z.mod_pos_bound. lia.
Qed.

Lemma demo_payload_bytes : Forall is_byte demo_payload.
Proof. repeat (apply Forall_cons_2; [unfold is_byte; lia|]). apply Forall_nil_2. Qed.

(** ** Further properties *)

Lemma scale_monotone n r1 r2 :
  0 ≤ n → (0 <= r1)%Q → (r1 <= r2)%Q → scale n r1 ≤ scale n r2.
Proof.
  intros Hn H0 H12. rewrite !scale_eq. unfold Qle in *. simpl in *.
  destruct r1 as [a1 b1], r2 as [a2 b2]. simpl in *.
  rewrite !Z.quot_div_nonneg by nia.
  apply Z.div_le_lower_bound; [lia|].
  pose proof (Z.mul_div_le (n * a1) (Z.pos b1) ltac:(lia)) as Hq.
  assert (0 ≤ n * a1 / Z.pos b1) by (apply Z.div_pos; nia).
  nia.
Qed.

(** X1 (rate monotonicity).  For rates [0 <= r1 <= r2] the capacity of every
    engine at [r1] is at most its capacity at [r2]. *)
Theorem rate_monotonicity (carrier : list Z) (r1 r2 : Q) :
  (0 <= r1)%Q → (r1 <= r2)%Q →
  lsb_capacity carrier r1 ≤ lsb_capacity carrier r2 ∧
  hamming_capacity carrier r1 ≤ hamming_capacity carrier r2.
Proof.
  intros H0 H12. unfold lsb_capacity, hamming_capacity, hamming_usable_blocks.
  pose proof (len_nonneg carrier) as Hl.
  pose proof (Z.div_pos (len carrier) 15 Hl ltac:(lia)) as Hb.
  pose proof (scale_monotone (len carrier) r1 r2 Hl H0 H12).
  pose proof (scale_monotone (len carrier / 15) r1 r2 Hb H0 H12). lia.
Qed.

Lemma rate_monotonicity_witness :
  lsb_capacity demo_carrier (1 # 3) ≤ lsb_capacity demo_carrier (1 # 2) ∧
  hamming_capacity demo_carrier (1 # 3) ≤ hamming_capacity demo_carrier (1 # 2).
Proof.
  apply (rate_monotonicity demo_carrier (1 # 3) (1 # 2)); vm_compute; discriminate.
Defined.

(** ** What [extract] returns *)

Lemma lsb_extract_outcome magic_bits path rate fs :
  lsb_extract magic_bits 32 path rate fs
  = extract_outcome (lsb_decode magic_bits rate) path rate fs.
Proof.
  unfold lsb_extract, extract_outcome.
  destruct (rate_in_half_open_unit rate); cbn [negb]; [|done].
  destruct (fs !! path) as [[flat|]|] eqn:Hfs;
    [|by apply bind_open_other|by apply bind_open_missing].
  rewrite (bind_open _ flat) by done. cbv zeta.
  unfold lsb_decode, parse_frame, lsb_capacity. cbv zeta. rewrite !fmap_slice.
  destruct (_ <? _); [done|].
  destruct (negb _); [done|].
  unfold io_bind, lift, result_bind.
  destruct (_bytes_from_bits _) as [header|e]; [|done].
  rewrite fmap_slice. by destruct (_ <? _).
Qed.

Lemma hamming_extract_outcome path rate fs :
  hamming_code.extract path rate fs
  = extract_outcome (hamming_decode rate) path rate fs.
Proof.
  unfold extract_outcome.
  destruct (rate_in_half_open_unit rate) eqn:Hr; cbn [negb].
  2:{ unfold hamming_code.extract. by rewrite Hr. }
  destruct (fs !! path) as [[flat|]|] eqn:Hfs.
  - rewrite (hamm_extract_eq _ _ _ flat) by done.
    unfold hamming_decode, hamm_parse, parse_frame. cbv zeta.
    change hamming_code._HEADER_BITS with 32.
    destruct (_ <? _); [done|].
    destruct (negb _); [done|].
    unfold io_bind, lift, result_bind.
    destruct (_bytes_from_bits _) as [header|e]; [|done].
    by destruct (_ <? _).
  - unfold hamming_code.extract. rewrite Hr. cbn [negb]. by apply bind_open_other.
  - unfold hamming_code.extract. rewrite Hr. cbn [negb]. by apply bind_open_missing.
Qed.

(** ** Packing bits *)

Lemma bit_of_is_bit x : is_bit (bit_of x).
Proof. unfold bit_of, is_bit. destruct (x =? 0); auto. Qed.

Lemma bit_of_bit x : is_bit x → bit_of x = x.
Proof. intros [-> | ->]; reflexivity. Qed.

Lemma pack_group_8 b7 b6 b5 b4 b3 b2 b1 b0 :
  is_byte (pack_group [b7; b6; b5; b4; b3; b2; b1; b0]) ∧
  unpack_byte (pack_group [b7; b6; b5; b4; b3; b2; b1; b0])
  = bit_of <$> [b7; b6; b5; b4; b3; b2; b1; b0].
Proof.
  unfold pack_group. cbn [length Nat.sub replicate app foldl fmap list_fmap].
  generalize (bit_of_is_bit b7), (bit_of_is_bit b6), (bit_of_is_bit b5), (bit_of_is_bit b4),
    (bit_of_is_bit b3), (bit_of_is_bit b2), (bit_of_is_bit b1), (bit_of_is_bit b0).
  generalize (bit_of b7), (bit_of b6), (bit_of b5), (bit_of b4),
    (bit_of b3), (bit_of b2), (bit_of b1), (bit_of b0).
  intros c7 c6 c5 c4 c3 c2 c1 c0
    [-> | ->] [-> | ->] [-> | ->] [-> | ->] [-> | ->] [-> | ->] [-> | ->] [-> | ->];
    split; (reflexivity || (unfold is_byte; cbn; lia)).
Qed.

(** Packing whole groups of eight: bytes come out, one per group, and
    unpacking them gives back the bits, read as [np.packbits] reads them. *)
Lemma packbits_whole (n : nat) : ∀ bits,
  length bits = (8 * n)%nat →
  Forall is_byte (packbits bits) ∧ length (packbits bits) = n ∧
  _bits_from_bytes (packbits bits) = bit_of <$> bits.
Proof.
  induction n as [|n IH]; intros bits Hl.
  - destruct bits; [|done]. repeat split; constructor.
  - destruct bits as [|b7 [|b6 [|b5 [|b4 [|b3 [|b2 [|b1 [|b0 bits]]]]]]]];
      simpl in Hl; try lia.
    destruct (IH bits) as (Hb & Hn & Hu); [lia|].
    destruct (pack_group_8 b7 b6 b5 b4 b3 b2 b1 b0) as [Hg Hug].
    cbn [packbits]. split; [by constructor|]. split; [simpl; by rewrite Hn|].
    rewrite bits_from_bytes_cons, Hug, Hu. reflexivity.
Qed.

Lemma bytes_from_bits_inv bits p :
  _bytes_from_bits bits = OK p →
  Forall is_byte p ∧ len bits = 8 * len p ∧ _bits_from_bytes p = bit_of <$> bits.
Proof.
  unfold _bytes_from_bits. destruct (len bits mod 8 =? 0) eqn:E; [|done].
  cbn [negb]. intros [= <-]. apply Z.eqb_eq in E.
  assert (∃ n : nat, length bits = (8 * n)%nat) as [n Hn].
  { exists (Z.to_nat (len bits / 8)). unfold len in *.
    pose proof (Z.div_mod (Z.of_nat (length bits)) 8).
    pose proof (Z.div_pos (Z.of_nat (length bits)) 8). lia. }
  destruct (packbits_whole n bits Hn) as (Hb & Hl & Hu).
  split; [done|]. split; [unfold len; lia|done].
Qed.

Lemma bytes_from_bits_misaligned bits :
  len bits mod 8 ≠ 0 → _bytes_from_bits bits = Error MisalignedBits.
Proof.
  intros H. unfold _bytes_from_bits. apply Z.eqb_neq in H. by rewrite H.
Qed.

Lemma fmap_bit_of_bits bits : Forall is_bit bits → bit_of <$> bits = bits.
Proof.
  induction 1 as [|b bits Hb _ IH]; [done|]. cbn. by rewrite IH, bit_of_bit.
Qed.

Lemma from_bytes_bound h :
  Forall is_byte h → 0 ≤ from_bytes h < 256 ^ len h.
Proof.
  induction 1 as [|b h Hb _ IH]; [change (0 ≤ 0 < 1); lia|].
  unfold len in *. cbn [from_bytes foldr length]. fold (from_bytes h).
  rewrite Nat2Z.inj_succ, Z.pow_succ_r by lia. unfold is_byte in Hb. lia.
Qed.

Lemma little_endian_from_bytes h :
  Forall is_byte h → little_endian (from_bytes h) (length h) = h.
Proof.
  induction 1 as [|b h Hb _ IH]; [done|].
  cbn [from_bytes foldr length little_endian]. fold (from_bytes h).
  unfold is_byte in Hb.
  pose proof (Z.div_mod (b + 256 * from_bytes h) 256 ltac:(lia)) as Hdm.
  pose proof (Z.mod_pos_bound (b + 256 * from_bytes h) 256 ltac:(lia)) as Hmb.
  assert ((b + 256 * from_bytes h) mod 256 = b) as -> by lia.
  assert ((b + 256 * from_bytes h) / 256 = from_bytes h) as -> by lia.
  by rewrite IH.
Qed.

Lemma slice_take a (n : nat) s e :
  0 ≤ s → e ≤ Z.of_nat n → slice (take n a) s e = slice a s e.
Proof.
  intros Hs He. unfold slice.
  destruct (decide (s ≤ e)).
  - rewrite !take_drop_commute, take_take. f_equal. f_equal. lia.
  - replace (Z.to_nat (e - s)) with 0%nat by lia. done.
Qed.

Lemma slice_ge_nil a s e : e ≤ s → slice a s e = [].
Proof. intros H. unfold slice. by replace (Z.to_nat (e - s)) with 0%nat by lia. Qed.

Lemma slice_split a s m e :
  0 ≤ s → s ≤ m → m ≤ e → slice a s e = slice a s m ++ slice a m e.
Proof.
  intros H0 H1 H2. unfold slice.
  replace (Z.to_nat (e - s)) with (Z.to_nat (m - s) + Z.to_nat (e - m))%nat by lia.
  rewrite <- take_take_drop, drop_drop. do 3 f_equal. lia.
Qed.

Lemma len_slice a s e :
  0 ≤ s → s ≤ e → e ≤ len a → len (slice a s e) = e - s.
Proof. intros. unfold slice, len in *. rewrite length_take, length_drop. lia. Qed.

(** [parse_frame] looks at no bit at or beyond its budget. *)
Lemma parse_frame_prefix magic_bits b1 b2 limit :
  take (Z.to_nat limit) b1 = take (Z.to_nat limit) b2 →
  parse_frame magic_bits b1 limit = parse_frame magic_bits b2 limit.
Proof.
  intros Ht. unfold parse_frame. cbv zeta.
  pose proof (len_nonneg magic_bits) as Hm.
  destruct (limit <? len magic_bits + 32) eqn:E1; [done|].
  assert (∀ s e, 0 ≤ s → e ≤ limit → slice b1 s e = slice b2 s e) as Hs.
  { intros s e Hs He.
    rewrite <- (slice_take b1 (Z.to_nat limit)), <- (slice_take b2 (Z.to_nat limit)) by lia.
    by rewrite Ht. }
  rewrite !(Hs 0 (len magic_bits)), !(Hs (len magic_bits) (len magic_bits + 32)) by lia.
  destruct (negb _); [done|].
  destruct (_bytes_from_bits _) as [header|err]; [|done]. cbn [result_bind].
  destruct (limit <? len magic_bits + 32 + from_bytes header * 8) eqn:E2; [done|].
  apply f_equal, Hs; lia.
Qed.

(** ** Parsing a frame *)

Lemma len_magic_bits magic : length magic = 4%nat → len (_bits_from_bytes magic) = 32.
Proof. intros H. rewrite len_bits_from_bytes. unfold len. lia. Qed.

Lemma slice_app_mid_len (a b c : list Z) n :
  len b = n → slice (a ++ b ++ c) (len a) (len a + n) = b.
Proof. intros <-. apply slice_app_mid. Qed.

(** Parsing bits that begin with a frame: the budget alone decides. *)
Lemma parse_frame_of_frame magic payload rest limit :
  length magic = 4%nat → Forall is_byte payload → len payload < 2 ^ 32 →
  parse_frame (_bits_from_bytes magic) (_bits_from_bytes (frame magic payload) ++ rest) limit
  = if limit <? 64 then Error TruncatedHeader
    else if limit <? framed_bit_count payload then Error TruncatedPayload
    else OK payload.
Proof.
  intros Hm Hp Hlen. pose proof (len_nonneg payload) as Hlp.
  pose proof (len_magic_bits magic Hm) as Hmb.
  assert (len (_bits_from_bytes (little_endian (len payload) 4)) = 32) as Hhb
    by (rewrite len_bits_from_bytes; unfold len; rewrite length_little_endian; lia).
  unfold parse_frame, framed_bit_count. cbv zeta.
  rewrite frame_bits_split, <- !app_assoc.
  rewrite slice_app_l, (slice_app_mid_len _ _ _ 32) by done.
  rewrite Hmb. change (32 + 32) with 64.
  destruct (limit <? 64) eqn:E1; [done|].
  unfold array_equal. rewrite bool_decide_eq_true_2 by done. cbn [negb].
  rewrite bytes_from_bits_from_bytes by apply little_endian_bytes. cbn [result_bind].
  rewrite from_bytes_little_endian by (change (256 ^ Z.of_nat 4) with (2 ^ 32); lia).
  replace (64 + len payload * 8) with (64 + 8 * len payload) by lia.
  destruct (limit <? 64 + 8 * len payload) eqn:E2; [done|].
  rewrite (app_assoc (_bits_from_bytes magic)).
  rewrite slice_app_skip by (unfold len in *; rewrite length_app; lia).
  match goal with |- _ (slice _ ?a ?b) = _ =>
    replace a with 0 by (unfold len in *; rewrite length_app; lia);
    replace b with (len (_bits_from_bytes payload))
      by (rewrite len_bits_from_bytes; unfold len in *; rewrite length_app; lia)
  end.
  rewrite slice_app_l. by apply bytes_from_bits_from_bytes.
Qed.

Lemma Forall_slice (P : Z → Prop) a s e : Forall P a → Forall P (slice a s e).
Proof. intros H. unfold slice. by apply Forall_take, Forall_drop. Qed.

(** The converse: a successful parse shows a frame at the head of the bits. *)
Lemma parse_frame_ok_inv magic bits limit p :
  length magic = 4%nat → Forall is_bit bits → limit ≤ len bits →
  parse_frame (_bits_from_bytes magic) bits limit = OK p →
  Forall is_byte p ∧ len p < 2 ^ 32 ∧ framed_bit_count p ≤ limit ∧
  take (Z.to_nat (framed_bit_count p)) bits = _bits_from_bytes (frame magic p).
Proof.
  intros Hm Hb Hlim. pose proof (len_magic_bits magic Hm) as Hmb.
  unfold parse_frame. cbv zeta. rewrite Hmb. change (32 + 32) with 64.
  destruct (limit <? 64) eqn:E1; [done|].
  unfold array_equal. case_bool_decide as Hmagic; [|done]. cbn [negb].
  destruct (_bytes_from_bits (slice bits 32 64)) as [header|err] eqn:Hh; [|done].
  cbn [result_bind].
  destruct (limit <? 64 + from_bytes header * 8) eqn:E2; [done|].
  intros Hp.
  apply bytes_from_bits_inv in Hh as (Hhb & Hhl & Hhu).
  apply bytes_from_bits_inv in Hp as (Hpb & Hpl & Hpu).
  rewrite fmap_bit_of_bits in Hhu, Hpu by by apply Forall_slice.
  rewrite len_slice in Hhl by lia.
  assert (length header = 4%nat) as Hh4 by (unfold len in Hhl; lia).
  pose proof (from_bytes_bound header Hhb) as Hfb.
  unfold len in Hfb at 1. rewrite Hh4 in Hfb. change (256 ^ Z.of_nat 4) with (2 ^ 32) in Hfb.
  rewrite len_slice in Hpl by lia.
  assert (from_bytes header = len p) as Hlp by lia.
  assert (little_endian (len p) 4 = header) as Hle
    by (rewrite <- Hlp, <- Hh4; by apply little_endian_from_bytes).
  unfold framed_bit_count.
  split; [done|]. split; [lia|]. split; [lia|].
  rewrite frame_bits_split, Hle, Hhu, Hpu, <- Hmagic, <- slice_0.
  rewrite Hlp.
  rewrite (slice_split bits 0 32 (32 + 32 + 8 * len p)) by lia.
  rewrite (slice_split bits 32 64 (32 + 32 + 8 * len p)) by lia.
  do 3 f_equal. lia.
Qed.

(** Exactly the images whose first bits are a frame within the budget decode,
    and they decode to that frame's payload. *)
Lemma parse_frame_ok_iff magic bits limit p :
  length magic = 4%nat → Forall is_bit bits → limit ≤ len bits →
  (parse_frame (_bits_from_bytes magic) bits limit = OK p
   ↔ Forall is_byte p ∧ len p < 2 ^ 32 ∧ framed_bit_count p ≤ limit ∧
     take (Z.to_nat (framed_bit_count p)) bits = _bits_from_bytes (frame magic p)).
Proof.
  intros Hm Hb Hlim. split; [by apply parse_frame_ok_inv|].
  intros (Hp & Hlen & Hf & Ht). pose proof (len_nonneg p) as Hlp.
  rewrite <- (take_drop (Z.to_nat (framed_bit_count p)) bits), Ht.
  rewrite parse_frame_of_frame by done. unfold framed_bit_count in *.
  destruct (limit <? 64) eqn:E1; [lia|].
  destruct (limit <? 32 + 32 + 8 * len p) eqn:E2; [lia|done].
Qed.

Lemma extract_outcome_store decode path rate fs :
  (extract_outcome decode path rate fs).1 = fs.
Proof.
  unfold extract_outcome. destruct (negb _); [done|].
  by destruct (fs !! path) as [[flat|]|].
Qed.

(** X2 (extraction is read-only).  Whatever the path, the rate and the
    store, none of the three [extract] functions changes the store: the
    store it returns is the one it was given, on success and on every
    failure. *)
Theorem extract_read_only (image_path : string) (rate : Q) (fs : gmap string file) :
  (lsb_replacement.extract image_path rate fs).1 = fs ∧
  (lsb_matching.extract image_path rate fs).1 = fs ∧
  (hamming_code.extract image_path rate fs).1 = fs.
Proof.
  rewrite lsbr_extract_common, lsbm_extract_common, !lsb_extract_outcome,
    hamming_extract_outcome.
  repeat split; apply extract_outcome_store.
Qed.

(** ** The samples an engine writes *)

(** What LSB replacement writes at one sample. *)
Lemma lsbr_write_lookup flat bits (i : nat) x :
  len bits ≤ len flat → flat !! i = Some x →
  lsbr_write flat bits !! i
  = Some (match bits !! i with
          | Some b => Z.lor (Z.land x 0xFE) b
          | None => x
          end).
Proof.
  intros Hle Hx. unfold lsbr_write, len in *.
  assert (length (zip_with Z.lor ((λ x, Z.land x 254) <$> take (length bits) flat) bits)
          = length bits) as Hz
    by (rewrite length_zip_with, length_fmap, length_take; lia).
  destruct (bits !! i) as [b|] eqn:Eb.
  - assert (i < length bits)%nat as Hi by by apply lookup_lt_Some in Eb.
    rewrite lookup_app_l by lia.
    rewrite lookup_zip_with, list_lookup_fmap, lookup_take_lt, Hx, Eb by done. done.
  - apply lookup_ge_None in Eb.
    rewrite lookup_app_r by lia. rewrite Hz, lookup_drop.
    replace (length bits + (i - length bits))%nat with i by lia. done.
Qed.

Lemma replace_bit0_table :
  forallb (λ x, forallb (λ b,
      let y := Z.lor (Z.land x 0xFE) b in
      (0 <=? y) && (y <? 256) && (Z.shiftr y 1 =? Z.shiftr x 1)
      && (-1 <=? y - x) && (y - x <=? 1)
      && ((negb (lsb x =? b)) || (y =? x))) [0; 1]) (seqZ 0 256) = true.
Proof. vm_compute. reflexivity. Qed.

Lemma replace_bit0_byte x b :
  is_byte x → is_bit b →
  let y := Z.lor (Z.land x 0xFE) b in
  is_byte y ∧ Z.shiftr y 1 = Z.shiftr x 1 ∧ -1 ≤ y - x ≤ 1 ∧ (lsb x = b → y = x).
Proof.
  intros Hx Hb y. pose proof replace_bit0_table as T.
  rewrite forallb_forall in T.
  specialize (T x). rewrite forallb_forall in T.
  assert (In x (seqZ 0 256)) as Hin
    by (apply list_elem_of_In, elem_of_seqZ; unfold is_byte in Hx; lia).
  assert (In b [0; 1]) as Hinb by (destruct Hb as [-> | ->]; simpl; auto).
  specialize (T Hin b Hinb). cbv zeta in T. fold y in T.
  repeat (apply andb_prop in T as [T ?]).
  unfold is_byte. repeat split; lia.
Qed.

Lemma lxor_1_table :
  forallb (λ x, let y := Z.lxor x 1 in
                (0 <=? y) && (y <? 256) && ((y =? x + 1) || (y =? x - 1)))
    (seqZ 0 256) = true.
Proof. vm_compute. reflexivity. Qed.

Lemma lxor_1_byte x :
  is_byte x → is_byte (Z.lxor x 1) ∧ (Z.lxor x 1 = x + 1 ∨ Z.lxor x 1 = x - 1).
Proof.
  intros Hx. pose proof lxor_1_table as T. rewrite forallb_forall in T.
  specialize (T x). cbv zeta in T.
  assert (In x (seqZ 0 256)) as Hin
    by (apply list_elem_of_In, elem_of_seqZ; unfold is_byte in Hx; lia).
  specialize (T Hin). repeat (apply andb_prop in T as [T ?]).
  unfold is_byte. split; lia.
Qed.

(** What one embedding step does, sample by sample. *)
Lemma flip_for_lookup a k m :
  0 ≤ k → k * 15 + 15 ≤ len a → is_nibble m →
  ∃ p : nat, ∀ (i : nat) x, a !! i = Some x →
    flip_for a k m !! i = Some x ∨
    (i = p ∧ k * 15 ≤ Z.of_nat i < k * 15 + 15 ∧ flip_for a k m !! i = Some (Z.lxor x 1)).
Proof.
  intros Hk Hl Hm. pose proof (diff_value_range a (k * 15) m Hm) as Hv.
  unfold flip_for. cbv zeta.
  set (v := nibble_value _) in *.
  destruct (v =? 0) eqn:Ev.
  - exists 0%nat. intros i x Hx. by left.
  - apply Z.eqb_neq in Ev. exists (Z.to_nat (k * 15 + (v - 1))).
    intros i x Hx.
    destruct (decide (i = Z.to_nat (k * 15 + (v - 1)))) as [->|Hne].
    + right. split; [done|]. split; [lia|].
      rewrite list_lookup_insert_eq by (apply lookup_lt_Some in Hx; done).
      f_equal. f_equal. by apply list_lookup_total_correct.
    + left. by rewrite list_lookup_insert_ne.
Qed.

(** The loop changes at most one sample in each block, and only by
    inverting its bit 0. *)
Lemma embed_loop_sparse ub nibbles : ∀ k a a',
  0 ≤ k → (k + len nibbles) * 15 ≤ len a → k + len nibbles ≤ ub →
  Forall is_nibble nibbles →
  hamming_code.embed_loop ub k nibbles a = OK a' →
  ∀ j : Z, ∃ p : nat, ∀ (i : nat) x,
    j * 15 ≤ Z.of_nat i < j * 15 + 15 → a !! i = Some x →
    a' !! i = Some x ∨ (i = p ∧ a' !! i = Some (Z.lxor x 1)).
Proof.
  induction nibbles as [|m nibbles IH]; intros k a a' Hk Hl Hub Hn Hloop j.
  - injection Hloop as <-. exists 0%nat. intros. by left.
  - apply Forall_cons in Hn as [Hm Hn].
    assert (len (m :: nibbles) = len nibbles + 1) as Hlen by (unfold len; simpl; lia).
    rewrite Hlen in *. pose proof (len_nonneg nibbles) as Hnn.
    cbn [hamming_code.embed_loop] in Hloop.
    destruct (ub <=? k) eqn:E; [lia|]. clear E.
    rewrite embed_block_eq in Hloop by lia. cbn [result_bind] in Hloop.
    destruct (embed_loop_spec ub nibbles (k + 1) (flip_for a k m))
      as (a'' & Ha'' & _ & Hout & _);
      [lia | unfold len in *; rewrite length_flip_for; lia | lia | done |].
    rewrite Ha'' in Hloop. injection Hloop as ->.
    destruct (decide (j = k)) as [->|Hj].
    + destruct (flip_for_lookup a k m) as [p Hp]; [lia..|done|].
      exists p. intros i x Hi Hx. rewrite Hout by lia.
      destruct (Hp i x Hx) as [?|(? & _ & ?)]; [by left|by right].
    + destruct (IH (k + 1) (flip_for a k m) a'
                  ltac:(lia)
                  ltac:(unfold len in *; rewrite length_flip_for; lia)
                  ltac:(lia) Hn Ha'' j) as [p Hp].
      exists p. intros i x Hi Hx. apply (Hp i x Hi).
      rewrite flip_for_outside by (done || lia). done.
Qed.

Lemma embed_success rng fs fs' path out (carrier payload : list Z) rate :
  fs !! path = Some (Bmp carrier) →
  lsb_replacement.embed path payload rate out fs = (fs', OK ()) ∨
  lsb_matching.embed rng path payload rate out fs = (fs', OK ()) ∨
  hamming_code.embed path payload rate out fs = (fs', OK ()) →
  rate_in_closed_unit rate = true ∧ len payload < 2 ^ 32 ∧
  ∃ stego, fs' = <[out := Bmp stego]> fs ∧ wrote rng carrier payload rate stego.
Proof.
  intros Hfs [H | [H | H]].
  - rewrite lsbr_embed_outcome in H.
    apply embed_outcome_ok in H as (flat & Hfs' & Hr & Hlen & Hcap & ->).
    rewrite Hfs in Hfs'. injection Hfs' as <-.
    split; [done|]. split; [done|]. eexists. split; [done|]. by apply wrote_lsbr.
  - rewrite lsbm_embed_outcome in H.
    apply embed_outcome_ok in H as (flat & Hfs' & Hr & Hlen & Hcap & ->).
    rewrite Hfs in Hfs'. injection Hfs' as <-.
    split; [done|]. split; [done|]. eexists. split; [done|]. by apply wrote_lsbm.
  - rewrite hamm_embed_outcome in H.
    apply embed_outcome_ok in H as (flat & Hfs' & Hr & Hlen & Hcap & ->).
    rewrite Hfs in Hfs'. injection Hfs' as <-.
    split; [done|]. split; [done|]. eexists. split; [done|]. by apply wrote_hamm.
Qed.

Lemma frame_fits_carrier magic (carrier payload : list Z) rate :
  length magic = 4%nat → rate_in_closed_unit rate = true →
  framed_bit_count payload ≤ lsb_capacity carrier rate →
  len (_bits_from_bytes (frame magic payload)) ≤ len carrier.
Proof.
  intros Hm Hr Hcap. rewrite (len_frame_bits _ payload Hm).
  pose proof (scale_bounds (len carrier) rate Hr (len_nonneg _)).
  unfold lsb_capacity in Hcap. lia.
Qed.

Lemma frame_bit_lookup magic payload (i : nat) b :
  _bits_from_bytes (frame magic payload) !! i = Some b → is_bit b.
Proof. intros H. eapply Forall_lookup_1; [apply bits_from_bytes_bits|exact H]. Qed.

(** Every sample an engine writes is a [uint8] within one of the sample it
    replaces. *)
Lemma wrote_sample rng (carrier payload : list Z) rate stego (i : nat) x :
  rate_in_closed_unit rate = true →
  wrote rng carrier payload rate stego →
  carrier !! i = Some x → is_byte x →
  ∃ y, stego !! i = Some y ∧ is_byte y ∧ -1 ≤ y - x ≤ 1.
Proof.
  intros Hr Hw Hx Hbx. destruct Hw as [Hcap | Hcap | Hcap].
  - pose proof (frame_fits_carrier _ _ _ _ lsbr_magic_length Hr Hcap) as Hle.
    rewrite (lsbr_write_lookup _ _ i x Hle Hx). eexists. split; [done|].
    destruct (_bits_from_bytes _ !! i) as [b|] eqn:Eb; [|split; [done|lia]].
    apply frame_bit_lookup in Eb.
    destruct (replace_bit0_byte x b Hbx Eb) as (? & _ & ? & _). done.
  - pose proof (frame_fits_carrier _ _ _ _ lsbm_magic_length Hr Hcap) as Hle.
    destruct (lsbm_write_lookup rng _ _ i x Hle Hx) as [plus ->].
    eexists. split; [done|].
    destruct (_bits_from_bytes _ !! i) as [b|] eqn:Eb; [|split; [done|lia]].
    destruct (lsb x =? b); [split; [done|lia]|].
    destruct (match_byte_step x plus Hbx) as [Hs Hb]. split; [done|lia].
  - destruct (hamm_embed_loop_ok carrier payload rate Hr Hcap) as (Hloop & _).
    cbv zeta in Hloop.
    destruct (hamm_frame_nibbles payload) as (_ & Hl & Hn). cbv zeta in Hl, Hn.
    destruct (usable_blocks_fit carrier rate Hr) as [Hub0 Hub].
    unfold hamming_capacity, hamming_usable_blocks in *.
    set (nibbles := rows4 _) in *.
    assert ((0 + len nibbles) * 15 ≤ len carrier) as H1 by lia.
    assert (0 + len nibbles ≤ scale (len carrier / 15) rate) as H2 by lia.
    destruct (embed_loop_sparse _ _ 0 carrier _ (Z.le_refl 0) H1 H2 Hn Hloop
                (Z.of_nat i / 15)) as [p Hp].
    pose proof (Z.div_mod (Z.of_nat i) 15 ltac:(lia)).
    pose proof (Z.mod_pos_bound (Z.of_nat i) 15 ltac:(lia)).
    destruct (Hp i x ltac:(lia) Hx) as [Hy | [_ Hy]].
    + eexists. split; [exact Hy|]. split; [done|lia].
    + eexists. split; [exact Hy|]. destruct (lxor_1_byte x Hbx). split; [done|lia].
Qed.

Lemma wrote_length rng (carrier payload : list Z) rate stego :
  rate_in_closed_unit rate = true →
  wrote rng carrier payload rate stego →
  length stego = length carrier.
Proof.
  intros Hr [Hcap | Hcap | Hcap].
  - apply length_lsbr_write. by apply (frame_fits_carrier _ _ _ rate).
  - apply length_lsbm_write.
  - by destruct (hamm_embed_loop_ok carrier payload rate Hr Hcap) as (_ & ? & _).
Qed.

(** X3 (what a successful [embed] writes).  When the [embed] of any engine
    succeeds on a carrier of [uint8] samples, the store it returns is the
    input store with exactly one entry set, the one at [out_path]; the image
    there has as many samples as the carrier, all of them in [0, 255]. *)
Theorem embed_writes_one_image (rng : nat → bool) fs fs' image_path out_path
    (carrier payload : list Z) (rate : Q) :
  fs !! image_path = Some (Bmp carrier) →
  Forall is_byte carrier →
  lsb_replacement.embed image_path payload rate out_path fs = (fs', OK ()) ∨
  lsb_matching.embed rng image_path payload rate out_path fs = (fs', OK ()) ∨
  hamming_code.embed image_path payload rate out_path fs = (fs', OK ()) →
  ∃ stego,
    fs' = <[out_path := Bmp stego]> fs ∧
    length stego = length carrier ∧
    Forall is_byte stego.
Proof.
  intros Hfs Hc Hemb.
  destruct (embed_success rng _ _ _ _ _ _ _ Hfs Hemb) as (Hr & Hlen & stego & -> & Hw).
  exists stego. split; [done|].
  pose proof (wrote_length _ _ _ _ _ Hr Hw) as Hl. split; [done|].
  apply Forall_lookup_2. intros i y Hy.
  destruct (lookup_lt_is_Some_2 carrier i) as [x Hx];
    [rewrite <- Hl; by apply lookup_lt_Some in Hy|].
  destruct (wrote_sample _ _ _ _ _ i x Hr Hw Hx) as (y' & Hy' & Hb & _);
    [by eapply Forall_lookup_1 in Hc|].
  congruence.
Qed.

(** X4 (distortion bound).  After the successful [embed] of any engine on a
    carrier of [uint8] samples, every sample of the written image differs
    from the carrier's sample at the same index by at most 1. *)
Theorem embed_distortion_at_most_one (rng : nat → bool) fs fs' image_path out_path
    (carrier payload : list Z) (rate : Q) :
  fs !! image_path = Some (Bmp carrier) →
  Forall is_byte carrier →
  lsb_replacement.embed image_path payload rate out_path fs = (fs', OK ()) ∨
  lsb_matching.embed rng image_path payload rate out_path fs = (fs', OK ()) ∨
  hamming_code.embed image_path payload rate out_path fs = (fs', OK ()) →
  ∃ stego,
    fs' !! out_path = Some (Bmp stego) ∧
    ∀ (i : nat) x y, carrier !! i = Some x → stego !! i = Some y → -1 ≤ y - x ≤ 1.
Proof.
  intros Hfs Hc Hemb.
  destruct (embed_success rng _ _ _ _ _ _ _ Hfs Hemb) as (Hr & Hlen & stego & -> & Hw).
  exists stego. split; [apply lookup_insert_eq|].
  intros i x y Hx Hy.
  destruct (wrote_sample _ _ _ _ _ i x Hr Hw Hx) as (y' & Hy' & _ & Hd);
    [by eapply Forall_lookup_1 in Hc|].
  congruence.
Qed.

(** X5 (LSB replacement touches bit 0 only).  After a successful LSB
    replacement [embed], a sample inside the frame has the frame bit as its
    bit 0 and keeps its seven upper bits ([y >> 1 = x >> 1]); a sample after
    the frame is unchanged. *)
Theorem lsbr_touches_bit0_only fs fs' image_path out_path
    (carrier payload : list Z) (rate : Q) :
  fs !! image_path = Some (Bmp carrier) →
  Forall is_byte carrier →
  lsb_replacement.embed image_path payload rate out_path fs = (fs', OK ()) →
  ∃ stego,
    fs' !! out_path = Some (Bmp stego) ∧
    ∀ (i : nat) x, carrier !! i = Some x →
      ∃ y, stego !! i = Some y ∧
        match _bits_from_bytes (frame lsb_replacement._MAGIC payload) !! i with
        | Some target => lsb y = target ∧ Z.shiftr y 1 = Z.shiftr x 1
        | None => y = x
        end.
Proof.
  intros Hfs Hc Hemb. rewrite lsbr_embed_outcome in Hemb.
  apply embed_outcome_ok in Hemb as (flat & Hfs' & Hr & Hlen & Hcap & ->).
  rewrite Hfs in Hfs'. injection Hfs' as <-.
  eexists. split; [apply lookup_insert_eq|]. intros i x Hx.
  pose proof (frame_fits_carrier _ _ _ _ lsbr_magic_length Hr Hcap) as Hle.
  rewrite (lsbr_write_lookup _ _ i x Hle Hx). eexists. split; [done|].
  destruct (_bits_from_bytes _ !! i) as [b|] eqn:Eb; [|done].
  apply frame_bit_lookup in Eb. split; [by apply lsb_replace|].
  assert (is_byte x) as Hbx by by eapply Forall_lookup_1 in Hc.
  by destruct (replace_bit0_byte x b Hbx Eb) as (_ & ? & _).
Qed.


Lemma embed_outcome_run too_large cap write path (payload : list Z) rate out fs flat :
  fs !! path = Some (Bmp flat) → rate_in_closed_unit rate = true →
  len payload < 2 ^ 32 → framed_bit_count payload ≤ cap flat →
  embed_outcome too_large cap write path payload rate out fs
  = (<[out := Bmp (write flat)]> fs, OK ()).
Proof.
  intros Hfs Hr Hlen Hcap. unfold embed_outcome. rewrite Hr, Hfs. cbn [negb].
  destruct (2 ^ 32 <=? len payload) eqn:E1; [lia|].
  destruct (cap flat <? framed_bit_count payload) eqn:E2; [lia|done].
Qed.

Lemma extract_outcome_run decode path rate fs flat :
  fs !! path = Some (Bmp flat) → rate_in_half_open_unit rate = true →
  extract_outcome decode path rate fs = (fs, decode flat).
Proof. intros Hfs Hr. unfold extract_outcome. by rewrite Hr, Hfs. Qed.

Lemma lsb_capacity_length (a b : list Z) rate :
  length a = length b → lsb_capacity a rate = lsb_capacity b rate.
Proof. intros H. unfold lsb_capacity, len. by rewrite H. Qed.

Lemma hamming_usable_blocks_length (a b : list Z) rate :
  length a = length b → hamming_usable_blocks a rate = hamming_usable_blocks b rate.
Proof. intros H. unfold hamming_usable_blocks, len. by rewrite H. Qed.

(** ** Embedding twice *)

Lemma lsbr_write_fixed flat bits :
  len bits ≤ len flat → Forall is_byte flat → Forall is_bit bits →
  lsb <$> take (length bits) flat = bits →
  lsbr_write flat bits = flat.
Proof.
  intros Hle Hf Hb Heq. apply list_eq. intros i.
  destruct (flat !! i) as [x|] eqn:Ex.
  - rewrite (lsbr_write_lookup _ _ i x Hle Ex). f_equal.
    destruct (bits !! i) as [b|] eqn:Eb; [|done].
    assert (lsb x = b) as Hxb.
    { pose proof (lookup_lt_Some _ _ _ Eb) as Hi.
      rewrite <- Heq in Eb. rewrite list_lookup_fmap in Eb.
      rewrite lookup_take_lt in Eb by done.
      rewrite Ex in Eb. by injection Eb. }
    assert (is_byte x) as Hbx by by eapply Forall_lookup_1 in Hf.
    assert (is_bit b) as Hbb by by eapply Forall_lookup_1 in Hb.
    destruct (replace_bit0_byte x b Hbx Hbb) as (_ & _ & _ & Hfix). by apply Hfix.
  - apply lookup_ge_None. rewrite length_lsbr_write by done. by apply lookup_ge_None.
Qed.

Lemma lsbm_write_fixed rng flat bits :
  len bits ≤ len flat →
  lsb <$> take (length bits) flat = bits →
  lsbm_write rng flat bits = flat.
Proof.
  intros Hle Heq. apply list_eq. intros i.
  destruct (flat !! i) as [x|] eqn:Ex.
  - destruct (lsbm_write_lookup rng _ _ i x Hle Ex) as [plus ->]. f_equal.
    destruct (bits !! i) as [b|] eqn:Eb; [|done].
    assert (lsb x = b) as Hxb.
    { pose proof (lookup_lt_Some _ _ _ Eb) as Hi.
      rewrite <- Heq in Eb. rewrite list_lookup_fmap in Eb.
      rewrite lookup_take_lt in Eb by done.
      rewrite Ex in Eb. by injection Eb. }
    by rewrite Hxb, Z.eqb_refl.
  - apply lookup_ge_None. rewrite length_lsbm_write. by apply lookup_ge_None.
Qed.

Lemma flip_for_fixed a k m :
  checks (cover_bits a (k * 15)) = m → flip_for a k m = a.
Proof.
  intros <-. unfold flip_for. cbv zeta.
  set (s := checks _).
  assert (nibble_value (zip_with Z.lxor s s) = 0) as ->
    by (apply diff_value_zero_iff; (done || apply checks_nibble)).
  done.
Qed.

Lemma embed_loop_fixed ub nibbles : ∀ k a,
  0 ≤ k → (k + len nibbles) * 15 ≤ len a →
  (∀ (j : nat) m, nibbles !! j = Some m →
                  checks (cover_bits a ((k + Z.of_nat j) * 15)) = m) →
  hamming_code.embed_loop ub k nibbles a = OK a.
Proof.
  induction nibbles as [|m nibbles IH]; intros k a Hk Hl Hsyn; [done|].
  assert (len (m :: nibbles) = len nibbles + 1) as Hlen by (unfold len; simpl; lia).
  rewrite Hlen in *. pose proof (len_nonneg nibbles) as Hnn.
  cbn [hamming_code.embed_loop]. destruct (ub <=? k); [done|].
  rewrite embed_block_eq by lia. cbn [result_bind].
  rewrite flip_for_fixed.
  2:{ specialize (Hsyn 0%nat m eq_refl). by rewrite Z.add_0_r in Hsyn. }
  apply IH; [lia|lia|].
  intros j m' Hj. replace (k + 1 + Z.of_nat j) with (k + Z.of_nat (S j)) by lia.
  by apply Hsyn.
Qed.

Lemma hamm_write_fixed (flat payload : list Z) rate :
  rate_in_closed_unit rate = true →
  framed_bit_count payload ≤ hamming_capacity flat rate →
  let bits := _bits_from_bytes (frame hamming_code._MAGIC payload) in
  let stego := hamm_write (hamming_usable_blocks flat rate) flat bits in
  hamm_write (hamming_usable_blocks flat rate) stego bits = stego.
Proof.
  intros Hr Hcap bits stego.
  destruct (hamm_frame_nibbles payload) as (_ & Hnl & Hn). fold bits in Hnl, Hn.
  destruct (usable_blocks_fit flat rate Hr) as [Hub0 Hub].
  unfold hamming_capacity, hamming_usable_blocks in *.
  destruct (embed_loop_spec (scale (len flat / 15) rate) (rows4 bits) 0 flat)
    as (a' & Ha' & Hlen & _ & Hin); [lia | lia | lia | done |].
  assert (stego = a') as -> by (unfold stego, hamm_write; by rewrite Ha').
  unfold hamm_write at 1. rewrite embed_loop_fixed; [done|lia| |done].
  unfold len in *. rewrite Hlen. lia.
Qed.

(** X7 (embedding again changes nothing).  When [embed] has written an image,
    embedding the same payload at the same rate into that image succeeds and
    writes the very same samples: the frame is already in place.  For LSB
    matching this holds whatever the polarity draws of the second run
    are. *)
Theorem embed_again_changes_nothing (rng rng' : nat → bool) fs fs'
    image_path out_path again_path (carrier payload : list Z) (rate : Q) :
  fs !! image_path = Some (Bmp carrier) →
  Forall is_byte carrier →
  (lsb_replacement.embed image_path payload rate out_path fs = (fs', OK ()) →
   ∃ stego, fs' !! out_path = Some (Bmp stego) ∧
     lsb_replacement.embed out_path payload rate again_path fs'
     = (<[again_path := Bmp stego]> fs', OK ())) ∧
  (lsb_matching.embed rng image_path payload rate out_path fs = (fs', OK ()) →
   ∃ stego, fs' !! out_path = Some (Bmp stego) ∧
     lsb_matching.embed rng' out_path payload rate again_path fs'
     = (<[again_path := Bmp stego]> fs', OK ())) ∧
  (hamming_code.embed image_path payload rate out_path fs = (fs', OK ()) →
   ∃ stego, fs' !! out_path = Some (Bmp stego) ∧
     hamming_code.embed out_path payload rate again_path fs'
     = (<[again_path := Bmp stego]> fs', OK ())).
Proof.
  intros Hfs Hc. split; [|split]; intros Hemb.
  - rewrite lsbr_embed_outcome in Hemb.
    apply embed_outcome_ok in Hemb as (flat & Hfs' & Hr & Hlen & Hcap & ->).
    rewrite Hfs in Hfs'. injection Hfs' as <-.
    set (bits := _bits_from_bytes _) in *.
    pose proof (frame_fits_carrier _ _ _ _ lsbr_magic_length Hr Hcap) as Hle.
    fold bits in Hle.
    assert (length (lsbr_write carrier bits) = length carrier) as Hl
      by by apply length_lsbr_write.
    exists (lsbr_write carrier bits). split; [apply lookup_insert_eq|].
    rewrite lsbr_embed_outcome.
    rewrite (embed_outcome_run _ _ _ _ _ _ _ _ (lsbr_write carrier bits));
      [|apply lookup_insert_eq|done|done|by rewrite (lsb_capacity_length _ carrier)].
    fold bits. rewrite lsbr_write_fixed; [done| | | |].
    + unfold len in *. lia.
    + apply Forall_lookup_2. intros i y Hy.
      destruct (lookup_lt_is_Some_2 carrier i) as [x Hx];
        [rewrite <- Hl; by apply lookup_lt_Some in Hy|].
      destruct (wrote_sample rng carrier payload rate _ i x Hr
                  (wrote_lsbr _ _ _ _ Hcap) Hx) as (y' & Hy' & Hb & _);
        [by eapply Forall_lookup_1 in Hc|].
      fold bits in Hy'. congruence.
    + apply bits_from_bytes_bits.
    + rewrite fmap_take, lsb_lsbr_write by (done || apply bits_from_bytes_bits).
      by rewrite take_app_length.
  - rewrite lsbm_embed_outcome in Hemb.
    apply embed_outcome_ok in Hemb as (flat & Hfs' & Hr & Hlen & Hcap & ->).
    rewrite Hfs in Hfs'. injection Hfs' as <-.
    set (bits := _bits_from_bytes _) in *.
    pose proof (frame_fits_carrier _ _ _ _ lsbm_magic_length Hr Hcap) as Hle.
    fold bits in Hle.
    pose proof (length_lsbm_write rng carrier bits) as Hl.
    exists (lsbm_write rng carrier bits). split; [apply lookup_insert_eq|].
    rewrite lsbm_embed_outcome.
    rewrite (embed_outcome_run _ _ _ _ _ _ _ _ (lsbm_write rng carrier bits));
      [|apply lookup_insert_eq|done|done|by rewrite (lsb_capacity_length _ carrier)].
    fold bits. rewrite lsbm_write_fixed; [done| |].
    + unfold len in *. lia.
    + rewrite fmap_take, lsb_lsbm_write by (done || apply bits_from_bytes_bits).
      by rewrite take_app_length.
  - rewrite hamm_embed_outcome in Hemb.
    apply embed_outcome_ok in Hemb as (flat & Hfs' & Hr & Hlen & Hcap & ->).
    rewrite Hfs in Hfs'. injection Hfs' as <-.
    set (bits := _bits_from_bytes _) in *.
    destruct (hamm_embed_loop_ok carrier payload rate Hr Hcap) as (_ & Hl & _).
    cbv zeta in Hl. fold bits in Hl.
    set (stego := hamm_write _ _ _) in *.
    exists stego. split; [apply lookup_insert_eq|].
    rewrite hamm_embed_outcome.
    rewrite (embed_outcome_run _ _ _ _ _ _ _ _ stego);
      [|apply lookup_insert_eq|done|done|].
    2:{ unfold hamming_capacity. by rewrite (hamming_usable_blocks_length _ carrier). }
    cbv beta. fold bits. rewrite (hamming_usable_blocks_length stego carrier) by done.
    pose proof (hamm_write_fixed carrier payload rate Hr Hcap) as Hfix.
    cbv zeta in Hfix. fold bits in Hfix. fold stego in Hfix. by rewrite Hfix.
Qed.

(** ** Reading a written image back *)

Lemma block_syndromes_take flat n t :
  0 ≤ n → n ≤ t →
  block_syndromes flat (seqZ 0 n)
  = take (Z.to_nat (4 * n)) (block_syndromes flat (seqZ 0 t)).
Proof.
  intros Hn Ht. replace t with (n + (t - n)) by lia.
  rewrite seqZ_app by lia. unfold block_syndromes.
  rewrite fmap_app, concat_app.
  rewrite take_app_length'; [done|].
  pose proof (length_concat_checks flat (seqZ 0 n)) as Hl.
  unfold block_syndromes in Hl. rewrite Hl, length_seqZ. lia.
Qed.

(** The syndromes of all blocks of a carrier Hamming [embed] wrote. *)
Lemma hamm_write_syndromes (carrier payload : list Z) rate :
  rate_in_closed_unit rate = true →
  framed_bit_count payload ≤ hamming_capacity carrier rate →
  let bits := _bits_from_bytes (frame hamming_code._MAGIC payload) in
  let stego := hamm_write (hamming_usable_blocks carrier rate) carrier bits in
  ∃ rest, block_syndromes stego (seqZ 0 (len carrier / 15)) = bits ++ rest.
Proof.
  intros Hr Hcap bits stego.
  destruct (hamm_embed_loop_ok carrier payload rate Hr Hcap) as (_ & _ & _ & Hsyn).
  cbv zeta in Hsyn. fold bits in Hsyn. fold stego in Hsyn.
  destruct (hamm_frame_nibbles payload) as (_ & Hnl & _). cbv zeta in Hnl. fold bits in Hnl.
  destruct (usable_blocks_fit carrier rate Hr) as [Hub0 Hub].
  pose proof (len_nonneg (rows4 bits)) as Hnn.
  unfold hamming_capacity, hamming_usable_blocks in *.
  set (nb := len (rows4 bits)) in *.
  assert (nb ≤ len carrier / 15) as Hle by (apply Z.div_le_lower_bound; lia).
  replace (len carrier / 15) with (nb + (len carrier / 15 - nb)) by lia.
  rewrite seqZ_app by lia. unfold block_syndromes in *.
  rewrite fmap_app, concat_app, Hsyn. by eexists.
Qed.

Lemma hamming_decode_eq flat rate bits rest :
  rate_in_closed_unit rate = true →
  block_syndromes flat (seqZ 0 (len flat / 15)) = bits ++ rest →
  hamming_decode rate flat
  = parse_frame hamming_code._MAGIC_BITS (bits ++ rest) (hamming_capacity flat rate).
Proof.
  intros Hr Hall. destruct (usable_blocks_fit flat rate Hr) as [Hub0 Hub].
  unfold hamming_decode, hamming_capacity, hamming_usable_blocks in *. cbv zeta.
  assert (scale (len flat / 15) rate ≤ len flat / 15) as Hle
    by (apply Z.div_le_lower_bound; lia).
  rewrite len_block_syndromes by done.
  replace (4 * scale (len flat / 15) rate) with (scale (len flat / 15) rate * 4) by lia.
  apply parse_frame_prefix.
  rewrite (block_syndromes_take flat _ (len flat / 15)) by done.
  rewrite Hall, take_take. f_equal. lia.
Qed.

Lemma lsbr_read_back fs fs' image_path out_path (carrier payload : list Z) rate rate' :
  fs !! image_path = Some (Bmp carrier) → Forall is_byte payload →
  rate_in_half_open_unit rate' = true →
  lsb_replacement.embed image_path payload rate out_path fs = (fs', OK ()) →
  lsb_replacement.extract out_path rate' fs'
  = (fs', read_back payload (lsb_capacity carrier rate')).
Proof.
  intros Hfs Hp Hr' Hemb. rewrite lsbr_embed_outcome in Hemb.
  apply embed_outcome_ok in Hemb as (flat & Hfs' & Hr & Hlen & Hcap & ->).
  rewrite Hfs in Hfs'. injection Hfs' as <-.
  pose proof (frame_fits_carrier _ _ _ _ lsbr_magic_length Hr Hcap) as Hle.
  rewrite lsbr_extract_common, lsb_extract_outcome.
  rewrite (extract_outcome_run _ _ _ _ _ (lookup_insert_eq _ _ _) Hr').
  unfold lsb_decode.
  rewrite (lsb_capacity_length _ carrier) by by apply length_lsbr_write.
  rewrite lsb_lsbr_write by (done || apply bits_from_bytes_bits).
  unfold lsb_replacement._MAGIC_BITS. by rewrite parse_frame_of_frame.
Qed.

Lemma lsbm_read_back rng fs fs' image_path out_path (carrier payload : list Z)
    rate rate' :
  fs !! image_path = Some (Bmp carrier) → Forall is_byte carrier →
  Forall is_byte payload → rate_in_half_open_unit rate' = true →
  lsb_matching.embed rng image_path payload rate out_path fs = (fs', OK ()) →
  lsb_matching.extract out_path rate' fs'
  = (fs', read_back payload (lsb_capacity carrier rate')).
Proof.
  intros Hfs Hc Hp Hr' Hemb. rewrite lsbm_embed_outcome in Hemb.
  apply embed_outcome_ok in Hemb as (flat & Hfs' & Hr & Hlen & Hcap & ->).
  rewrite Hfs in Hfs'. injection Hfs' as <-.
  pose proof (frame_fits_carrier _ _ _ _ lsbm_magic_length Hr Hcap) as Hle.
  rewrite lsbm_extract_common, lsb_extract_outcome.
  rewrite (extract_outcome_run _ _ _ _ _ (lookup_insert_eq _ _ _) Hr').
  unfold lsb_decode.
  rewrite (lsb_capacity_length _ carrier) by apply length_lsbm_write.
  rewrite lsb_lsbm_write by (done || apply bits_from_bytes_bits).
  unfold lsb_matching._MAGIC_BITS. by rewrite parse_frame_of_frame.
Qed.

Lemma hamm_read_back fs fs' image_path out_path (carrier payload : list Z) rate rate' :
  fs !! image_path = Some (Bmp carrier) → Forall is_byte payload →
  rate_in_half_open_unit rate' = true →
  hamming_code.embed image_path payload rate out_path fs = (fs', OK ()) →
  hamming_code.extract out_path rate' fs'
  = (fs', read_back payload (hamming_capacity carrier rate')).
Proof.
  intros Hfs Hp Hr' Hemb. rewrite hamm_embed_outcome in Hemb.
  apply embed_outcome_ok in Hemb as (flat & Hfs' & Hr & Hlen & Hcap & ->).
  rewrite Hfs in Hfs'. injection Hfs' as <-.
  destruct (hamm_embed_loop_ok carrier payload rate Hr Hcap) as (_ & Hl & _).
  destruct (hamm_write_syndromes carrier payload rate Hr Hcap) as [rest Hall].
  cbv zeta in Hl, Hall.
  set (stego := hamm_write _ _ _) in *.
  rewrite hamming_extract_outcome.
  rewrite (extract_outcome_run _ _ _ _ _ (lookup_insert_eq _ _ _) Hr').
  assert (len stego = len carrier) as Hls by (unfold len; by rewrite Hl).
  rewrite <- Hls in Hall.
  rewrite (hamming_decode_eq stego rate' _ rest (half_open_closed _ Hr') Hall).
  unfold hamming_capacity.
  rewrite (hamming_usable_blocks_length stego carrier) by done.
  unfold hamming_code._MAGIC_BITS. by rewrite parse_frame_of_frame.
Qed.


(** ** Reading a frame with another engine *)

Lemma parse_frame_magic_mismatch magic_bits bits limit :
  len magic_bits = 32 →
  take 32 bits ≠ magic_bits →
  parse_frame magic_bits bits limit = foreign_read limit.
Proof.
  intros Hm Hne. unfold parse_frame, foreign_read. cbv zeta. rewrite Hm.
  change (32 + 32) with 64. destruct (limit <? 64); [done|].
  unfold array_equal. rewrite bool_decide_eq_false_2; [done|].
  intros Heq. apply Hne. by rewrite <- Heq, slice_0.
Qed.

Lemma lsbr_first_block_check :
  checks (take 15 lsb_replacement._MAGIC_BITS) = [0; 0; 0; 1].
Proof. reflexivity. Qed.

Lemma frame_bits_head magic payload rest :
  length magic = 4%nat →
  take 32 (_bits_from_bytes (frame magic payload) ++ rest) = _bits_from_bytes magic.
Proof.
  intros Hm. unfold frame. rewrite bits_from_bytes_app, <- app_assoc.
  apply take_app_length'. rewrite length_bits_from_bytes, Hm. lia.
Qed.

Lemma take_15_32 (a : list Z) : take 15 (take 32 a) = take 15 a.
Proof. by rewrite take_take. Qed.

Lemma cover_bits_0 flat : cover_bits flat 0 = take 15 (lsb <$> flat).
Proof. unfold cover_bits. by rewrite fmap_slice, slice_0. Qed.

(** An image whose first block has a syndrome other than the first nibble
    of [HAMM] is refused by the Hamming reader. *)
Lemma hamming_decode_foreign flat rate s :
  rate_in_closed_unit rate = true →
  checks (cover_bits flat 0) = s → s ≠ [0; 1; 0; 0] →
  hamming_decode rate flat = foreign_read (hamming_capacity flat rate).
Proof.
  intros Hr Hs Hne. destruct (usable_blocks_fit flat rate Hr) as [Hub0 Hub].
  unfold hamming_decode, hamming_capacity, hamming_usable_blocks in *. cbv zeta.
  rewrite len_block_syndromes by done.
  replace (4 * scale (len flat / 15) rate) with (scale (len flat / 15) rate * 4) by lia.
  unfold parse_frame, foreign_read. cbv zeta.
  change (len hamming_code._MAGIC_BITS + 32) with 64.
  destruct (_ <? 64) eqn:E; [done|].
  unfold array_equal. rewrite bool_decide_eq_false_2; [done|].
  intros Heq. apply (f_equal (take 4)) in Heq.
  rewrite slice_0, take_take in Heq.
  change (4 `min` Z.to_nat (len hamming_code._MAGIC_BITS))%nat with 4%nat in Heq.
  rewrite block_syndromes_head, hamm_magic_head in Heq by lia.
  congruence.
Qed.


(** ** When [extract] succeeds *)

Lemma block_syndromes_bits flat blocks : Forall is_bit (block_syndromes flat blocks).
Proof.
  unfold block_syndromes. induction blocks as [|j blocks IH]; [constructor|].
  rewrite fmap_cons. cbn [concat]. apply Forall_app. split; [|done].
  apply checks_nibble.
Qed.

Lemma fmap_lsb_bits (flat : list Z) : Forall is_bit (lsb <$> flat).
Proof. apply Forall_fmap, Forall_forall. intros x _. apply lsb_is_bit. Qed.

Lemma lsb_budget_fits (flat : list Z) rate :
  rate_in_half_open_unit rate = true →
  lsb_capacity flat rate ≤ len (lsb <$> flat).
Proof.
  intros Hr%half_open_closed. unfold lsb_capacity, len. rewrite length_fmap.
  apply (scale_bounds (len flat) rate Hr (len_nonneg _)).
Qed.


(** ** What [extract] looks at *)


(** ** The failures a caller can see *)

Lemma parse_frame_errors magic_bits bits limit e :
  len magic_bits = 32 → limit ≤ len bits →
  parse_frame magic_bits bits limit = Error e →
  e ∈ [TruncatedHeader; MagicMismatch; TruncatedPayload].
Proof.
  intros Hm Hlim. unfold parse_frame. cbv zeta. rewrite Hm. change (32 + 32) with 64.
  destruct (limit <? 64) eqn:E1; [intros Heq; inversion Heq; set_solver|].
  destruct (negb _); [intros Heq; inversion Heq; set_solver|].
  destruct (_bytes_from_bits (slice bits 32 64)) as [header|e'] eqn:Eh.
  2:{ unfold _bytes_from_bits in Eh. rewrite len_slice in Eh by lia. done. }
  cbn [result_bind].
  apply bytes_from_bits_inv in Eh as (Hhb & _ & _).
  destruct (limit <? 64 + from_bytes header * 8) eqn:E2; [intros Heq; inversion Heq; set_solver|].
  pose proof (from_bytes_bound header Hhb) as Hfb.
  unfold _bytes_from_bits. rewrite len_slice by lia.
  replace (64 + from_bytes header * 8 - 64) with (from_bytes header * 8) by lia.
  by rewrite Z.mod_mul by lia.
Qed.


(** ** Bits and bytes *)

(** X13 (bit and byte conversion).  [_bits_from_bytes] gives eight bits per
    byte, each 0 or 1; [_bytes_from_bits] undoes it on byte strings; on a
    bit array whose length is a multiple of 8 [_bytes_from_bits] returns
    bytes that [_bits_from_bytes] turns back into that array; on any other
    length it raises its [ValueError]. *)
Theorem bit_byte_conversion_round_trip :
  (∀ data, Forall is_bit (_bits_from_bytes data) ∧
           len (_bits_from_bytes data) = 8 * len data) ∧
  (∀ data, Forall is_byte data → _bytes_from_bits (_bits_from_bytes data) = OK data) ∧
  (∀ bits, Forall is_bit bits → len bits mod 8 = 0 →
           ∃ data, _bytes_from_bits bits = OK data ∧ Forall is_byte data ∧
                   _bits_from_bytes data = bits) ∧
  (∀ bits, len bits mod 8 ≠ 0 → _bytes_from_bits bits = Error MisalignedBits).
Proof.
  split; [|split; [|split]].
  - intros data. split; [apply bits_from_bytes_bits|apply len_bits_from_bytes].
  - apply bytes_from_bits_from_bytes.
  - intros bits Hb Hm.
    destruct (_bytes_from_bits bits) as [data|e] eqn:E.
    + exists data. split; [done|].
      apply bytes_from_bits_inv in E as (Hd & _ & Hbits).
      split; [done|]. by rewrite Hbits, fmap_bit_of_bits.
    + unfold _bytes_from_bits in E. by rewrite Hm in E.
  - apply bytes_from_bits_misaligned.
Qed.

(** ** Budgets *)


(** ** Output paths *)

Lemma chars_text l : chars (text l) = l.
Proof. apply String.list_ascii_of_string_of_list_ascii. Qed.

Lemma text_chars s : text (chars s) = s.
Proof. apply String.string_of_list_ascii_of_string. Qed.

Lemma skip_leading_dots_cases visited extsep split whole :
  skip_leading_dots visited extsep split whole = split ∨
  skip_leading_dots visited extsep split whole = whole.
Proof.
  induction visited as [|c rest IH]; [by right|]. cbn.
  destruct (negb _); [by left|done].
Qed.

Lemma splitext_concat os p : (splitext os p).1 ++ (splitext os p).2 = p.
Proof.
  assert (∀ sep altsep extsep,
    (_splitext p sep altsep extsep).1 ++ (_splitext p sep altsep extsep).2 = p) as H.
  { intros sep altsep extsep. unfold _splitext. cbv zeta.
    destruct (_ <? _); [|apply app_nil_r].
    match goal with
    | |- context [skip_leading_dots ?v ?e ?s ?w] =>
        destruct (skip_leading_dots_cases v e s w) as [-> | ->]
    end; cbn [fst snd]; [apply take_drop|apply app_nil_r]. }
  destruct os; apply H.
Qed.

Lemma output_path_chars os path tag :
  ∃ base ext, chars path = base ++ ext ∧
    chars (MethodTab._output_path os path tag)
    = base ++ chars "_stego_" ++ chars tag ++ ext.
Proof.
  unfold MethodTab._output_path.
  pose proof (splitext_concat os (chars path)) as H.
  destruct (splitext os (chars path)) as [base ext]. cbn [fst snd] in H.
  exists base, ext. split; [done|]. apply chars_text.
Qed.

Lemma output_path_differs os path tag : MethodTab._output_path os path tag ≠ path.
Proof.
  intros Heq. destruct (output_path_chars os path tag) as (base & ext & Hp & Ho).
  rewrite Heq, Hp in Ho. apply (f_equal length) in Ho.
  rewrite !length_app in Ho. cbn in Ho. lia.
Qed.

(** X15 (tabs write distinct files).  For one image path, two different tags
    give two different output paths. *)
Theorem window_tabs_write_distinct_files (os : os_path) (path tag1 tag2 : string) :
  tag1 ≠ tag2 →
  MethodTab._output_path os path tag1 ≠ MethodTab._output_path os path tag2.
Proof.
  intros Hne Heq. apply Hne.
  unfold MethodTab._output_path in *.
  destruct (splitext os (chars path)) as [b e].
  apply (f_equal chars) in Heq. rewrite !chars_text in Heq.
  apply app_inv_head in Heq. apply app_inv_head in Heq. apply app_inv_tail in Heq.
  rewrite <- (text_chars tag1), <- (text_chars tag2). by rewrite Heq.
Qed.

(** ** Extensions *)

Lemma rfind_bound p c : -1 ≤ rfind p c < len p.
Proof.
  induction p as [|a p IH]; [unfold len; simpl; lia|].
  cbn [rfind]. cbv zeta. unfold len in *. rewrite length_cons.
  destruct (0 <=? rfind p c) eqn:E; [lia|].
  destruct (Ascii.eqb a c); lia.
Qed.

Lemma rfind_absent p c : c ∉ p → rfind p c = -1.
Proof.
  induction p as [|a p IH]; [done|]. intros Hn.
  apply not_elem_of_cons in Hn as [Hne Hn].
  cbn [rfind]. cbv zeta. rewrite (IH Hn). cbn.
  destruct (Ascii.eqb a c) eqn:E; [|done]. apply Ascii.eqb_eq in E. congruence.
Qed.

Lemma rfind_head p c : c ∉ p → rfind (c :: p) c = 0.
Proof.
  intros Hn. cbn [rfind]. cbv zeta. rewrite (rfind_absent _ _ Hn). cbn.
  by rewrite Ascii.eqb_refl.
Qed.

Lemma rfind_app_absent a t c : c ∉ t → rfind (a ++ t) c = rfind a c.
Proof.
  intros Hn. induction a as [|x a IH]; [by apply rfind_absent|].
  cbn [app rfind]. cbv zeta. by rewrite IH.
Qed.

Lemma rfind_app_present a t c :
  0 ≤ rfind t c → rfind (a ++ t) c = len a + rfind t c.
Proof.
  intros Ht. induction a as [|x a IH]; [unfold len; simpl; lia|].
  cbn [app rfind]. cbv zeta. rewrite IH. unfold len in *. rewrite length_cons.
  destruct (0 <=? _) eqn:E; lia.
Qed.

Lemma skip_leading_dots_split visited extsep split whole x :
  x ∈ visited → x ≠ extsep →
  skip_leading_dots visited extsep split whole = split.
Proof.
  intros Hin Hne. induction visited as [|c rest IH]; [by apply elem_of_nil in Hin|].
  cbn. destruct (Ascii.eqb c extsep) eqn:E; [|done]. cbn.
  apply Ascii.eqb_eq in E. subst c.
  apply elem_of_cons in Hin as [->|Hin]; [done|by apply IH].
Qed.

Lemma _splitext_extension front c ext sep altsep :
  c ≠ dot_char → c ≠ sep → (∀ a, altsep = Some a → c ≠ a) →
  dot_char ∉ ext → sep ∉ ext → (∀ a, altsep = Some a → a ∉ ext) →
  sep ≠ dot_char → (∀ a, altsep = Some a → a ≠ dot_char) →
  _splitext (front ++ c :: dot_char :: ext) sep altsep dot_char
  = (front ++ [c], dot_char :: ext).
Proof.
  intros Hcd Hcs Hca Hde Hse Hae Hsd Had.
  set (p := front ++ c :: dot_char :: ext).
  assert (∀ s, s ≠ c → s ≠ dot_char → s ∉ ext → rfind p s < len front) as Hsep.
  { intros s H1 H2 H3. unfold p. rewrite rfind_app_absent; [apply rfind_bound|].
    rewrite !not_elem_of_cons. done. }
  assert (rfind p dot_char = len front + 1) as Hdot.
  { unfold p. change (front ++ c :: dot_char :: ext)
      with (front ++ [c] ++ dot_char :: ext).
    rewrite app_assoc, rfind_app_present; rewrite rfind_head by done; [|lia].
    unfold len. rewrite length_app. simpl. lia. }
  pose proof (rfind_bound p sep) as Hb.
  pose proof (Hsep sep ltac:(congruence) Hsd Hse) as Hs.
  unfold _splitext. cbv zeta. fold p. rewrite Hdot.
  set (sepIndex := match altsep with Some a => _ | None => _ end).
  assert (-1 ≤ sepIndex < len front) as Hsi.
  { unfold sepIndex. destruct altsep as [a|]; [|lia].
    pose proof (Hsep a ltac:(intros ->; by eapply Hca) (Had a eq_refl) (Hae a eq_refl)).
    lia. }
  destruct (sepIndex <? len front + 1) eqn:E; [|lia].
  rewrite (skip_leading_dots_split _ _ _ _ c); [| |done].
  - f_equal; unfold p, len.
    + replace (Z.to_nat (Z.of_nat (length front) + 1)) with (length (front ++ [c]))
        by (rewrite length_app; simpl; lia).
      change (front ++ c :: dot_char :: ext) with (front ++ [c] ++ dot_char :: ext).
      rewrite app_assoc. by rewrite take_app_length.
    + replace (Z.to_nat (Z.of_nat (length front) + 1)) with (length (front ++ [c]))
        by (rewrite length_app; simpl; lia).
      change (front ++ c :: dot_char :: ext) with (front ++ [c] ++ dot_char :: ext).
      rewrite app_assoc. by rewrite drop_app_length.
  - apply list_elem_of_lookup.
    exists (length front - Z.to_nat (sepIndex + 1))%nat.
    unfold len in *.
    rewrite lookup_take_lt by lia. rewrite lookup_drop.
    replace (Z.to_nat (sepIndex + 1) + (length front - Z.to_nat (sepIndex + 1)))%nat
      with (length front + 0)%nat by lia.
    unfold p. by rewrite lookup_app_r, Nat.add_0_r, Nat.sub_diag by lia.
Qed.

Lemma chars_append a b : chars (a +:+ b) = chars a ++ chars b.
Proof.
  induction a as [|x a IH]; [done|].
  change (chars (String x (a +:+ b)) = (x :: chars a) ++ chars b).
  change (chars (String x (a +:+ b))) with (x :: chars (a +:+ b)). by rewrite IH.
Qed.

Lemma text_app a b : text (a ++ b) = text a +:+ text b.
Proof.
  induction a as [|x a IH]; [done|].
  change (String x (text (a ++ b)) = String x (text a +:+ text b)). by rewrite IH.
Qed.

(** X16 (the output keeps the extension).  For a path [stem + "." + ext]
    whose stem ends in a character that is neither a dot nor a separator and
    whose extension holds no dot and no separator, the output path is
    [stem + "_stego_" + tag + "." + ext]. *)
Theorem window_output_keeps_extension (os : os_path) (stem ext tag : string)
    (c : Ascii.ascii) :
  last (chars stem) = Some c →
  c ∉ dot_char :: separators os →
  (∀ x, x ∈ dot_char :: separators os → x ∉ chars ext) →
  MethodTab._output_path os (stem +:+ "." +:+ ext) tag
  = stem +:+ "_stego_" +:+ tag +:+ "." +:+ ext.
Proof.
  intros [front Hstem]%last_Some Hc Hext. unfold MethodTab._output_path.
  rewrite !chars_append, Hstem.
  change (chars ".") with [dot_char]. rewrite <- app_assoc. cbn [app].
  assert (splitext os (front ++ c :: dot_char :: chars ext)
          = (front ++ [c], dot_char :: chars ext)) as ->.
  { assert (c ≠ dot_char) as Hcd by set_solver.
    assert (∀ x, x ∈ separators os → c ≠ x) as Hcs by set_solver.
    assert (dot_char ∉ chars ext) as Hde by (apply Hext; set_solver).
    assert (∀ x, x ∈ separators os → x ∉ chars ext) as Hse
      by (intros x Hx; apply Hext; set_solver).
    destruct os; cbn [splitext separators] in *;
      (apply _splitext_extension;
       [done | apply Hcs; set_solver | intros a [= <-]; apply Hcs; set_solver
       | done | apply Hse; set_solver | intros a [= <-]; apply Hse; set_solver
       | done | by intros a [= <-] ]). }
  rewrite <- Hstem.
  rewrite !text_app, !text_chars. cbn [text chars].
  change (text (dot_char :: chars ext)) with ("." +:+ text (chars ext)).
  by rewrite text_chars.
Qed.

(** ** The embed callback and the file store *)

Lemma embed_outcome_store too_large cap write path payload rate out fs :
  ∀ p, p ≠ out →
  (embed_outcome too_large cap write path payload rate out fs).1 !! p = fs !! p.
Proof.
  intros p Hp. unfold embed_outcome. destruct (negb _); [done|].
  destruct (fs !! path) as [[flat|]|]; [|done..].
  destruct (_ <=? _); [done|]. destruct (_ <? _); [done|].
  cbn [fst]. by apply lookup_insert_ne.
Qed.

Lemma backend_store rng backend_embed path payload rate out fs p :
  is_backend rng backend_embed → p ≠ out →
  (backend_embed path payload rate out fs).1 !! p = fs !! p.
Proof.
  intros [-> | [-> | ->]] Hp.
  - rewrite lsbr_embed_outcome. by apply embed_outcome_store.
  - rewrite lsbm_embed_outcome. by apply embed_outcome_store.
  - rewrite hamm_embed_outcome. by apply embed_outcome_store.
Qed.

(** X17 (the window never overwrites the cover image).  Whatever the tab,
    the path flavour, the image path, the entry text and the rate, the embed
    callback leaves the file at the chosen image path as it was, and leaves
    every file other than [_output_path(img, tag)] as it was: the output path
    is never the input path. *)
Theorem window_never_overwrites_cover (rng : nat → bool) (os : os_path)
    backend_embed (tag img : string) (payload_text : list Z) (rate : Q) fs :
  is_backend rng backend_embed →
  (MethodTab.embed os backend_embed tag img payload_text rate fs).1 !! img = fs !! img ∧
  ∀ p, p ≠ MethodTab._output_path os img tag →
       (MethodTab.embed os backend_embed tag img payload_text rate fs).1 !! p = fs !! p.
Proof.
  intros Hb.
  assert (∀ p, p ≠ MethodTab._output_path os img tag →
    (MethodTab.embed os backend_embed tag img payload_text rate fs).1 !! p = fs !! p) as H.
  { intros p Hp. unfold MethodTab.embed. cbv zeta.
    case_bool_decide; [done|]. case_bool_decide; [done|].
    destruct (MethodTab.payload_bytes _) as [payload|]; [|done].
    pose proof (backend_store rng backend_embed img payload rate _ fs p Hb Hp) as Hs.
    destruct (backend_embed _ _ _ _ _) as [fs' [[]|e]]; exact Hs. }
  split; [|done]. apply H. intros Heq. by apply (output_path_differs os img tag).
Qed.

(** ** Reading the payload entry *)

Lemma lstrip_suffix s : ∃ ws, s = ws ++ lstrip s.
Proof.
  induction s as [|c s [ws IH]]; [by exists []|]. cbn [lstrip].
  destruct (isspace c); [|by exists []].
  exists (c :: ws). cbn. by rewrite <- IH.
Qed.

Lemma Forall_lstrip (P : Z → Prop) s : Forall P s → Forall P (lstrip s).
Proof.
  intros H. destruct (lstrip_suffix s) as [ws Hs]. rewrite Hs in H.
  by apply Forall_app in H as [_ ?].
Qed.

Lemma Forall_strip (P : Z → Prop) s : Forall P s → Forall P (strip s).
Proof.
  intros H. unfold strip.
  by apply Forall_reverse, Forall_lstrip, Forall_reverse, Forall_lstrip.
Qed.

Lemma length_strip s : (length (strip s) ≤ length s)%nat.
Proof.
  unfold strip. rewrite length_reverse.
  destruct (lstrip_suffix (reverse (lstrip s))) as [ws1 H1].
  destruct (lstrip_suffix s) as [ws2 H2].
  apply (f_equal length) in H1, H2.
  rewrite length_app in H1, H2. rewrite length_reverse in H1. lia.
Qed.

Lemma lstrip_id s : Forall (λ c, isspace c = false) s → lstrip s = s.
Proof. intros [|c s' Hc _]; [done|]. cbn [lstrip]. by rewrite Hc. Qed.

Lemma strip_id s : Forall (λ c, isspace c = false) s → strip s = s.
Proof.
  intros H. unfold strip. rewrite (lstrip_id s H).
  rewrite lstrip_id by by apply Forall_reverse. apply reverse_involutive.
Qed.

(** The two digits [bytes.hex] writes for a byte, read back. *)
Lemma hex_digits_table :
  forallb (λ b,
    let h1 := hex_digit (Z.shiftr b 4) in
    let h2 := hex_digit (Z.land b 15) in
    negb (isspace h1) && negb (isspace h2) && in_hexdigits h1 && in_hexdigits h2
    && bool_decide (fromhex [h1; h2] = Some [b])
    && negb (((9 <=? h1) && (h1 <=? 13)) || (h1 =? 32))
    && bool_decide (hex_value h1 = Some (Z.shiftr b 4))
    && bool_decide (hex_value h2 = Some (Z.land b 15))
    && (Z.shiftr b 4 * 16 + Z.land b 15 =? b))
    (seqZ 0 256) = true.
Proof. vm_compute. reflexivity. Qed.

Lemma hex_digits_byte b :
  is_byte b →
  let h1 := hex_digit (Z.shiftr b 4) in
  let h2 := hex_digit (Z.land b 15) in
  isspace h1 = false ∧ isspace h2 = false ∧
  in_hexdigits h1 = true ∧ in_hexdigits h2 = true ∧
  ∀ rest, fromhex (h1 :: h2 :: rest) = (λ bs, b :: bs) <$> fromhex rest.
Proof.
  intros Hb h1 h2. pose proof hex_digits_table as T. rewrite forallb_forall in T.
  specialize (T b). cbv zeta in T. fold h1 h2 in T.
  assert (In b (seqZ 0 256)) as Hin
    by (apply list_elem_of_In, elem_of_seqZ; unfold is_byte in Hb; lia).
  specialize (T Hin).
  repeat (apply andb_prop in T as [T ?]).
  repeat match goal with
         | H : negb _ = true |- _ => apply negb_true_iff in H
         | H : bool_decide _ = true |- _ => apply bool_decide_eq_true in H
         | H : (_ =? _) = true |- _ => apply Z.eqb_eq in H
         end.
  repeat split; try done.
  intros rest. cbn [fromhex].
  match goal with H : _ || _ = false |- _ => rewrite H end.
  match goal with H : hex_value h1 = _ |- _ => rewrite H end.
  match goal with H : hex_value h2 = _ |- _ => rewrite H end.
  match goal with H : _ * 16 + _ = b |- _ => rewrite H end.
  done.
Qed.

Lemma bytes_hex_cons b data :
  bytes_hex (b :: data)
  = hex_digit (Z.shiftr b 4) :: hex_digit (Z.land b 15) :: bytes_hex data.
Proof. reflexivity. Qed.

Lemma bytes_hex_read data :
  Forall is_byte data →
  Forall (λ c, isspace c = false) (bytes_hex data) ∧
  forallb in_hexdigits (bytes_hex data) = true ∧
  len (bytes_hex data) = 2 * len data ∧
  fromhex (bytes_hex data) = Some data.
Proof.
  induction 1 as [|b data Hb _ (IH1 & IH2 & IH3 & IH4)]; [done|].
  rewrite bytes_hex_cons.
  destruct (hex_digits_byte b Hb) as (S1 & S2 & D1 & D2 & Hread). cbv zeta in *.
  split; [by repeat constructor|]. split.
  { cbn [forallb]. by rewrite D1, D2, IH2. }
  split.
  { unfold len in *. cbn [length]. lia. }
  by rewrite Hread, IH4.
Qed.

(** X18 (a loaded file is embedded byte for byte).  When the entry holds what
    [load_payload_file] put there for file contents [data], the embed
    callback shows the no-payload warning if the file was empty and
    otherwise calls the engine with exactly [data], reporting what the
    engine does. *)
Theorem window_embeds_loaded_file (os : os_path)
    (backend_embed : string → list Z → Q → string → IO ()) (tag img : string)
    (data : list Z) (rate : Q) fs :
  Forall is_byte data → img ≠ ""%string →
  MethodTab.embed os backend_embed tag img (MethodTab.load_payload_file data) rate fs
  = if bool_decide (data = []) then (fs, NoPayload)
    else match backend_embed img data rate (MethodTab._output_path os img tag) fs with
         | (fs', OK _) => (fs', Embedded (MethodTab._output_path os img tag))
         | (fs', Error e) => (fs', EmbedFailed e)
         end.
Proof.
  intros Hd Himg. unfold MethodTab.embed, MethodTab.load_payload_file. cbv zeta.
  rewrite bool_decide_eq_false_2 by done.
  destruct (bytes_hex_read data Hd) as (Hs & Hh & Hl & Hf).
  rewrite (strip_id _ Hs).
  destruct data as [|b data]; [done|].
  rewrite !bool_decide_eq_false_2 by done.
  unfold MethodTab.payload_bytes. rewrite Hh, Hl.
  replace (2 * len (b :: data)) with (len (b :: data) * 2) by lia.
  rewrite Z.mod_mul by lia. cbn [andb Z.eqb]. by rewrite Hf.
Qed.

Lemma lor_byte a b : is_byte a → is_byte b → is_byte (Z.lor a b).
Proof.
  unfold is_byte. intros Ha Hb.
  assert (0 ≤ Z.lor a b) as H0 by (apply Z.lor_nonneg; lia).
  split; [done|].
  destruct (decide (Z.lor a b = 0)) as [->|Hne]; [lia|].
  apply (Z.log2_lt_pow2 _ 8); [lia|]. rewrite Z.log2_lor by lia.
  assert (∀ x, 0 ≤ x < 256 → Z.log2 x < 8) as Hlog.
  { intros x Hx. destruct (decide (x = 0)) as [->|Hx0]; [done|].
    apply Z.log2_lt_pow2; lia. }
  pose proof (Hlog a Ha). pose proof (Hlog b Hb). lia.
Qed.

Lemma land_63_byte x : is_byte (Z.land x 0x3F).
Proof.
  unfold is_byte. change 0x3F with (Z.ones 6). rewrite Z.land_ones by lia.
  pose proof (Z.mod_pos_bound x (2 ^ 6) ltac:(lia)). lia.
Qed.

Lemma shiftr_byte x k : 0 ≤ k → 0 ≤ x < 256 * 2 ^ k → is_byte (Z.shiftr x k).
Proof.
  intros Hk Hx. unfold is_byte. rewrite Z.shiftr_div_pow2 by done.
  split; [apply Z.div_pos; lia|]. apply Z.div_lt_upper_bound; lia.
Qed.

Lemma encode_char_bytes c bs :
  is_code_point c → encode_char c = Some bs → Forall is_byte bs ∧ bs ≠ [].
Proof.
  unfold is_code_point, encode_char. intros Hc.
  assert (∀ m x, is_byte m → is_byte (Z.lor m (Z.land x 0x3F))) as Htail
    by (intros m x Hm; apply lor_byte; [done|apply land_63_byte]).
  assert (∀ m k, is_byte m → 0 ≤ k → c < 256 * 2 ^ k → is_byte (Z.lor m (Z.shiftr c k)))
    as Hlead by (intros m k Hm Hk Hck; apply lor_byte; [done|apply shiftr_byte; lia]).
  destruct (c <? 0x80) eqn:E1.
  { intros [= <-]. split; [|done]. repeat constructor; lia. }
  destruct (c <? 0x800) eqn:E2.
  { intros [= <-]. split; [|done].
    repeat constructor; (apply Htail || apply Hlead); unfold is_byte; lia. }
  destruct (c <? 0x10000) eqn:E3.
  { destruct (_ && _); [done|]. intros [= <-]. split; [|done].
    repeat constructor; (apply Htail || apply Hlead); unfold is_byte; lia. }
  intros [= <-]. split; [|done].
  repeat constructor; (apply Htail || apply Hlead); unfold is_byte; lia.
Qed.

Lemma encode_bytes s b :
  Forall is_code_point s → encode s = Some b →
  Forall is_byte b ∧ (s ≠ [] → b ≠ []).
Proof.
  intros Hs. revert b. induction Hs as [|c s Hc _ IH]; intros b.
  - intros [= <-]. done.
  - cbn [encode]. destruct (encode_char c) as [bs|] eqn:Ec; [|done].
    destruct (encode s) as [tail|]; [|done]. intros [= <-].
    destruct (encode_char_bytes c bs Hc Ec) as [Hb Hne].
    destruct (IH tail eq_refl) as [Ht _].
    split; [by apply Forall_app|]. intros _. by destruct bs.
Qed.

Lemma encode_ascii s : Forall (λ c, 0 ≤ c < 128) s → encode s = Some s.
Proof.
  induction 1 as [|c s Hc _ IH]; [done|]. cbn [encode]. rewrite IH.
  unfold encode_char. destruct (c <? 128) eqn:E; [done|lia].
Qed.

Lemma in_hexdigits_value c : in_hexdigits c = true → ∃ v, hex_value c = Some v ∧ 0 ≤ v < 16
    ∧ (((9 <=? c) && (c <=? 13)) || (c =? 32)) = false.
Proof.
  unfold in_hexdigits. intros H%bool_decide_eq_true.
  vm_compute in H.
  repeat (apply elem_of_cons in H as [->|H]; [eexists; split; [reflexivity|done]|]).
  by apply elem_of_nil in H.
Qed.

Lemma fromhex_digits (n : nat) : ∀ s,
  length s = (2 * n)%nat → forallb in_hexdigits s = true →
  ∃ b, fromhex s = Some b ∧ length b = n ∧ Forall is_byte b.
Proof.
  induction n as [|n IH]; intros s Hl Hh.
  - destruct s; [|done]. by exists [].
  - destruct s as [|c [|d s]]; [done|simpl in Hl; lia|].
    cbn [forallb] in Hh. apply andb_prop in Hh as [Hc [Hd Hh]%andb_prop].
    destruct (in_hexdigits_value c Hc) as (top & Etop & Htop & Hsp).
    destruct (in_hexdigits_value d Hd) as (bot & Ebot & Hbot & _).
    destruct (IH s ltac:(simpl in Hl; lia) Hh) as (b & Eb & Hlb & Hbb).
    exists ((top * 16 + bot) :: b). cbn [fromhex]. rewrite Hsp, Etop, Ebot, Eb.
    split; [done|]. split; [simpl; lia|].
    constructor; [unfold is_byte; lia|done].
Qed.

Lemma even_length (s : list Z) : len s mod 2 = 0 → ∃ n : nat, length s = (2 * n)%nat.
Proof.
  intros H. exists (Z.to_nat (len s / 2)).
  pose proof (Z.div_mod (len s) 2 ltac:(lia)). pose proof (len_nonneg s).
  pose proof (Z.div_pos (len s) 2). unfold len in *. lia.
Qed.

Lemma payload_bytes_hex raw :
  forallb in_hexdigits raw && (len raw mod 2 =? 0) = true →
  ∃ b, MethodTab.payload_bytes raw = Some b ∧ len raw = 2 * len b ∧ Forall is_byte b.
Proof.
  intros Hhex. unfold MethodTab.payload_bytes. rewrite Hhex.
  apply andb_prop in Hhex as [Hh Hm%Z.eqb_eq].
  destruct (even_length raw Hm) as [n Hn].
  destruct (fromhex_digits n raw Hn Hh) as (b & Eb & Hl & Hb).
  exists b. split; [done|]. split; [|done]. unfold len. lia.
Qed.

(** The bytes the window hands to the engine. *)
Lemma payload_bytes_spec raw b :
  Forall is_code_point raw → raw ≠ [] →
  MethodTab.payload_bytes raw = Some b → Forall is_byte b ∧ b ≠ [].
Proof.
  intros Hcp Hne.
  destruct (forallb in_hexdigits raw && (len raw mod 2 =? 0)) eqn:E.
  - destruct (payload_bytes_hex raw E) as (b' & -> & Hl & Hb). intros [= <-].
    split; [done|]. intros ->. destruct raw; [done|]. unfold len in Hl. simpl in Hl. lia.
  - unfold MethodTab.payload_bytes. rewrite E. intros Henc.
    destruct (encode_bytes raw b Hcp Henc) as [? Hn]. auto.
Qed.

(** X19 (how the entry text becomes a payload).  An ASCII text that is not an
    even-length run of hexadecimal digits is taken as its own bytes; an
    even-length run of hexadecimal digits is taken as half as many bytes;
    for a non-empty text of code points the payload, when there is one, is a
    non-empty byte string; and the only texts refused hold a surrogate code
    point. *)
Theorem window_reads_the_entry (raw : list Z) :
  (Forall (λ c, 0 ≤ c < 128) raw →
   forallb in_hexdigits raw && (len raw mod 2 =? 0) = false →
   MethodTab.payload_bytes raw = Some raw) ∧
  (forallb in_hexdigits raw && (len raw mod 2 =? 0) = true →
   ∃ b, MethodTab.payload_bytes raw = Some b ∧ len raw = 2 * len b) ∧
  (Forall is_code_point raw → raw ≠ [] →
   ∀ b, MethodTab.payload_bytes raw = Some b → Forall is_byte b ∧ b ≠ []) ∧
  (Forall is_code_point raw → MethodTab.payload_bytes raw = None →
   ∃ c, c ∈ raw ∧ 0xD800 ≤ c ≤ 0xDFFF).
Proof.
  split; [|split; [|split]].
  - intros Hascii Hnot. unfold MethodTab.payload_bytes. rewrite Hnot.
    by apply encode_ascii.
  - intros Hhex. destruct (payload_bytes_hex raw Hhex) as (b & ? & ? & _). by exists b.
  - intros Hcp Hne b. by apply payload_bytes_spec.
  - intros Hcp.
    assert (encode raw = None → ∃ c, c ∈ raw ∧ 0xD800 ≤ c ≤ 0xDFFF) as Henc.
    { clear. induction raw as [|c raw IH]; [done|]. cbn [encode].
      destruct (encode_char c) as [bs|] eqn:Ec.
      - destruct (encode raw); [done|]. intros _.
        destruct (IH eq_refl) as (c' & Hin & Hc'). exists c'.
        split; [by apply list_elem_of_further|done].
      - intros _. exists c. split; [apply list_elem_of_here|].
        unfold encode_char in Ec.
        destruct (c <? 128); [done|]. destruct (c <? 2048); [done|].
        destruct (c <? 65536); [|done].
        destruct (_ && _) eqn:E; [|done]. lia. }
    destruct (forallb in_hexdigits raw && (len raw mod 2 =? 0)) eqn:E.
    + destruct (payload_bytes_hex raw E) as (b & -> & _). done.
    + unfold MethodTab.payload_bytes. by rewrite E.
Qed.

Lemma read_back_fits (payload : list Z) budget :
  framed_bit_count payload ≤ budget → read_back payload budget = OK payload.
Proof.
  intros H. pose proof (len_nonneg payload). unfold read_back, framed_bit_count in *.
  destruct (budget <? 64) eqn:E1; [lia|].
  destruct (budget <? 32 + 32 + 8 * len payload) eqn:E2; [lia|done].
Qed.

Lemma embed_outcome_rate too_large cap write path (payload : list Z) rate out fs fs' :
  (∀ flat, cap flat = scale (len flat) rate ∨ cap flat = scale (len flat / 15) rate * 4) →
  embed_outcome too_large cap write path payload rate out fs = (fs', OK ()) →
  rate_in_half_open_unit rate = true ∧
  ∃ flat, fs !! path = Some (Bmp flat) ∧ framed_bit_count payload ≤ cap flat.
Proof.
  intros Hcap Hemb.
  apply embed_outcome_ok in Hemb as (flat & Hfs & Hr & Hlen & Hfit & _).
  pose proof (len_nonneg payload). unfold framed_bit_count in *.
  split; [|by exists flat].
  destruct (Hcap flat) as [E | E]; rewrite E in Hfit.
  - apply (scale_positive_rate (len flat)); [done|lia].
  - apply (scale_positive_rate (len flat / 15)); [done|lia].
Qed.

(** What the embed callback did when it reports success. *)
Lemma window_embedded os backend_embed tag img payload_text rate fs fs' out :
  MethodTab.embed os backend_embed tag img payload_text rate fs = (fs', Embedded out) →
  ∃ payload,
    MethodTab.payload_bytes (strip payload_text) = Some payload ∧
    strip payload_text ≠ [] ∧
    out = MethodTab._output_path os img tag ∧
    backend_embed img payload rate out fs = (fs', OK ()).
Proof.
  unfold MethodTab.embed. cbv zeta.
  case_bool_decide; [done|]. case_bool_decide; [done|].
  destruct (MethodTab.payload_bytes _) as [payload|]; [|done].
  destruct (backend_embed _ _ _ _ _) as [fs'' [[]|e]] eqn:E; [|done].
  intros [= -> <-]. by exists payload.
Qed.

Lemma backend_round_trip rng backend_embed backend_extract fs fs' img out
    (carrier payload : list Z) rate :
  (backend_embed, backend_extract) ∈ backends rng →
  fs !! img = Some (Bmp carrier) → Forall is_byte carrier → Forall is_byte payload →
  backend_embed img payload rate out fs = (fs', OK ()) →
  backend_extract out rate fs' = (fs', OK payload).
Proof.
  intros Hb Hfs Hc Hpb Hemb. unfold backends in Hb.
  repeat (apply elem_of_cons in Hb as [[= -> ->]|Hb]); [| | |by apply elem_of_nil in Hb].
  - pose proof Hemb as Hemb'. rewrite lsbr_embed_outcome in Hemb'.
    apply embed_outcome_rate in Hemb' as (Hr & flat & Hfs' & Hfit); [|by left].
    rewrite Hfs in Hfs'. injection Hfs' as <-.
    rewrite (lsbr_read_back fs fs' img _ carrier payload rate rate) by done.
    by rewrite read_back_fits.
  - pose proof Hemb as Hemb'. rewrite lsbm_embed_outcome in Hemb'.
    apply embed_outcome_rate in Hemb' as (Hr & flat & Hfs' & Hfit); [|by left].
    rewrite Hfs in Hfs'. injection Hfs' as <-.
    rewrite (lsbm_read_back rng fs fs' img _ carrier payload rate rate) by done.
    by rewrite read_back_fits.
  - pose proof Hemb as Hemb'. rewrite hamm_embed_outcome in Hemb'.
    apply embed_outcome_rate in Hemb' as (Hr & flat & Hfs' & Hfit); [|by right].
    rewrite Hfs in Hfs'. injection Hfs' as <-.
    rewrite (hamm_read_back fs fs' img _ carrier payload rate rate) by done.
    by rewrite read_back_fits.
Qed.


(** ** Showing the payload *)

Lemma lor_lead_table :
  forallb (λ x, (Z.lor 0x80 x =? 0x80 + x)
                && (negb (x <? 32) || (Z.lor 0xC0 x =? 0xC0 + x))
                && (negb (x <? 16) || (Z.lor 0xE0 x =? 0xE0 + x))
                && (negb (x <? 8) || (Z.lor 0xF0 x =? 0xF0 + x))) (seqZ 0 64) = true.
Proof. vm_compute. reflexivity. Qed.

Lemma lor_lead x :
  0 ≤ x < 64 →
  Z.lor 0x80 x = 0x80 + x ∧
  (x < 32 → Z.lor 0xC0 x = 0xC0 + x) ∧
  (x < 16 → Z.lor 0xE0 x = 0xE0 + x) ∧
  (x < 8 → Z.lor 0xF0 x = 0xF0 + x).
Proof.
  intros Hx. pose proof lor_lead_table as T. rewrite forallb_forall in T.
  specialize (T x ltac:(apply list_elem_of_In, elem_of_seqZ; lia)).
  repeat (apply andb_prop in T as [T ?]). repeat split; lia.
Qed.

Lemma land_63 x : Z.land x 0x3F = x mod 64.
Proof. change 0x3F with (Z.ones 6). by rewrite Z.land_ones by lia. Qed.

Lemma shiftr_div x k : 0 ≤ k → Z.shiftr x k = x / 2 ^ k.
Proof. intros. by apply Z.shiftr_div_pow2. Qed.

(** The bytes [str.encode()] writes for one character, by arithmetic. *)
Lemma encode_char_eq c :
  is_code_point c →
  encode_char c =
    if c <? 0x80 then Some [c]
    else if c <? 0x800 then Some [0xC0 + c / 64; 0x80 + c mod 64]
    else if c <? 0x10000 then
      if (0xD800 <=? c) && (c <=? 0xDFFF) then None
      else Some [0xE0 + c / 4096; 0x80 + c / 64 mod 64; 0x80 + c mod 64]
    else Some [0xF0 + c / 262144; 0x80 + c / 4096 mod 64; 0x80 + c / 64 mod 64;
               0x80 + c mod 64].
Proof.
  unfold is_code_point, encode_char. intros Hc.
  rewrite !land_63, !shiftr_div by lia.
  change (2 ^ 6) with 64. change (2 ^ 12) with 4096. change (2 ^ 18) with 262144.
  assert (∀ x, Z.lor 0x80 (x mod 64) = 0x80 + x mod 64) as Ht.
  { intros x. apply lor_lead. apply Z.mod_pos_bound. lia. }
  rewrite !Ht.
  destruct (c <? 0x80) eqn:E1; [done|].
  destruct (c <? 0x800) eqn:E2.
  { assert (0 ≤ c / 64 < 32) as Hq by (Z.div_mod_to_equations; lia).
    destruct (lor_lead (c / 64) ltac:(lia)) as (_ & H & _). by rewrite H by lia. }
  destruct (c <? 0x10000) eqn:E3.
  { destruct (_ && _); [done|].
    assert (0 ≤ c / 4096 < 16) as Hq by (Z.div_mod_to_equations; lia).
    destruct (lor_lead (c / 4096) ltac:(lia)) as (_ & _ & H & _). by rewrite H by lia. }
  assert (0 ≤ c / 262144 < 8) as Hq by (Z.div_mod_to_equations; lia).
  destruct (lor_lead (c / 262144) ltac:(lia)) as (_ & _ & _ & H). by rewrite H by lia.
Qed.

Lemma decode_encode_char c bs rest :
  is_code_point c → encode_char c = Some bs →
  decode (bs ++ rest) = (λ s, c :: s) <$> decode rest.
Proof.
  intros Hc. rewrite (encode_char_eq c Hc). unfold is_code_point in Hc.
  destruct (c <? 0x80) eqn:E1.
  { intros [= <-]. cbn [app decode]. by rewrite E1. }
  destruct (c <? 0x800) eqn:E2.
  { intros [= <-]. cbn [app decode].
    assert ((0xC0 + c / 64 <? 0x80) = false) as -> by (Z.div_mod_to_equations; lia).
    assert ((0xC2 <=? 0xC0 + c / 64) && (0xC0 + c / 64 <=? 0xDF) = true) as ->
      by (Z.div_mod_to_equations; lia).
    assert (continuation (0x80 + c mod 64) = true) as ->
      by (unfold continuation; Z.div_mod_to_equations; lia).
    rewrite !Z.shiftl_mul_pow2 by lia.
    replace ((0xC0 + c / 64) * 2 ^ 6 + (0x80 + c mod 64) - (0xC0 * 2 ^ 6 + 0x80)) with c
      by (Z.div_mod_to_equations; lia).
    done. }
  destruct (c <? 0x10000) eqn:E3.
  { destruct ((0xD800 <=? c) && (c <=? 0xDFFF)) eqn:Es; [done|].
    intros [= <-]. cbn [app decode].
    assert ((0xE0 + c / 4096 <? 0x80) = false) as -> by (Z.div_mod_to_equations; lia).
    assert ((0xC2 <=? 0xE0 + c / 4096) && (0xE0 + c / 4096 <=? 0xDF) = false) as ->
      by (Z.div_mod_to_equations; lia).
    assert ((0xE0 <=? 0xE0 + c / 4096) && (0xE0 + c / 4096 <=? 0xEF) = true) as ->
      by (Z.div_mod_to_equations; lia).
    assert (second_byte (0xE0 + c / 4096) (0x80 + c / 64 mod 64) = true) as ->.
    { unfold second_byte, continuation.
      destruct (0xE0 + c / 4096 =? 0xE0) eqn:A1; [Z.div_mod_to_equations; lia|].
      destruct (0xE0 + c / 4096 =? 0xED) eqn:A2; [Z.div_mod_to_equations; lia|].
      destruct (0xE0 + c / 4096 =? 0xF0) eqn:A3; [Z.div_mod_to_equations; lia|].
      destruct (0xE0 + c / 4096 =? 0xF4) eqn:A4; Z.div_mod_to_equations; lia. }
    assert (continuation (0x80 + c mod 64) = true) as ->
      by (unfold continuation; Z.div_mod_to_equations; lia).
    cbn [andb]. rewrite !Z.shiftl_mul_pow2 by lia.
    replace ((0xE0 + c / 4096) * 2 ^ 12 + (0x80 + c / 64 mod 64) * 2 ^ 6
             + (0x80 + c mod 64) - (0xE0 * 2 ^ 12 + 0x80 * 2 ^ 6 + 0x80)) with c
      by (Z.div_mod_to_equations; lia).
    done. }
  intros [= <-]. cbn [app decode].
  assert ((0xF0 + c / 262144 <? 0x80) = false) as -> by (Z.div_mod_to_equations; lia).
  assert ((0xC2 <=? 0xF0 + c / 262144) && (0xF0 + c / 262144 <=? 0xDF) = false) as ->
    by (Z.div_mod_to_equations; lia).
  assert ((0xE0 <=? 0xF0 + c / 262144) && (0xF0 + c / 262144 <=? 0xEF) = false) as ->
    by (Z.div_mod_to_equations; lia).
  assert ((0xF0 <=? 0xF0 + c / 262144) && (0xF0 + c / 262144 <=? 0xF4) = true) as ->
    by (Z.div_mod_to_equations; lia).
  assert (second_byte (0xF0 + c / 262144) (0x80 + c / 4096 mod 64) = true) as ->.
  { unfold second_byte, continuation.
    destruct (0xF0 + c / 262144 =? 0xE0) eqn:A1; [Z.div_mod_to_equations; lia|].
    destruct (0xF0 + c / 262144 =? 0xED) eqn:A2; [Z.div_mod_to_equations; lia|].
    destruct (0xF0 + c / 262144 =? 0xF0) eqn:A3; [Z.div_mod_to_equations; lia|].
    destruct (0xF0 + c / 262144 =? 0xF4) eqn:A4; Z.div_mod_to_equations; lia. }
  assert (continuation (0x80 + c / 64 mod 64) = true) as ->
    by (unfold continuation; Z.div_mod_to_equations; lia).
  assert (continuation (0x80 + c mod 64) = true) as ->
    by (unfold continuation; Z.div_mod_to_equations; lia).
  cbn [andb]. rewrite !Z.shiftl_mul_pow2 by lia.
  replace ((0xF0 + c / 262144) * 2 ^ 18 + (0x80 + c / 4096 mod 64) * 2 ^ 12
           + (0x80 + c / 64 mod 64) * 2 ^ 6 + (0x80 + c mod 64)
           - (0xF0 * 2 ^ 18 + 0x80 * 2 ^ 12 + 0x80 * 2 ^ 6 + 0x80)) with c
    by (Z.div_mod_to_equations; lia).
  done.
Qed.

Lemma decode_encode s b :
  Forall is_code_point s → encode s = Some b → decode b = Some s.
Proof.
  intros Hs. revert b. induction Hs as [|c s Hc _ IH]; intros b.
  - by intros [= <-].
  - cbn [encode]. destruct (encode_char c) as [bs|] eqn:Ec; [|done].
    destruct (encode s) as [tail|]; [|done]. intros [= <-].
    rewrite (decode_encode_char c bs tail Hc Ec), (IH tail eq_refl). done.
Qed.

Lemma length_decode data s : decode data = Some s → (length s ≤ length data)%nat.
Proof.
  revert s. induction data as [data IH] using (induction_ltof1 _ length). unfold ltof in IH.
  intros s. destruct data as [|b0 rest]; [by intros [= <-]|].
  cbn [decode].
  assert (∀ tail (c : Z), (length tail < length (b0 :: rest))%nat →
            (λ s, c :: s) <$> decode tail = Some s → (length s ≤ length (b0 :: rest))%nat)
    as Hstep.
  { intros tail c Hlt Hs. destruct (decode tail) as [t|] eqn:Et; [|done].
    injection Hs as <-. specialize (IH tail Hlt t Et). simpl in *. lia. }
  destruct (b0 <? 0x80); [apply Hstep; simpl; lia|].
  destruct (_ && _).
  { destruct rest as [|b1 rest]; [done|]. destruct (continuation b1); [|done].
    apply Hstep. simpl. lia. }
  destruct (_ && _).
  { destruct rest as [|b1 [|b2 rest]]; [done..|]. destruct (_ && _); [|done].
    apply Hstep. simpl. lia. }
  destruct (_ && _); [|done].
  destruct rest as [|b1 [|b2 [|b3 rest]]]; [done..|]. destruct (_ && _); [|done].
  apply Hstep. simpl. lia.
Qed.

Lemma window_extract_ok backend_extract img rate fs fs' data :
  img ≠ ""%string → backend_extract img rate fs = (fs', OK data) →
  MethodTab.extract backend_extract img rate fs = (fs', shown data).
Proof.
  intros Himg Hex. unfold MethodTab.extract, shown.
  rewrite bool_decide_eq_false_2 by done. rewrite Hex. by destruct (decode data).
Qed.

Lemma output_path_nonempty os img tag : MethodTab._output_path os img tag ≠ ""%string.
Proof.
  intros Heq. destruct (output_path_chars os img tag) as (base & ext & _ & Ho).
  rewrite Heq in Ho. apply (f_equal length) in Ho.
  rewrite !length_app in Ho. cbn in Ho. lia.
Qed.

(** The text the window shows back, given the stripped entry text. *)
Lemma shown_payload raw b :
  Forall is_code_point raw → raw ≠ [] → MethodTab.payload_bytes raw = Some b →
  (forallb in_hexdigits raw && (len raw mod 2 =? 0) = false → shown b = ShownText raw) ∧
  (forallb in_hexdigits raw && (len raw mod 2 =? 0) = true → shown b ≠ ShownText raw).
Proof.
  intros Hcp Hne Hb. split; intros Hhex.
  - unfold MethodTab.payload_bytes in Hb. rewrite Hhex in Hb.
    unfold shown. by rewrite (decode_encode raw b Hcp Hb).
  - destruct (payload_bytes_hex raw Hhex) as (b' & Hb' & Hl & _).
    rewrite Hb in Hb'. injection Hb' as <-.
    unfold shown. destruct (decode b) as [s|] eqn:Ed; [|done].
    intros [= ->]. apply length_decode in Ed.
    destruct raw; [done|]. unfold len in Hl. simpl in *. lia.
Qed.


(** ** Instances

    Each property above, at the demonstration image. *)


Lemma lsbm_boundary_law_witness :
  ∃ stego,
    (lsb_matching.embed demo_rng "cover.bmp" demo_payload 1 "stego.bmp" demo_fs).1
      !! "stego.bmp"%string = Some (Bmp stego) ∧
    length stego = length demo_carrier.
Proof.
  destruct (lsbm_boundary_law demo_rng demo_fs
              (lsb_matching.embed demo_rng "cover.bmp" demo_payload 1 "stego.bmp" demo_fs).1
              "cover.bmp" "stego.bmp" demo_carrier demo_payload 1)
    as (stego & H1 & H2 & _).
  - exact demo_fs_cover.
  - exact demo_carrier_bytes.
  - apply injective_projections; [reflexivity | vm_compute; reflexivity].
  - exists stego. split; assumption.
Defined.


Lemma capacity_check_atomic_witness :
  (hamming_code.embed "cover.bmp" demo_payload (1 # 2) "stego.bmp" demo_fs).1 = demo_fs.
Proof.
  destruct (capacity_check_atomic demo_rng demo_fs "cover.bmp" "stego.bmp"
              demo_payload (1 # 2)) as (_ & _ & H).
  apply H. vm_compute. reflexivity.
Defined.

Lemma magic_isolation_witness :
  hamming_code.extract "stego.bmp" 1
    (lsb_matching.embed demo_rng "cover.bmp" demo_payload 1 "stego.bmp" demo_fs).1
  = ((lsb_matching.embed demo_rng "cover.bmp" demo_payload 1 "stego.bmp" demo_fs).1,
     Error MagicMismatch).
Proof.
  apply (magic_isolation demo_rng demo_fs _ "cover.bmp" "stego.bmp"
           demo_carrier demo_payload 1).
  - exact demo_fs_cover.
  - exact demo_carrier_bytes.
  - apply injective_projections; [reflexivity | vm_compute; reflexivity].
  - vm_compute. discriminate.
Defined.


Lemma rate_zero_never_embeds_witness :
  lsb_replacement.embed "cover.bmp" [] 0 "stego.bmp" demo_fs
    = (demo_fs, Error CapacityExceeded) ∧
  lsb_matching.embed demo_rng "cover.bmp" [] 0 "stego.bmp" demo_fs
    = (demo_fs, Error CapacityExceeded) ∧
  hamming_code.embed "cover.bmp" [] 0 "stego.bmp" demo_fs
    = (demo_fs, Error CapacityExceeded).
Proof.
  destruct (rate_zero_never_embeds demo_rng demo_fs "cover.bmp" "stego.bmp" demo_carrier [])
    as (_ & _ & _ & _ & H1 & H2 & H3).
  - exact demo_fs_cover.
  - reflexivity.
  - split; [exact H1 | split; [exact H2 | exact H3]].
Defined.

Lemma demo_lsbr_embed :
  lsb_replacement.embed "cover.bmp" demo_payload 1 "stego.bmp" demo_fs
  = (demo_stego_fs, OK ()).
Proof. apply injective_projections; [reflexivity | vm_compute; reflexivity]. Qed.

Lemma demo_hamm_embed :
  hamming_code.embed "cover.bmp" demo_payload 1 "stego.bmp" demo_fs
  = ((hamming_code.embed "cover.bmp" demo_payload 1 "stego.bmp" demo_fs).1, OK ()).
Proof. apply injective_projections; [reflexivity | vm_compute; reflexivity]. Qed.

Lemma embed_writes_one_image_witness :
  ∃ stego, demo_stego_fs = <["stego.bmp"%string := Bmp stego]> demo_fs ∧
           length stego = length demo_carrier ∧ Forall is_byte stego.
Proof.
  apply (embed_writes_one_image demo_rng demo_fs demo_stego_fs "cover.bmp" "stego.bmp"
           demo_carrier demo_payload 1).
  - exact demo_fs_cover.
  - exact demo_carrier_bytes.
  - left. exact demo_lsbr_embed.
Defined.

Lemma embed_distortion_at_most_one_witness :
  ∃ stego, demo_stego_fs !! "stego.bmp"%string = Some (Bmp stego) ∧
    ∀ (i : nat) x y, demo_carrier !! i = Some x → stego !! i = Some y → -1 ≤ y - x ≤ 1.
Proof.
  apply (embed_distortion_at_most_one demo_rng demo_fs demo_stego_fs "cover.bmp"
           "stego.bmp" demo_carrier demo_payload 1).
  - exact demo_fs_cover.
  - exact demo_carrier_bytes.
  - left. exact demo_lsbr_embed.
Defined.

Lemma lsbr_touches_bit0_only_witness :
  ∃ stego, demo_stego_fs !! "stego.bmp"%string = Some (Bmp stego) ∧
    ∀ (i : nat) x, demo_carrier !! i = Some x →
      ∃ y, stego !! i = Some y ∧
        match _bits_from_bytes (frame lsb_replacement._MAGIC demo_payload) !! i with
        | Some target => lsb y = target ∧ Z.shiftr y 1 = Z.shiftr x 1
        | None => y = x
        end.
Proof.
  apply (lsbr_touches_bit0_only demo_fs demo_stego_fs "cover.bmp" "stego.bmp"
           demo_carrier demo_payload 1).
  - exact demo_fs_cover.
  - exact demo_carrier_bytes.
  - exact demo_lsbr_embed.
Defined.


Lemma embed_again_changes_nothing_witness :
  ∃ stego, demo_stego_fs !! "stego.bmp"%string = Some (Bmp stego) ∧
    lsb_replacement.embed "stego.bmp" demo_payload 1 "again.bmp" demo_stego_fs
    = (<["again.bmp"%string := Bmp stego]> demo_stego_fs, OK ()).
Proof.
  destruct (embed_again_changes_nothing demo_rng demo_rng demo_fs demo_stego_fs
              "cover.bmp" "stego.bmp" "again.bmp" demo_carrier demo_payload 1)
    as (H & _).
  - exact demo_fs_cover.
  - exact demo_carrier_bytes.
  - apply H. exact demo_lsbr_embed.
Defined.






Lemma window_never_overwrites_cover_witness :
  (MethodTab.embed ntpath hamming_code.embed "ham" "cover.bmp" [72; 105] 1 demo_fs).1
    !! "cover.bmp"%string
  = demo_fs !! "cover.bmp"%string.
Proof.
  destruct (window_never_overwrites_cover demo_rng ntpath hamming_code.embed "ham"
              "cover.bmp" [72; 105] 1 demo_fs) as [H _].
  - right. right. reflexivity.
  - exact H.
Defined.

Lemma window_embeds_loaded_file_witness :
  MethodTab.embed posixpath lsb_replacement.embed "lsbr" "cover.bmp"
    (MethodTab.load_payload_file [0; 255]) 1 demo_fs
  = if bool_decide ([0; 255] = [])
    then (demo_fs, NoPayload)
    else match lsb_replacement.embed "cover.bmp" [0; 255] 1
                 (MethodTab._output_path posixpath "cover.bmp" "lsbr") demo_fs with
         | (fs', OK _) => (fs', Embedded (MethodTab._output_path posixpath "cover.bmp" "lsbr"))
         | (fs', Error e) => (fs', EmbedFailed e)
         end.
Proof.
  apply (window_embeds_loaded_file posixpath lsb_replacement.embed "lsbr" "cover.bmp"
           [0; 255] 1 demo_fs).
  - repeat constructor; unfold is_byte; lia.
  - discriminate.
Defined.


Lemma window_tabs_write_distinct_files_witness :
  MethodTab._output_path ntpath "C:\img\cover.bmp" "lsbr"
  ≠ MethodTab._output_path ntpath "C:\img\cover.bmp" "ham".
Proof.
  apply (window_tabs_write_distinct_files ntpath "C:\img\cover.bmp" "lsbr" "ham").
  discriminate.
Defined.

Lemma window_output_keeps_extension_witness :
  MethodTab._output_path posixpath ("/home/u/cover" +:+ "." +:+ "bmp") "lsbr"
  = "/home/u/cover" +:+ "_stego_" +:+ "lsbr" +:+ "." +:+ "bmp".
Proof.
  apply (window_output_keeps_extension posixpath "/home/u/cover" "bmp" "lsbr"
           (Ascii.ascii_of_nat 114)).
  - reflexivity.
  - vm_compute. intros H. by repeat (apply elem_of_cons in H as [H|H]; [discriminate|]);
      apply elem_of_nil in H.
  - intros x Hx H. vm_compute in Hx, H.
    repeat (apply elem_of_cons in Hx as [->|Hx];
            [by repeat (apply elem_of_cons in H as [H|H]; [discriminate|]);
                apply elem_of_nil in H|]).
    by apply elem_of_nil in Hx.
Defined.

